(** * UniTracker: pin registry, persistence and the add-pin interaction

    A shallow embedding of the three [Home] screens of the repository
    (the minimal screen and the soft screen of
    [client/src/pages/Home.tsx], and the cyber screen of the third source
    file), of the two [useEffect] hooks that mirror the pin list into
    [localStorage], and of the JavaScript built-ins these use
    ([String.prototype.trim], [Number.prototype.toString] on time values,
    [Number::toString] and the value of a numeric literal,
    [JSON.stringify], [JSON.parse]).

    Conventions.
    - A JavaScript string is the list of its UTF-16 code units ([N]).
    - A JavaScript number is a binary64 float ([float]).  The JSON
      functions take the writing and the reading of numbers as a
      parameter, a [NumberCodec]; [ecmaNumbers] is the platform's:
      [Number::toString], the shortest decimal that is read as the
      number, and the rounding of a decimal to the nearest double.
    - A handler reads the state of the render it was created in and
      queues absolute updates: it is a function from that state to the
      next state and the toasts it raised, oldest first.
    - [Date.now()] is an input of the handler that reads it.
    - A request to the geolocation is answered later, by one of its two
      callbacks, or never.  Where the handler writes no cell before it
      asks (the locate button of the minimal screen, the mount effect and
      the quick capture of the soft screen), the request and its answer
      are one step and the answer is an input of the handler.  Where the
      handler raises [isLocating] first (the locate button of the soft
      screen, [startTracking] of the cyber screen), the request and the
      answer are two steps, and the second may never come. *)

From Stdlib Require Import ZArith NArith List String Ascii Lia.
From Stdlib Require Import DecimalZ ZifyBool.
From Stdlib Require Import Floats.
From stdpp Require Import base option list gmap.

#[local] Open Scope N_scope.
#[local] Set Warnings "-inexact-float,-register-all".

(** ** JavaScript strings *)

Abbreviation jsstring := (list N).

(** A string literal of the source whose characters are all ASCII. *)
Definition lit (s : string) : jsstring :=
  map N_of_ascii (list_ascii_of_string s).

(** ECMAScript WhiteSpace and LineTerminator code points, the characters
    [trim] strips. *)
Definition isWhiteSpace (c : N) : bool :=
  (c =? 0x09) || (c =? 0x0A) || (c =? 0x0B) || (c =? 0x0C) || (c =? 0x0D)
  || (c =? 0x20) || (c =? 0xA0) || (c =? 0x1680)
  || ((0x2000 <=? c) && (c <=? 0x200A))
  || (c =? 0x2028) || (c =? 0x2029) || (c =? 0x202F) || (c =? 0x205F)
  || (c =? 0x3000) || (c =? 0xFEFF).

Fixpoint trimStart (s : jsstring) : jsstring :=
  match s with
  | [] => []
  | c :: r => if isWhiteSpace c then trimStart r else s
  end.

Definition trimEnd (s : jsstring) : jsstring := rev (trimStart (rev s)).

(** [s.trim()] *)
Definition trim (s : jsstring) : jsstring := trimEnd (trimStart s).

(** [!s] on a string: only the empty string is falsy. *)
Definition falsy (s : jsstring) : bool :=
  match s with [] => true | _ :: _ => false end.

(** ** Numbers *)

(** The decimal digits of an unsigned decimal numeral, as code units. *)
Fixpoint uintDigits (d : Decimal.uint) : jsstring :=
  match d with
  | Decimal.Nil => []
  | Decimal.D0 r => 0x30 :: uintDigits r
  | Decimal.D1 r => 0x31 :: uintDigits r
  | Decimal.D2 r => 0x32 :: uintDigits r
  | Decimal.D3 r => 0x33 :: uintDigits r
  | Decimal.D4 r => 0x34 :: uintDigits r
  | Decimal.D5 r => 0x35 :: uintDigits r
  | Decimal.D6 r => 0x36 :: uintDigits r
  | Decimal.D7 r => 0x37 :: uintDigits r
  | Decimal.D8 r => 0x38 :: uintDigits r
  | Decimal.D9 r => 0x39 :: uintDigits r
  end.

(** [t.toString()] for a time value [t] (an integral number, as
    [Date.now()] returns): the decimal digits, after a minus sign when
    negative. *)
Definition timeToString (t : Z) : jsstring :=
  match Z.to_int t with
  | Decimal.Pos d => uintDigits d
  | Decimal.Neg d => 0x2D :: uintDigits d
  end.

(** The number that holds the integer [z] (exact up to 2^53 in magnitude,
    which covers every time value). *)
Definition numberOfZ (z : Z) : float :=
  SF2Prim (binary_normalize prec emax z 0 false).

(** How numbers are written and read: [Number::toString] on a finite
    number and the value of a JSON number. *)
Record NumberCodec := {
  NumberToString : float -> jsstring;
  StringToNumber : jsstring -> float }.

(** ** Exceptions *)

Inductive error : Type := SyntaxError.

Inductive completion (A : Type) : Type :=
| Normal (a : A)
| Throw (e : error).
Arguments Normal {A} a.
Arguments Throw {A} e.

(** [try { body } catch (e) { handler(e) }] *)
Definition tryCatch {A} (body : completion A) (handler : error -> completion A)
  : completion A :=
  match body with
  | Normal a => Normal a
  | Throw e => handler e
  end.

(** ** JSON values and [JSON.stringify] *)

(** A JSON value.  An object is kept as its members, in the order of its
    property keys. *)
Inductive json : Type :=
| JNull
| JBool (b : bool)
| JNumber (x : float)
| JString (s : jsstring)
| JArray (elements : list json)
| JObject (members : list (jsstring * json)).

Definition hexDigit (d : N) : N := if d <? 10 then 0x30 + d else 0x57 + d.

(** [\uXXXX], lower-case hexadecimal. *)
Definition UnicodeEscape (c : N) : jsstring :=
  [0x5C; 0x75; hexDigit (c / 4096 mod 16); hexDigit (c / 256 mod 16);
   hexDigit (c / 16 mod 16); hexDigit (c mod 16)].

Definition isLeadingSurrogate (c : N) : bool := (0xD800 <=? c) && (c <=? 0xDBFF).
Definition isTrailingSurrogate (c : N) : bool := (0xDC00 <=? c) && (c <=? 0xDFFF).

(** The rendering of one code unit that is no surrogate. *)
Definition quoteCodeUnit (c : N) : jsstring :=
  if c =? 0x08 then [0x5C; 0x62]
  else if c =? 0x09 then [0x5C; 0x74]
  else if c =? 0x0A then [0x5C; 0x6E]
  else if c =? 0x0C then [0x5C; 0x66]
  else if c =? 0x0D then [0x5C; 0x72]
  else if c =? 0x22 then [0x5C; 0x22]
  else if c =? 0x5C then [0x5C; 0x5C]
  else if c <? 0x20 then UnicodeEscape c
  else [c].

(** The characters between the quotes of [QuoteJSONString]: a surrogate
    pair is copied, a lone surrogate is escaped. *)
Fixpoint quoteChars (s : jsstring) : jsstring :=
  match s with
  | [] => []
  | c :: r =>
    if isLeadingSurrogate c then
      match r with
      | d :: r' =>
        if isTrailingSurrogate d then c :: d :: quoteChars r'
        else UnicodeEscape c ++ quoteChars r
      | [] => UnicodeEscape c
      end
    else if isTrailingSurrogate c then UnicodeEscape c ++ quoteChars r
    else quoteCodeUnit c ++ quoteChars r
  end.

Definition QuoteJSONString (s : jsstring) : jsstring :=
  0x22 :: quoteChars s ++ [0x22].

Fixpoint joinWith (sep : N) (parts : list jsstring) : jsstring :=
  match parts with
  | [] => []
  | p :: ps =>
    match ps with
    | [] => p
    | _ :: _ => p ++ sep :: joinWith sep ps
    end
  end.

Section JSONText.
Variable codec : NumberCodec.

(** [JSON.stringify(v)] without indentation: a number that is not finite
    is written [null]. *)
Fixpoint JSON_stringify (v : json) : jsstring :=
  match v with
  | JNull => lit "null"
  | JBool b => if b then lit "true" else lit "false"
  | JNumber x => if is_finite x then NumberToString codec x else lit "null"
  | JString s => QuoteJSONString s
  | JArray l => 0x5B :: joinWith 0x2C (map JSON_stringify l) ++ [0x5D]
  | JObject l =>
    0x7B :: joinWith 0x2C
              (map (fun kv => QuoteJSONString (fst kv) ++ 0x3A :: JSON_stringify (snd kv)) l)
         ++ [0x7D]
  end.

(** ** [JSON.parse] *)

Definition isJSONWhiteSpace (c : N) : bool :=
  (c =? 0x20) || (c =? 0x09) || (c =? 0x0A) || (c =? 0x0D).

Fixpoint skipWS (s : jsstring) : jsstring :=
  match s with
  | [] => []
  | c :: r => if isJSONWhiteSpace c then skipWS r else s
  end.

Definition hexValue (c : N) : option N :=
  if (0x30 <=? c) && (c <=? 0x39) then Some (c - 0x30)
  else if (0x61 <=? c) && (c <=? 0x66) then Some (c - 0x57)
  else if (0x41 <=? c) && (c <=? 0x46) then Some (c - 0x37)
  else None.

(** The character a one-letter escape stands for. *)
Definition simpleEscape (e : N) : option N :=
  if e =? 0x22 then Some 0x22
  else if e =? 0x5C then Some 0x5C
  else if e =? 0x2F then Some 0x2F
  else if e =? 0x62 then Some 0x08
  else if e =? 0x66 then Some 0x0C
  else if e =? 0x6E then Some 0x0A
  else if e =? 0x72 then Some 0x0D
  else if e =? 0x74 then Some 0x09
  else None.

(** The characters of a string literal after its opening quote, up to
    and including the closing quote; the rest of the text. *)
Fixpoint parseChars (s : jsstring) : option (jsstring * jsstring) :=
  match s with
  | [] => None
  | c :: r =>
    if c =? 0x22 then Some ([], r)
    else if c =? 0x5C then
      match r with
      | [] => None
      | e :: r1 =>
        if e =? 0x75 then
          match r1 with
          | h1 :: h2 :: h3 :: h4 :: r2 =>
            match hexValue h1, hexValue h2, hexValue h3, hexValue h4 with
            | Some a, Some b, Some c', Some d =>
              match parseChars r2 with
              | Some (str, rest) => Some ((4096 * a + 256 * b + 16 * c' + d) :: str, rest)
              | None => None
              end
            | _, _, _, _ => None
            end
          | _ => None
          end
        else
          match simpleEscape e with
          | Some u =>
            match parseChars r1 with
            | Some (str, rest) => Some (u :: str, rest)
            | None => None
            end
          | None => None
          end
      end
    else if c <? 0x20 then None
    else
      match parseChars r with
      | Some (str, rest) => Some (c :: str, rest)
      | None => None
      end
  end.

Definition isDigit (c : N) : bool := (0x30 <=? c) && (c <=? 0x39).

Fixpoint spanDigits (s : jsstring) : jsstring * jsstring :=
  match s with
  | [] => ([], [])
  | c :: r =>
    if isDigit c then let (ds, rest) := spanDigits r in (c :: ds, rest)
    else ([], s)
  end.

(** [0], or a non-zero digit and more digits. *)
Definition lexInt (s : jsstring) : option (jsstring * jsstring) :=
  match s with
  | [] => None
  | c :: r =>
    if c =? 0x30 then Some ([c], r)
    else if isDigit c then let (ds, rest) := spanDigits r in Some (c :: ds, rest)
    else None
  end.

(** An optional fraction: a point and at least one digit. *)
Definition lexFrac (s : jsstring) : option (jsstring * jsstring) :=
  match s with
  | [] => Some ([], [])
  | c :: r =>
    if c =? 0x2E then
      match spanDigits r with
      | ([], _) => None
      | (d :: ds, rest) => Some (c :: d :: ds, rest)
      end
    else Some ([], s)
  end.

(** An optional exponent: [e] or [E], an optional sign, at least one digit. *)
Definition lexExp (s : jsstring) : option (jsstring * jsstring) :=
  match s with
  | [] => Some ([], [])
  | c :: r =>
    if (c =? 0x65) || (c =? 0x45) then
      let (sign, r1) :=
        match r with
        | d :: r' => if (d =? 0x2B) || (d =? 0x2D) then ([d], r') else ([], r)
        | [] => ([], r)
        end in
      match spanDigits r1 with
      | ([], _) => None
      | (d :: ds, rest) => Some (c :: sign ++ d :: ds, rest)
      end
    else Some ([], s)
  end.

(** The longest JSON number at the head of the text, and the rest. *)
Definition lexNumber (s : jsstring) : option (jsstring * jsstring) :=
  let (sign, s1) :=
    match s with
    | c :: r => if c =? 0x2D then ([c], r) else ([], s)
    | [] => ([], s)
    end in
  match lexInt s1 with
  | None => None
  | Some (i, s2) =>
    match lexFrac s2 with
    | None => None
    | Some (f, s3) =>
      match lexExp s3 with
      | None => None
      | Some (e, s4) => Some (sign ++ i ++ f ++ e, s4)
      end
    end
  end.

(** The text after the word [w], when the text starts with it. *)
Fixpoint stripPrefix (w s : jsstring) : option jsstring :=
  match w with
  | [] => Some s
  | a :: w' =>
    match s with
    | [] => None
    | c :: r => if a =? c then stripPrefix w' r else None
    end
  end.

(** The value of a string of decimal digits. *)
Definition decimalValue (s : jsstring) : N :=
  fold_left (fun acc c => 10 * acc + (c - 0x30)) s 0.

(** An array index: the decimal numeral, without leading zeros, of an
    integer below 2^32 - 1. *)
Definition arrayIndex (key : jsstring) : option N :=
  match key with
  | [] => None
  | c :: r =>
    if forallb isDigit key && (negb (c =? 0x30) || falsy r)
       && (length key <=? 10)%nat && (decimalValue key <? 4294967295)
    then Some (decimalValue key)
    else None
  end.

Definition hasProperty (key : jsstring) (members : list (jsstring * json)) : bool :=
  existsb (fun kv => bool_decide (fst kv = key)) members.

(** The place of a new array index: before the first greater index, and
    before every name that is no index. *)
Fixpoint insertIndex (i : N) (key : jsstring) (v : json) (members : list (jsstring * json))
  : list (jsstring * json) :=
  match members with
  | [] => [(key, v)]
  | kv :: rest =>
    match arrayIndex (fst kv) with
    | Some j => if i <? j then (key, v) :: members else kv :: insertIndex i key v rest
    | None => (key, v) :: members
    end
  end.

(** [CreateDataProperty]: a name that is there keeps its place and takes
    the new value; a new array index goes among the indices, in ascending
    order; any other new name goes last. *)
Definition defineProperty (key : jsstring) (v : json) (members : list (jsstring * json))
  : list (jsstring * json) :=
  if hasProperty key members
  then map (fun kv => if bool_decide (fst kv = key) then (key, v) else kv) members
  else
    match arrayIndex key with
    | Some i => insertIndex i key v members
    | None => members ++ [(key, v)]
    end.

(** The object built from the members of an object literal, defined in
    text order. *)
Definition objectOf (members : list (jsstring * json)) : list (jsstring * json) :=
  fold_left (fun object kv => defineProperty (fst kv) (snd kv) object) members [].

(** One value, then the elements of an array after the first bracket,
    then the members of an object after the first brace.  Every call
    spends one unit of [fuel]; [JSON_parse] gives more than a text of its
    length can use. *)
Fixpoint parseValue (fuel : nat) (s : jsstring) : option (json * jsstring) :=
  match fuel with
  | O => None
  | S fuel =>
    match skipWS s with
    | [] => None
    | c :: r =>
      if c =? 0x22 then
        match parseChars r with
        | Some (str, rest) => Some (JString str, rest)
        | None => None
        end
      else if c =? 0x5B then
        match skipWS r with
        | [] => None
        | c' :: r' =>
          if c' =? 0x5D then Some (JArray [], r')
          else
            match parseElements fuel r with
            | Some (vs, rest) => Some (JArray vs, rest)
            | None => None
            end
        end
      else if c =? 0x7B then
        match skipWS r with
        | [] => None
        | c' :: r' =>
          if c' =? 0x7D then Some (JObject [], r')
          else
            match parseMembers fuel r with
            | Some (ms, rest) => Some (JObject (objectOf ms), rest)
            | None => None
            end
        end
      else
        match stripPrefix (lit "true") (c :: r) with
        | Some rest => Some (JBool true, rest)
        | None =>
          match stripPrefix (lit "false") (c :: r) with
          | Some rest => Some (JBool false, rest)
          | None =>
            match stripPrefix (lit "null") (c :: r) with
            | Some rest => Some (JNull, rest)
            | None =>
              match lexNumber (c :: r) with
              | Some (tok, rest) => Some (JNumber (StringToNumber codec tok), rest)
              | None => None
              end
            end
          end
        end
    end
  end
with parseElements (fuel : nat) (s : jsstring) : option (list json * jsstring) :=
  match fuel with
  | O => None
  | S fuel =>
    match parseValue fuel s with
    | None => None
    | Some (v, r) =>
      match skipWS r with
      | [] => None
      | c :: r' =>
        if c =? 0x2C then
          match parseElements fuel r' with
          | Some (vs, rest) => Some (v :: vs, rest)
          | None => None
          end
        else if c =? 0x5D then Some ([v], r')
        else None
      end
    end
  end
with parseMembers (fuel : nat) (s : jsstring)
  : option (list (jsstring * json) * jsstring) :=
  match fuel with
  | O => None
  | S fuel =>
    match skipWS s with
    | [] => None
    | q :: r0 =>
      if q =? 0x22 then
        match parseChars r0 with
        | None => None
        | Some (k, r1) =>
          match skipWS r1 with
          | [] => None
          | colon :: r2 =>
            if colon =? 0x3A then
              match parseValue fuel r2 with
              | None => None
              | Some (v, r3) =>
                match skipWS r3 with
                | [] => None
                | c :: r' =>
                  if c =? 0x2C then
                    match parseMembers fuel r' with
                    | Some (ms, rest) => Some ((k, v) :: ms, rest)
                    | None => None
                    end
                  else if c =? 0x7D then Some ([(k, v)], r')
                  else None
                end
              end
            else None
          end
        end
      else None
    end
  end.

(** [JSON.parse(text)]: the value of the text, or a [SyntaxError] when the
    text is no JSON text. *)
Definition JSON_parse (text : jsstring) : completion json :=
  match parseValue (S (length text)) text with
  | Some (v, rest) =>
    match skipWS rest with
    | [] => Normal v
    | _ :: _ => Throw SyntaxError
    end
  | None => Throw SyntaxError
  end.

End JSONText.

(** ** The data model of the screens *)

(** Leaflet's [L.LatLng]. *)
Module LatLng.
Record t := { lat : float; lng : float }.
End LatLng.

(** [new L.LatLng(lat, lng)]: Leaflet's constructor throws on a NaN;
    [None] stands for that uncaught [Error]. *)
Definition L_LatLng (lat lng : float) : option LatLng.t :=
  if is_nan lat || is_nan lng then None
  else Some {| LatLng.lat := lat; LatLng.lng := lng |}.

(** [interface Pin] *)
Module Pin.
Record t := {
  id : jsstring;
  lat : float;
  lng : float;
  title : jsstring;
  description : jsstring;
  timestamp : float }.
End Pin.

(** The argument of [toast({ title, description, variant })]. *)
Module Toast.
Inductive kind : Type := Default | Destructive.
Record t := {
  title : jsstring;
  description : option jsstring;
  variant : kind }.
End Toast.

Definition notice (title : jsstring) : Toast.t :=
  {| Toast.title := title; Toast.description := None; Toast.variant := Toast.Default |}.
Definition noticeWith (title description : jsstring) : Toast.t :=
  {| Toast.title := title; Toast.description := Some description;
     Toast.variant := Toast.Default |}.
Definition alert (title : jsstring) : Toast.t :=
  {| Toast.title := title; Toast.description := None; Toast.variant := Toast.Destructive |}.
Definition alertWith (title description : jsstring) : Toast.t :=
  {| Toast.title := title; Toast.description := Some description;
     Toast.variant := Toast.Destructive |}.

(** The [useState] cells of [Home].  The minimal screen has no
    [isLocating] cell and never writes it. *)
Record State := {
  pins : list Pin.t;
  userLocation : option (float * float);
  isSidebarOpen : bool;
  isAddingPin : bool;
  selectedLocation : option LatLng.t;
  isLocating : bool;
  pinTitle : jsstring;
  pinDesc : jsstring }.

Definition initialState : State :=
  {| pins := []; userLocation := None; isSidebarOpen := false;
     isAddingPin := false; selectedLocation := None; isLocating := false;
     pinTitle := []; pinDesc := [] |}.

Definition setPins (v : list Pin.t) (s : State) : State :=
  {| pins := v; userLocation := userLocation s; isSidebarOpen := isSidebarOpen s;
     isAddingPin := isAddingPin s; selectedLocation := selectedLocation s;
     isLocating := isLocating s; pinTitle := pinTitle s; pinDesc := pinDesc s |}.
Definition setUserLocation (v : option (float * float)) (s : State) : State :=
  {| pins := pins s; userLocation := v; isSidebarOpen := isSidebarOpen s;
     isAddingPin := isAddingPin s; selectedLocation := selectedLocation s;
     isLocating := isLocating s; pinTitle := pinTitle s; pinDesc := pinDesc s |}.
Definition setIsSidebarOpen (v : bool) (s : State) : State :=
  {| pins := pins s; userLocation := userLocation s; isSidebarOpen := v;
     isAddingPin := isAddingPin s; selectedLocation := selectedLocation s;
     isLocating := isLocating s; pinTitle := pinTitle s; pinDesc := pinDesc s |}.
Definition setIsAddingPin (v : bool) (s : State) : State :=
  {| pins := pins s; userLocation := userLocation s; isSidebarOpen := isSidebarOpen s;
     isAddingPin := v; selectedLocation := selectedLocation s;
     isLocating := isLocating s; pinTitle := pinTitle s; pinDesc := pinDesc s |}.
Definition setSelectedLocation (v : option LatLng.t) (s : State) : State :=
  {| pins := pins s; userLocation := userLocation s; isSidebarOpen := isSidebarOpen s;
     isAddingPin := isAddingPin s; selectedLocation := v;
     isLocating := isLocating s; pinTitle := pinTitle s; pinDesc := pinDesc s |}.
Definition setIsLocating (v : bool) (s : State) : State :=
  {| pins := pins s; userLocation := userLocation s; isSidebarOpen := isSidebarOpen s;
     isAddingPin := isAddingPin s; selectedLocation := selectedLocation s;
     isLocating := v; pinTitle := pinTitle s; pinDesc := pinDesc s |}.
Definition setPinTitle (v : jsstring) (s : State) : State :=
  {| pins := pins s; userLocation := userLocation s; isSidebarOpen := isSidebarOpen s;
     isAddingPin := isAddingPin s; selectedLocation := selectedLocation s;
     isLocating := isLocating s; pinTitle := v; pinDesc := pinDesc s |}.
Definition setPinDesc (v : jsstring) (s : State) : State :=
  {| pins := pins s; userLocation := userLocation s; isSidebarOpen := isSidebarOpen s;
     isAddingPin := isAddingPin s; selectedLocation := selectedLocation s;
     isLocating := isLocating s; pinTitle := pinTitle s; pinDesc := v |}.

(** A handler: the state of its render to the next state and its toasts. *)
Definition Handler : Type := State -> State * list Toast.t.

(** What [getCurrentPosition] or [watchPosition] hands to its callbacks. *)
Inductive GeolocationAnswer : Type :=
| Position (latitude longitude : float)
| PositionError.

(** ** The minimal screen (first [Home] of [client/src/pages/Home.tsx]) *)

Module Minimal.

(** [geolocation] is [None] when [navigator.geolocation] is missing, and
    otherwise what [getCurrentPosition] answers; the callback is run with
    the handler, which writes no cell of its own. *)
Definition handleLocateMe (geolocation : option GeolocationAnswer) : Handler :=
  fun s =>
  match geolocation with
  | None => (s, [alert (lit "Geolocation is not supported by your browser.")])
  | Some (Position latitude longitude) =>
    (setUserLocation (Some (latitude, longitude)) s, [notice (lit "Locating you...")])
  | Some PositionError =>
    (s, [notice (lit "Locating you..."); alert (lit "Unable to retrieve your location.")])
  end.

Definition handleMapClick (latlng : LatLng.t) : Handler :=
  fun s =>
  if isAddingPin s
  then (setIsSidebarOpen true (setSelectedLocation (Some latlng) s), [])
  else (s, []).

(** [now1] and [now2] are the two readings of [Date.now()]. *)
Definition savePin (now1 now2 : Z) : Handler :=
  fun s =>
  match selectedLocation s with
  | None => (s, [])
  | Some location =>
    if falsy (trim (pinTitle s))
    then (s, [alert (lit "Please enter a title")])
    else
      let newPin :=
        {| Pin.id := timeToString now1;
           Pin.lat := LatLng.lat location;
           Pin.lng := LatLng.lng location;
           Pin.title := pinTitle s;
           Pin.description := pinDesc s;
           Pin.timestamp := numberOfZ now2 |} in
      (setIsAddingPin false
         (setSelectedLocation None
            (setPinDesc [] (setPinTitle [] (setPins (pins s ++ [newPin]) s)))),
       [notice (lit "Location pinned successfully!")])
  end.

Definition deletePin (id : jsstring) : Handler :=
  fun s =>
  (setPins (filter (fun p => Pin.id p <> id) (pins s)) s, [notice (lit "Pin removed")]).

Definition flyToPin (lat lng : float) : Handler :=
  fun s => (setIsSidebarOpen false (setUserLocation (Some (lat, lng)) s), []).

(** The list button. *)
Definition onToggleSidebar : Handler :=
  fun s => (setIsSidebarOpen (negb (isSidebarOpen s)) s, []).

(** The plus button. *)
Definition onToggleAddPin : Handler :=
  fun s =>
  let s' := setIsAddingPin (negb (isAddingPin s)) s in
  if negb (isAddingPin s)
  then (s', [notice (lit "Tap anywhere on the map to drop a pin")])
  else (setSelectedLocation None s', []).

(** The sidebar's close button. *)
Definition onCloseSidebar : Handler :=
  fun s => (setIsSidebarOpen false s, []).

(** The form's Cancel button. *)
Definition onCancel : Handler :=
  fun s => (setIsAddingPin false (setSelectedLocation None s), []).

End Minimal.

(** ** The soft screen (second [Home] of [client/src/pages/Home.tsx]) *)

Module Soft.

(** The three characters that close two of this screen's titles in the
    source text. *)
Definition glyph : jsstring := [0xF0; 0x178; 0x201C].

(** The mount effect that locates the user once. *)
Definition autoLocate (geolocation : option GeolocationAnswer) : Handler :=
  fun s =>
  match geolocation with
  | None => (s, [])
  | Some (Position latitude longitude) =>
    (setUserLocation (Some (latitude, longitude)) s,
     [notice (lit "Found your location! " ++ glyph)])
  | Some PositionError => (s, [])
  end.

(** [geolocation] tells whether [navigator.geolocation] is there.  The
    handler returns once the request is made, with [isLocating] raised;
    the request has no timeout. *)
Definition handleLocateMe (geolocation : bool) : Handler :=
  fun s =>
  if geolocation then (setIsLocating true s, [])
  else (s, [alert (lit "Geolocation not supported")]).

(** The two callbacks of the request of [handleLocateMe]. *)
Definition onLocated (answer : GeolocationAnswer) : Handler :=
  fun s =>
  match answer with
  | Position latitude longitude =>
    (setIsLocating false (setUserLocation (Some (latitude, longitude)) s), [])
  | PositionError => (setIsLocating false s, [alert (lit "Position unavailable")])
  end.

(** The locate button: [disabled] while [isLocating] is raised. *)
Definition onLocateButton (geolocation : bool) : Handler :=
  fun s => if isLocating s then (s, []) else handleLocateMe geolocation s.

(** Quick capture asks the platform for one fresh position. *)
Definition handleQuickPin (geolocation : option GeolocationAnswer) : Handler :=
  fun s =>
  match geolocation with
  | None => (s, [alert (lit "Geolocation not supported")])
  | Some (Position latitude longitude) =>
    match L_LatLng latitude longitude with
    | None => (s, [notice (lit "Capturing current spot...")])
    | Some coords =>
      (setIsAddingPin false
         (setIsSidebarOpen true
            (setUserLocation (Some (LatLng.lat coords, LatLng.lng coords))
               (setSelectedLocation (Some coords) s))),
       [notice (lit "Capturing current spot...")])
    end
  | Some PositionError =>
    (s, [notice (lit "Capturing current spot...");
         alert (lit "Could not get current location")])
  end.

Definition handleMapClick (latlng : LatLng.t) : Handler :=
  fun s =>
  if isAddingPin s
  then (setIsSidebarOpen true (setSelectedLocation (Some latlng) s), [])
  else (s, []).

Definition savePin (now1 now2 : Z) : Handler :=
  fun s =>
  match selectedLocation s with
  | None => (s, [])
  | Some location =>
    if falsy (trim (pinTitle s))
    then (s, [alert (lit "Give it a name!")])
    else
      let newPin :=
        {| Pin.id := timeToString now1;
           Pin.lat := LatLng.lat location;
           Pin.lng := LatLng.lng location;
           Pin.title := pinTitle s;
           Pin.description := pinDesc s;
           Pin.timestamp := numberOfZ now2 |} in
      (setIsAddingPin false
         (setSelectedLocation None
            (setPinDesc [] (setPinTitle [] (setPins (newPin :: pins s) s)))),
       [notice (lit "Spot saved! " ++ glyph)])
  end.

Definition deletePin (id : jsstring) : Handler :=
  fun s =>
  (setPins (filter (fun p => Pin.id p <> id) (pins s)) s, [notice (lit "Pin removed")]).

(** [innerWidth] is [window.innerWidth]. *)
Definition flyToPin (innerWidth : Z) (lat lng : float) : Handler :=
  fun s =>
  let s' := setUserLocation (Some (lat, lng)) s in
  if (innerWidth <? 640)%Z then (setIsSidebarOpen false s', []) else (s', []).

Definition onToggleSidebar : Handler :=
  fun s => (setIsSidebarOpen (negb (isSidebarOpen s)) s, []).

Definition onToggleAddPin : Handler :=
  fun s =>
  let s' := setIsAddingPin (negb (isAddingPin s)) s in
  if negb (isAddingPin s)
  then (s', [notice (lit "Tap map to drop pin")])
  else (setSelectedLocation None s', []).

Definition onCloseSidebar : Handler :=
  fun s => (setIsSidebarOpen false s, []).

(** The form's Cancel button. *)
Definition onCancel : Handler :=
  fun s => (setSelectedLocation None s, []).

End Soft.

(** ** The cyber screen (third source file) *)

Module Cyber.

(** The floppy-disk sign of the saved toast, as its surrogate pair. *)
Definition disk : jsstring := [0xD83D; 0xDCBE].

(** The mount effect [startTracking], up to its return: [isLocating] is
    raised and the first fix and the watch are asked for.  [geolocation]
    tells whether [navigator.geolocation] is there. *)
Definition startTracking (geolocation : bool) : Handler :=
  fun s =>
  if geolocation then (setIsLocating true s, [])
  else (s, [alert (lit "GPS Not Supported")]).

(** The two callbacks of the first fix; the request times out after ten
    seconds, into the second. *)
Definition onFirstFix (answer : GeolocationAnswer) : Handler :=
  fun s =>
  match answer with
  | Position latitude longitude =>
    (setIsLocating false (setUserLocation (Some (latitude, longitude)) s),
     [noticeWith (lit "System Online") (lit "GPS Lock Established")])
  | PositionError =>
    (setIsLocating false s,
     [alertWith (lit "GPS Connection Failed")
        (lit "Please enable location services in your browser settings.")])
  end.

(** One position of the continuous watch. *)
Definition watchPosition (latitude longitude : float) : Handler :=
  fun s => (setUserLocation (Some (latitude, longitude)) s, []).

(** Quick capture takes the coordinate latched in [userLocation]. *)
Definition handleQuickPin : Handler :=
  fun s =>
  match userLocation s with
  | None => (s, [alert (lit "Waiting for GPS...")])
  | Some (lat, lng) =>
    match L_LatLng lat lng with
    | None => (s, [])
    | Some coords =>
      (setIsAddingPin false (setIsSidebarOpen true (setSelectedLocation (Some coords) s)),
       [notice (lit "Capturing Coordinates...")])
    end
  end.

Definition handleMapClick (latlng : LatLng.t) : Handler :=
  fun s =>
  if isAddingPin s
  then (setIsSidebarOpen true (setSelectedLocation (Some latlng) s), [])
  else (s, []).

Definition savePin (now1 now2 : Z) : Handler :=
  fun s =>
  match selectedLocation s with
  | None => (s, [])
  | Some location =>
    if falsy (trim (pinTitle s))
    then (s, [alertWith (lit "Input Required") (lit "Please name this spot.")])
    else
      let newPin :=
        {| Pin.id := timeToString now1;
           Pin.lat := LatLng.lat location;
           Pin.lng := LatLng.lng location;
           Pin.title := pinTitle s;
           Pin.description := pinDesc s;
           Pin.timestamp := numberOfZ now2 |} in
      (setIsAddingPin false
         (setSelectedLocation None
            (setPinDesc [] (setPinTitle [] (setPins (newPin :: pins s) s)))),
       [noticeWith (lit "Spot Encoded " ++ disk) (lit "Saved to local datastream")])
  end.

Definition deletePin (id : jsstring) : Handler :=
  fun s =>
  (setPins (filter (fun p => Pin.id p <> id) (pins s)) s, [notice (lit "Pin Purged")]).

Definition flyToPin (innerWidth : Z) (lat lng : float) : Handler :=
  fun s =>
  let s' := setUserLocation (Some (lat, lng)) s in
  if (innerWidth <? 640)%Z then (setIsSidebarOpen false s', []) else (s', []).

(** The list button only opens the sidebar. *)
Definition onOpenSidebar : Handler :=
  fun s => (setIsSidebarOpen true s, []).

(** The navigation button re-centres on the latched coordinate. *)
Definition onRecalibrate : Handler :=
  fun s =>
  match userLocation s with
  | Some (lat, lng) =>
    (setUserLocation (Some (lat, lng)) s,
     [noticeWith (lit "Recalibrating...") (lit "Re-centering system view")])
  | None => (s, [])
  end.

Definition onToggleAddPin : Handler :=
  fun s =>
  let s' := setIsAddingPin (negb (isAddingPin s)) s in
  if negb (isAddingPin s)
  then (s', [noticeWith (lit "Input Mode Active") (lit "Select coordinates on map view")])
  else (setSelectedLocation None s', []).

Definition onCloseSidebar : Handler :=
  fun s => (setIsSidebarOpen false s, []).

End Cyber.

(** The title and the description fields of the form, in every screen. *)
Definition onChangeTitle (value : jsstring) : Handler :=
  fun s => (setPinTitle value s, []).
Definition onChangeDesc (value : jsstring) : Handler :=
  fun s => (setPinDesc value s, []).

(** One handler after another, on the re-rendered state. *)
Definition andThen (h1 h2 : Handler) : Handler :=
  fun s =>
  let (s1, t1) := h1 s in
  let (s2, t2) := h2 s1 in
  (s2, t1 ++ t2).

(** ** The controller states of the specification, read off the cells *)

Inductive Controller : Type :=
| Idle
| AddModeArmed
| PendingEntry (location : LatLng.t).

Definition controller (s : State) : Controller :=
  match selectedLocation s with
  | Some location => PendingEntry location
  | None => if isAddingPin s then AddModeArmed else Idle
  end.

(** The [center] property handed to [MapController], which moves the
    map to it whenever it changes. *)
Definition mapCenter (s : State) : option (float * float) := userLocation s.

(** The handlers of a list in turn. *)
Fixpoint script (hs : list Handler) : Handler :=
  match hs with
  | [] => fun s => (s, [])
  | h :: hs' => andThen h (script hs')
  end.

(** ** Adding pins through the screen *)

(** A pin candidate (coordinate, title, description) and the two clock
    readings its commit will see. *)
Record Candidate := {
  place : LatLng.t;
  name : jsstring;
  note : jsstring;
  clock1 : Z;
  clock2 : Z }.

(** The user arms add mode unless it is armed, clicks the map at the
    candidate's coordinate, types the title and the description, and
    presses save. *)
Definition addPin (onToggleAddPin : Handler) (handleMapClick : LatLng.t -> Handler)
    (savePin : Z -> Z -> Handler) (c : Candidate) : Handler :=
  script
    [ (fun s => if isAddingPin s then (s, []) else onToggleAddPin s);
      handleMapClick (place c);
      onChangeTitle (name c);
      onChangeDesc (note c);
      savePin (clock1 c) (clock2 c) ].

Definition Minimal_add : Candidate -> Handler :=
  addPin Minimal.onToggleAddPin Minimal.handleMapClick Minimal.savePin.
Definition Soft_add : Candidate -> Handler :=
  addPin Soft.onToggleAddPin Soft.handleMapClick Soft.savePin.
Definition Cyber_add : Candidate -> Handler :=
  addPin Cyber.onToggleAddPin Cyber.handleMapClick Cyber.savePin.

(** The state after the candidates were added one after the other. *)
Definition addAll (add : Candidate -> Handler) (cs : list Candidate) (s : State) : State :=
  fold_left (fun s c => fst (add c s)) cs s.

(** ** Persistence: the two effects on [pins], the same in the three screens *)

Abbreviation Storage := (gmap jsstring jsstring).

Definition storageKey : jsstring := lit "uni_tracker_pins".

(** The JavaScript object of a pin, its properties in creation order. *)
Definition pinValue (p : Pin.t) : json :=
  JObject
    [ (lit "id", JString (Pin.id p));
      (lit "lat", JNumber (Pin.lat p));
      (lit "lng", JNumber (Pin.lng p));
      (lit "title", JString (Pin.title p));
      (lit "description", JString (Pin.description p));
      (lit "timestamp", JNumber (Pin.timestamp p)) ].

(** The array held by the [pins] cell. *)
Definition pinsValue (l : list Pin.t) : json := JArray (map pinValue l).

(** What the load effect did. *)
Inductive Loaded : Type :=
| NothingSaved
| SetPins (v : json)
| LoggedError (e : error).

(** The value of the [pins] cell once the load effect has run: the
    [useState] default unless [setPins] was called. *)
Definition pinsCell (r : Loaded) : json :=
  match r with
  | SetPins v => v
  | NothingSaved | LoggedError _ => JArray []
  end.

Section Persistence.
Variable codec : NumberCodec.

(** The effect on [[pins]]: the whole list is written under the one key. *)
Definition savePinsEffect (pins : list Pin.t) (localStorage : Storage) : Storage :=
  <[storageKey := JSON_stringify codec (pinsValue pins)]> localStorage.

(** The mount effect: [getItem], the [if (saved)] guard, and [setPins]
    of the parsed text inside [try]/[catch]. *)
Definition loadPinsEffect (localStorage : Storage) : completion Loaded :=
  match localStorage !! storageKey with
  | None => Normal NothingSaved
  | Some saved =>
    if falsy saved then Normal NothingSaved
    else
      tryCatch
        (match JSON_parse codec saved with
         | Normal v => Normal (SetPins v)
         | Throw e => Throw e
         end)
        (fun e => Normal (LoggedError e))
  end.

End Persistence.

(** ** Structural validity of a stored value

    The specification's notion of a valid pin record; the screens never
    test it. *)

Definition property (key : jsstring) (members : list (jsstring * json)) : option json :=
  snd <$> find (fun kv => bool_decide (fst kv = key)) members.

Definition asString (v : json) : option jsstring :=
  match v with JString s => Some s | _ => None end.

Definition asNumber (v : json) : option float :=
  match v with JNumber x => Some x | _ => None end.

Definition decodePin (v : json) : option Pin.t :=
  match v with
  | JObject members =>
    i ← property (lit "id") members ≫= asString;
    la ← property (lit "lat") members ≫= asNumber;
    lo ← property (lit "lng") members ≫= asNumber;
    t ← property (lit "title") members ≫= asString;
    d ← property (lit "description") members ≫= asString;
    ts ← property (lit "timestamp") members ≫= asNumber;
    Some {| Pin.id := i; Pin.lat := la; Pin.lng := lo; Pin.title := t;
            Pin.description := d; Pin.timestamp := ts |}
  | _ => None
  end.

Definition decodePins (v : json) : option (list Pin.t) :=
  match v with
  | JArray elements => mapM decodePin elements
  | _ => None
  end.

(** ** The numbers of ECMAScript

    Platform code, embedded from the language definition.  [JSON.parse]
    reads a number as the double nearest to the value of its literal,
    ties to even.  [JSON.stringify] writes a finite number with
    [Number::toString]: with integers [n], [k] and [s] such that
    [k >= 1], [10^(k-1) <= s < 10^k], the double nearest to
    [s * 10^(n-k)] is the number, and [k] is as small as possible (of
    several such [s] the one nearest to the number, and of two at the
    same distance the even one), it lays out the [k] digits of [s] by
    [n]. *)

(** *** From a decimal to the nearest number *)

(** The number nearest to [a / b], ties to even, for positive [a] and
    [b]: the quotient is taken to the precision of the format and what
    is left over decides the rounding, as in the division of two
    doubles. *)
Definition roundQuotient (negative : bool) (a b : Z) : spec_float :=
  let '(q, e, l) := SFdiv_core_binary prec emax a 0 b 0 in
  binary_round_aux prec emax negative q e l.

Fixpoint dropZeros (s : jsstring) : jsstring :=
  match s with
  | c :: r => if c =? 0x30 then dropZeros r else s
  | [] => []
  end.

(** The digits without their trailing zeros. *)
Definition significand (digits : jsstring) : jsstring := rev (dropZeros (rev digits)).

(** The number nearest to [digits * 10^exponent].  The trailing zeros of
    the digits are counted into the exponent first. *)
Definition roundDecimal (negative : bool) (digits : jsstring) (exponent : Z) : spec_float :=
  let e := (exponent + Z.of_nat (length digits - length (significand digits)))%Z in
  match decimalValue (significand digits) with
  | 0 => S754_zero negative
  | N.pos n =>
    if (0 <=? e)%Z then roundQuotient negative (Z.pos n * 10 ^ e) 1
    else roundQuotient negative (Z.pos n) (10 ^ (- e))
  end.

(** The value of an exponent part, zero when there is none. *)
Definition exponentValue (s : jsstring) : Z :=
  match s with
  | [] => 0%Z
  | _ :: r =>
    match r with
    | d :: r' =>
      if d =? 0x2D then (- Z.of_N (decimalValue r'))%Z
      else if d =? 0x2B then Z.of_N (decimalValue r')
      else Z.of_N (decimalValue r)
    | [] => 0%Z
    end
  end.

(** The digits of an unsigned JSON number, those of the integer and of
    the fraction together, and the power of ten that goes with them. *)
Definition decimalOfLiteral (s : jsstring) : jsstring * Z :=
  let (int, s2) := spanDigits s in
  let (frac, s3) :=
    match s2 with
    | c :: r => if c =? 0x2E then spanDigits r else ([], s2)
    | [] => ([], s2)
    end in
  (int ++ frac, (exponentValue s3 - Z.of_nat (length frac))%Z).

(** The number a JSON number stands for: the double nearest to its
    mathematical value.  On any other text the answer is NaN. *)
Definition numberOfLiteral (text : jsstring) : float :=
  match lexNumber text with
  | Some (_, []) =>
    let (negative, unsigned) :=
      match text with
      | c :: r => if c =? 0x2D then (true, r) else (false, text)
      | [] => (false, text)
      end in
    let (digits, exponent) := decimalOfLiteral unsigned in
    SF2Prim (roundDecimal negative digits exponent)
  | _ => nan
  end.

(** *** From a number to its shortest decimal *)

Definition digitsOf (n : positive) : jsstring := uintDigits (Pos.to_uint n).

Definition sameFloat (x y : spec_float) : bool :=
  match x, y with
  | S754_zero s, S754_zero s' | S754_infinity s, S754_infinity s' => Bool.eqb s s'
  | S754_nan, S754_nan => true
  | S754_finite s m e, S754_finite s' m' e' =>
    Bool.eqb s s' && (m =? m')%positive && (e =? e')%Z
  | _, _ => false
  end.

(** Whether the decimal [c * 10^exponent] is read as the number
    [m * 2^e]. *)
Definition readsBack (m : positive) (e : Z) (c : positive) (exponent : Z) : bool :=
  sameFloat (roundDecimal false (digitsOf c) exponent) (S754_finite false m e).

(** The [n] with [10^(n-1) <= a / b < 10^n]. *)
Definition decimalExponent (a b : positive) : Z :=
  let n := (Z.of_nat (length (digitsOf a)) - Z.of_nat (length (digitsOf b)))%Z in
  if (Z.pos a * 10 ^ Z.max 0 (- n) <? Z.pos b * 10 ^ Z.max 0 n)%Z then n else (n + 1)%Z.

(** The two decimals [s * 10^(n-k)] of [k] digits next to [a / b], the
    nearer first and of two at the same distance the even first; the
    first of them that is read as the number [m * 2^e], as the integer
    [s] and the exponent [n - k]. *)
Definition tryDigits (m : positive) (e : Z) (a b : positive) (n k : Z)
  : option (positive * Z) :=
  let t := (k - n)%Z in
  let num := (Z.pos a * 10 ^ Z.max 0 t)%Z in
  let den := (Z.pos b * 10 ^ Z.max 0 (- t))%Z in
  let lo := (num / den)%Z in
  let hi := (lo + 1)%Z in
  let lowFirst :=
    match (2 * num ?= (2 * lo + 1) * den)%Z with
    | Lt => true
    | Gt => false
    | Eq => Z.even lo
    end in
  match find (fun c => readsBack m e c (- t))
             (map Z.to_pos (if lowFirst then [lo; hi] else [hi; lo])) with
  | Some c => Some (c, (- t)%Z)
  | None => None
  end.

(** The search for the least number of digits, from [k] on. *)
Fixpoint shortest (m : positive) (e : Z) (a b : positive) (n k : Z) (tries : nat)
  : option (positive * Z) :=
  match tries with
  | O => None
  | S tries =>
    match tryDigits m e a b n k with
    | Some r => Some r
    | None => shortest m e a b n (k + 1) tries
    end
  end.

(** The decimal that is [m * 2^e] exactly. *)
Definition exactDecimal (m : positive) (e : Z) : positive * Z :=
  match e with
  | Zneg p => ((m * 5 ^ p)%positive, e)
  | _ => (Z.to_pos (Z.pos m * 2 ^ e), 0%Z)
  end.

(** The integer [c] and the exponent of the decimal [c * 10^exponent]
    that [Number::toString] writes for [m * 2^e]: the shortest that is
    read as the number, found within seventeen digits for a double; the
    exact decimal stands behind the search. *)
Definition decimalOf (m : positive) (e : Z) : positive * Z :=
  let (a, b) :=
    match e with
    | Zneg p => (m, (2 ^ p)%positive)
    | _ => (Z.to_pos (Z.pos m * 2 ^ e), 1%positive)
    end in
  match shortest m e a b (decimalExponent a b) 1 17 with
  | Some r => r
  | None => exactDecimal m e
  end.

(** The exponent part for the decimal point after the first [n] digits:
    [e], the sign, and the digits of [n - 1]. *)
Definition exponentText (n : Z) : jsstring :=
  0x65 :: (if (n - 1 <? 0)%Z then 0x2D else 0x2B)
       :: uintDigits (N.to_uint (Z.abs_N (n - 1))).

(** The text for the digits [digits] with the decimal point after the
    first [n] of them, as [Number::toString] lays it out: plain digits up
    to 21 places, a fraction down to six zeros after the point, and the
    exponent notation beyond. *)
Definition formatDecimal (digits : jsstring) (n : Z) : jsstring :=
  let k := Z.of_nat (length digits) in
  if (k <=? n)%Z && (n <=? 21)%Z then digits ++ repeat 0x30 (Z.to_nat (n - k))
  else if (0 <? n)%Z && (n <=? 21)%Z
  then take (Z.to_nat n) digits ++ 0x2E :: drop (Z.to_nat n) digits
  else if (-6 <? n)%Z && (n <=? 0)%Z
  then 0x30 :: 0x2E :: repeat 0x30 (Z.to_nat (- n)) ++ digits
  else
    match digits with
    | [] => []
    | d :: [] => d :: exponentText n
    | d :: more => d :: 0x2E :: more ++ exponentText n
    end.

(** [Number::toString(x)], radix ten. *)
Definition numberToString (x : float) : jsstring :=
  match Prim2SF x with
  | S754_nan => lit "NaN"
  | S754_zero _ => lit "0"
  | S754_infinity negative => if negative then lit "-Infinity" else lit "Infinity"
  | S754_finite negative m e =>
    let (c, exponent) := decimalOf m e in
    (if negative then [0x2D] else [])
    ++ formatDecimal (significand (digitsOf c))
         (exponent + Z.of_nat (length (digitsOf c)))
  end.

(** The numbers of the platform: what [JSON.stringify] writes for a
    finite number and what [JSON.parse] reads from a JSON number. *)
Definition ecmaNumbers : NumberCodec :=
  {| NumberToString := numberToString; StringToNumber := numberOfLiteral |}.

(** The number is the negative zero. *)
Definition isNegativeZero (x : float) : bool :=
  match Prim2SF x with
  | S754_zero true => true
  | _ => false
  end.

(** A number that the storage keeps: finite, and not the negative zero,
    which is written [0]. *)
Definition storable (x : float) : Prop :=
  is_finite x = true /\ isNegativeZero x = false.

(** A pin that the storage keeps as it is: its three numbers are
    storable.  Nothing is asked of its strings. *)
Definition storablePin (p : Pin.t) : Prop :=
  storable (Pin.lat p) /\ storable (Pin.lng p) /\ storable (Pin.timestamp p).

(** Digits that start with a digit other than zero and do not end with
    a zero. *)
Definition trimmed (digits : jsstring) : Prop :=
  forallb isDigit digits = true
  /\ (exists h t, digits = h :: t /\ h <> 0x30)
  /\ dropZeros (rev digits) = rev digits.

(** A number with another sign. *)
Definition withSign (negative : bool) (x : spec_float) : spec_float :=
  match x with
  | S754_zero _ => S754_zero negative
  | S754_infinity _ => S754_infinity negative
  | S754_nan => S754_nan
  | S754_finite _ m e => S754_finite negative m e
  end.



(** ** Vocabulary of the statements *)

(** The title is empty or made of white space only. *)
Definition blank (s : jsstring) : bool := forallb isWhiteSpace s.

(** The pin that a commit of the candidate creates. *)
Definition candidatePin (c : Candidate) : Pin.t :=
  {| Pin.id := timeToString (clock1 c);
     Pin.lat := LatLng.lat (place c);
     Pin.lng := LatLng.lng (place c);
     Pin.title := name c;
     Pin.description := note c;
     Pin.timestamp := numberOfZ (clock2 c) |}.

(** A state with a pending location and a typed form, and one in add
    mode: the concrete inputs of the examples. *)
Definition london : LatLng.t := {| LatLng.lat := 51.5; LatLng.lng := -0.09 |}.

Definition cafe : Pin.t :=
  {| Pin.id := timeToString 1700000000000; Pin.lat := 51; Pin.lng := -3;
     Pin.title := lit "Cafe"; Pin.description := lit "flat white";
     Pin.timestamp := numberOfZ 1700000000000 |}.

(** A string literal of the source between its quotation marks. *)
Definition quoted (s : string) : jsstring := 0x22 :: lit s ++ [0x22].

(** A pin at a fractional coordinate, with a quotation mark and a line
    break in its description. *)
Definition riverside : Pin.t :=
  {| Pin.id := timeToString 1700000000001; Pin.lat := 51.5; Pin.lng := -0.09;
     Pin.title := lit "Riverside";
     Pin.description := lit "the " ++ [0x22] ++ lit "quay" ++ [0x22; 0x0A] ++ lit "at dusk";
     Pin.timestamp := numberOfZ 1700000000001 |}.

Definition typing (title : jsstring) : State :=
  {| pins := [cafe]; userLocation := None; isSidebarOpen := true;
     isAddingPin := true; selectedLocation := Some london; isLocating := false;
     pinTitle := title; pinDesc := lit "by the river" |}.

Definition browsing : State :=
  {| pins := [cafe]; userLocation := None; isSidebarOpen := true;
     isAddingPin := true; selectedLocation := None; isLocating := false;
     pinTitle := lit "Cafe"; pinDesc := lit "by the river" |}.

Definition library (now : Z) : Candidate :=
  {| place := london; name := lit "Library"; note := []; clock1 := now; clock2 := now |}.

(** ** The three screens side by side *)

Inductive Screen : Type := MinimalScreen | SoftScreen | CyberScreen.

Definition savePinOf (k : Screen) : Z -> Z -> Handler :=
  match k with
  | MinimalScreen => Minimal.savePin
  | SoftScreen => Soft.savePin
  | CyberScreen => Cyber.savePin
  end.

Definition deletePinOf (k : Screen) : jsstring -> Handler :=
  match k with
  | MinimalScreen => Minimal.deletePin
  | SoftScreen => Soft.deletePin
  | CyberScreen => Cyber.deletePin
  end.

(** The minimal screen's [flyToPin] does not look at the window. *)
Definition flyToPinOf (k : Screen) (innerWidth : Z) : float -> float -> Handler :=
  match k with
  | MinimalScreen => Minimal.flyToPin
  | SoftScreen => Soft.flyToPin innerWidth
  | CyberScreen => Cyber.flyToPin innerWidth
  end.

Definition addOf (k : Screen) : Candidate -> Handler :=
  match k with
  | MinimalScreen => Minimal_add
  | SoftScreen => Soft_add
  | CyberScreen => Cyber_add
  end.

(** Where a screen puts a new pin: last in the minimal screen, first in
    the other two. *)
Definition insertPin (k : Screen) (p : Pin.t) (l : list Pin.t) : list Pin.t :=
  match k with
  | MinimalScreen => l ++ [p]
  | SoftScreen | CyberScreen => p :: l
  end.

(** The toast of a refused commit. *)
Definition titleRequired (k : Screen) : Toast.t :=
  match k with
  | MinimalScreen => alert (lit "Please enter a title")
  | SoftScreen => alert (lit "Give it a name!")
  | CyberScreen => alertWith (lit "Input Required") (lit "Please name this spot.")
  end.

(** The candidates of a list whose title passes the test of [savePin]. *)
Definition accepted (cs : list Candidate) : list Candidate :=
  filter (fun c => blank (name c) = false) cs.

(** ** The claims that fail, as stated *)

(** Selecting a pin leaves the controller idle and touches neither the
    pins nor the live coordinate. *)
Definition SelectionClaim (k : Screen) : Prop :=
  forall (innerWidth : Z) (s : State) (lat lng : float),
    let s' := fst (flyToPinOf k innerWidth lat lng s) in
    controller s' = Idle /\ pins s' = pins s /\ userLocation s' = userLocation s.

(** After any number of adds the pin list holds no id twice. *)
Definition UniqueIdsClaim (k : Screen) : Prop :=
  forall (cs : list Candidate) (s : State),
    NoDup (map Pin.id (pins s)) ->
    NoDup (map Pin.id (pins (addAll (addOf k) cs s))).

(** A slot whose text is no JSON, or is JSON but no list of valid pin
    records, loads as the empty list. *)
Definition RecoveryClaim (codec : NumberCodec) : Prop :=
  forall (localStorage : Storage) (saved : jsstring),
    localStorage !! storageKey = Some saved ->
    (forall v, JSON_parse codec saved = Normal v -> decodePins v = None) ->
    exists r, loadPinsEffect codec localStorage = Normal r /\ pinsCell r = JArray [].

(** ** Vocabulary of the parser facts *)

(** A parse result with one more character in front. *)
Definition consResult (c : N) (r : option (jsstring * jsstring))
  : option (jsstring * jsstring) :=
  match r with
  | Some (str, rest) => Some (c :: str, rest)
  | None => None
  end.

(** What may follow a value inside an array or an object. *)
Definition delimiter (c : N) : bool := (c =? 0x2C) || (c =? 0x5D) || (c =? 0x7D).

(** The text that follows a value is empty or starts with a delimiter. *)
Definition delimited (rest : jsstring) : bool :=
  match rest with
  | [] => true
  | c :: _ => delimiter c
  end.

(** ** Values that survive the text *)

(** The fuel that parsing the rendering of a value takes. *)
Fixpoint weight (v : json) : nat :=
  match v with
  | JArray l => S (list_sum (map (fun v => S (weight v)) l))
  | JObject l => S (list_sum (map (fun kv => S (weight (snd kv))) l))
  | JNull | JBool _ | JNumber _ | JString _ => 1
  end.

(** Keys an object can have in this order: no key twice, and no array
    index, which would move to the front. *)
Definition plainKeys (keys : list jsstring) : Prop :=
  NoDup keys /\ Forall (fun key => arrayIndex key = None) keys.

Section Faithful.
Variable codec : NumberCodec.

(** What a codec must do for a number to pass through the text: the
    number is finite, its rendering is one JSON number, and the rendering
    reads back as the number.  Under [ecmaNumbers] this is proved of every
    storable number. *)
Definition exactNumber (x : float) : Prop :=
  is_finite x = true
  /\ lexNumber (NumberToString codec x) = Some (NumberToString codec x, [])
  /\ StringToNumber codec (NumberToString codec x) = x.

(** Every number inside the value is exact, and every object inside has
    plain keys. *)
Fixpoint faithful (v : json) : Prop :=
  match v with
  | JNumber x => exactNumber x
  | JArray l =>
    (fix all (l : list json) : Prop :=
       match l with
       | [] => True
       | v :: l' => faithful v /\ all l'
       end) l
  | JObject l =>
    plainKeys (map fst l)
    /\ (fix all (l : list (jsstring * json)) : Prop :=
         match l with
         | [] => True
         | kv :: l' => faithful (snd kv) /\ all l'
         end) l
  | JNull | JBool _ | JString _ => True
  end.

(** A pin whose three numbers are exact under the codec. *)
Definition validPin (p : Pin.t) : Prop :=
  exactNumber (Pin.lat p) /\ exactNumber (Pin.lng p) /\ exactNumber (Pin.timestamp p).

(** What the round trip says of one value: in front of a delimiter or of
    the end, and with fuel for its weight, the rendering parses back to
    the value and leaves what followed. *)
Definition Reads (v : json) : Prop :=
  faithful v ->
  forall fuel rest,
    (weight v <= fuel)%nat ->
    delimited rest = true ->
    parseValue codec fuel (JSON_stringify codec v ++ rest) = Some (v, rest).

End Faithful.

(** ** Every control of a screen as an event *)

Inductive Event : Type :=
| MountLocate (geolocation : option GeolocationAnswer)
| WatchPosition (latitude longitude : float)
| LocateMe (geolocation : option GeolocationAnswer)
| LocateRequest (geolocation : bool)
| LocateAnswer (answer : GeolocationAnswer)
| QuickPin (geolocation : option GeolocationAnswer)
| MapClick (latlng : LatLng.t)
| ChangeTitle (value : jsstring)
| ChangeDesc (value : jsstring)
| SavePin (now1 now2 : Z)
| CancelPin
| DeletePin (id : jsstring)
| FlyToPin (innerWidth : Z) (lat lng : float)
| ListButton
| CloseSidebar
| AddPinButton
| Recalibrate.

(** The handler a screen binds to an event; [None] when the screen has
    no such control or effect.  [LocateRequest] is the request that raises
    [isLocating], the locate button of the soft screen and the mount
    effect of the cyber screen, and [LocateAnswer] is its answer. *)
Definition handlerOf (k : Screen) (e : Event) : option Handler :=
  match k, e with
  | MinimalScreen, LocateMe g => Some (Minimal.handleLocateMe g)
  | MinimalScreen, MapClick l => Some (Minimal.handleMapClick l)
  | MinimalScreen, SavePin n1 n2 => Some (Minimal.savePin n1 n2)
  | MinimalScreen, CancelPin => Some Minimal.onCancel
  | MinimalScreen, DeletePin i => Some (Minimal.deletePin i)
  | MinimalScreen, FlyToPin _ la lo => Some (Minimal.flyToPin la lo)
  | MinimalScreen, ListButton => Some Minimal.onToggleSidebar
  | MinimalScreen, CloseSidebar => Some Minimal.onCloseSidebar
  | MinimalScreen, AddPinButton => Some Minimal.onToggleAddPin
  | SoftScreen, MountLocate g => Some (Soft.autoLocate g)
  | SoftScreen, LocateRequest g => Some (Soft.onLocateButton g)
  | SoftScreen, LocateAnswer a => Some (Soft.onLocated a)
  | SoftScreen, QuickPin g => Some (Soft.handleQuickPin g)
  | SoftScreen, MapClick l => Some (Soft.handleMapClick l)
  | SoftScreen, SavePin n1 n2 => Some (Soft.savePin n1 n2)
  | SoftScreen, CancelPin => Some Soft.onCancel
  | SoftScreen, DeletePin i => Some (Soft.deletePin i)
  | SoftScreen, FlyToPin w la lo => Some (Soft.flyToPin w la lo)
  | SoftScreen, ListButton => Some Soft.onToggleSidebar
  | SoftScreen, CloseSidebar => Some Soft.onCloseSidebar
  | SoftScreen, AddPinButton => Some Soft.onToggleAddPin
  | CyberScreen, LocateRequest g => Some (Cyber.startTracking g)
  | CyberScreen, LocateAnswer a => Some (Cyber.onFirstFix a)
  | CyberScreen, WatchPosition la lo => Some (Cyber.watchPosition la lo)
  | CyberScreen, QuickPin _ => Some Cyber.handleQuickPin
  | CyberScreen, MapClick l => Some (Cyber.handleMapClick l)
  | CyberScreen, SavePin n1 n2 => Some (Cyber.savePin n1 n2)
  | CyberScreen, DeletePin i => Some (Cyber.deletePin i)
  | CyberScreen, FlyToPin w la lo => Some (Cyber.flyToPin w la lo)
  | CyberScreen, ListButton => Some Cyber.onOpenSidebar
  | CyberScreen, CloseSidebar => Some Cyber.onCloseSidebar
  | CyberScreen, AddPinButton => Some Cyber.onToggleAddPin
  | CyberScreen, Recalibrate => Some Cyber.onRecalibrate
  | _, ChangeTitle v => Some (onChangeTitle v)
  | _, ChangeDesc v => Some (onChangeDesc v)
  | _, _ => None
  end.

(** The state after an event; an event the screen does not have changes
    nothing. *)
Definition step (k : Screen) (e : Event) (s : State) : State :=
  match handlerOf k e with
  | Some h => fst (h s)
  | None => s
  end.

(** The state after the events of a list, first to last. *)
Definition run (k : Screen) (es : list Event) (s : State) : State :=
  fold_left (fun s e => step k e s) es s.

(** The pin that [savePin] builds from the form and the pending location. *)
Definition committedPin (s : State) (location : LatLng.t) (now1 now2 : Z) : Pin.t :=
  {| Pin.id := timeToString now1;
     Pin.lat := LatLng.lat location;
     Pin.lng := LatLng.lng location;
     Pin.title := pinTitle s;
     Pin.description := pinDesc s;
     Pin.timestamp := numberOfZ now2 |}.

(** ** What the screens draw from the state *)

(** The status line of the cyber screen's HUD. *)
Definition gpsLabel (s : State) : jsstring :=
  match userLocation s with
  | Some _ => lit "GPS: SIGNAL STABLE"
  | None => lit "GPS: SEARCHING..."
  end.

(** The five bars of the cyber screen's HUD: bar [i] is lit when
    [i < pins.length]. *)
Definition signalBars (s : State) : list bool :=
  map (fun i => Nat.ltb i (length (pins s))) (seq 0 5).

(** A marker of the map: the user's, a pin's, or the pending one. *)
Inductive Marker : Type :=
| UserMarker (position : float * float)
| PinMarker (key : jsstring) (position : float * float)
| SelectedMarker (position : LatLng.t).

(** The markers inside [MapContainer], in source order. *)
Definition markers (s : State) : list Marker :=
  match userLocation s with Some at_ => [UserMarker at_] | None => [] end
  ++ map (fun p => PinMarker (Pin.id p) (Pin.lat p, Pin.lng p)) (pins s)
  ++ match selectedLocation s with Some l => [SelectedMarker l] | None => [] end.

(** ** The first commit of a screen *)

Section Mount.
Variable codec : NumberCodec.

(** The two effects of the first commit, in source order: the load reads
    the slot, then the save writes the pin list of the first render,
    which is the empty [useState] default.  A [setPins] of the load shows
    in the next render only. *)
Definition mountEffects (localStorage : Storage) : completion (Loaded * Storage) :=
  match loadPinsEffect codec localStorage with
  | Normal r => Normal (r, savePinsEffect codec [] localStorage)
  | Throw e => Throw e
  end.

End Mount.

(** The pin with another latitude. *)
Definition withLat (lat : float) (p : Pin.t) : Pin.t :=
  {| Pin.id := Pin.id p; Pin.lat := lat; Pin.lng := Pin.lng p; Pin.title := Pin.title p;
     Pin.description := Pin.description p; Pin.timestamp := Pin.timestamp p |}.

(** The object of a pin whose latitude was written [null]. *)
Definition pinValueNullLat (p : Pin.t) : json :=
  JObject
    [ (lit "id", JString (Pin.id p));
      (lit "lat", JNull);
      (lit "lng", JNumber (Pin.lng p));
      (lit "title", JString (Pin.title p));
      (lit "description", JString (Pin.description p));
      (lit "timestamp", JNumber (Pin.timestamp p)) ].

(** ** The service worker (first source file)

    A request is its absolute URL; it is a GET and the cache matches it
    by URL.  A promise is run to its end before the next event: the
    handler of an event returns what [respondWith] or [waitUntil] settles
    to, and the cache storage afterwards.  [fetch url] is what the network
    answers at the time of the event, [None] when the request fails. *)

(** [s.includes(w)] *)
Fixpoint startsWith (w s : jsstring) : bool :=
  match w with
  | [] => true
  | a :: w' =>
    match s with
    | [] => false
    | c :: r => (a =? c) && startsWith w' r
    end
  end.

Fixpoint includes (s w : jsstring) : bool :=
  startsWith w s
  || match s with
     | [] => false
     | _ :: r => includes r w
     end.

Definition CACHE_NAME : jsstring := lit "unitracker-v1".

Definition ASSETS_TO_CACHE : list jsstring :=
  [ lit "/";
    lit "/index.html";
    lit "/src/main.tsx";
    lit "/src/App.tsx";
    lit "/src/index.css";
    lit "https://unpkg.com/leaflet@1.9.4/dist/leaflet.css";
    lit "https://unpkg.com/leaflet@1.9.4/dist/leaflet.js" ].

(** The host of the tiles that the worker keeps, and the cache for them. *)
Definition tileHost : jsstring := lit "basemaps.cartocdn.com".
Definition tileCache : jsstring := lit "map-tiles".

Section ServiceWorker.
(** A response, and whether its status is in the 200 range. *)
Variable Response : Type.
Variable ok : Response -> bool.
(** The absolute URL of a request made for a string of the asset list. *)
Variable resolve : jsstring -> jsstring.

(** The caches by name, in the order they were created. *)
Definition CacheStorage : Type := list (jsstring * gmap jsstring Response).

Definition hasCache (name : jsstring) (caches : CacheStorage) : bool :=
  existsb (fun nc => bool_decide (fst nc = name)) caches.

(** [caches.open(name)]: the cache is created when it is not there. *)
Definition caches_open (name : jsstring) (caches : CacheStorage) : CacheStorage :=
  if hasCache name caches then caches else caches ++ [(name, ∅)].

(** [cache.match(request)] on the cache of that name. *)
Definition cache_match (name url : jsstring) (caches : CacheStorage) : option Response :=
  match find (fun nc => bool_decide (fst nc = name)) caches with
  | Some (_, cache) => cache !! url
  | None => None
  end.

(** [cache.put(request, response)] on the cache of that name. *)
Definition cache_put (name url : jsstring) (r : Response) (caches : CacheStorage)
  : CacheStorage :=
  map (fun nc => if bool_decide (fst nc = name) then (fst nc, <[url := r]> (snd nc)) else nc)
      caches.

(** [caches.match(request)]: the first cache, in creation order, that
    has the request. *)
Fixpoint caches_match (url : jsstring) (caches : CacheStorage) : option Response :=
  match caches with
  | [] => None
  | (_, cache) :: rest =>
    match cache !! url with
    | Some r => Some r
    | None => caches_match url rest
    end
  end.

(** [cache.addAll(urls)]: every URL is fetched; unless every answer is
    there and ok nothing is stored and the promise rejects ([None]). *)
Definition cache_addAll (name : jsstring) (urls : list jsstring)
    (fetch : jsstring -> option Response) (caches : CacheStorage) : option CacheStorage :=
  if forallb (fun u => match fetch u with Some r => ok r | None => false end) urls
  then Some (fold_left
               (fun cs u => match fetch u with Some r => cache_put name u r cs | None => cs end)
               urls caches)
  else None.

(** The [install] listener: whether [waitUntil] was fulfilled, and the
    caches afterwards. *)
Definition onInstall (fetch : jsstring -> option Response) (caches : CacheStorage)
  : bool * CacheStorage :=
  let opened := caches_open CACHE_NAME caches in
  match cache_addAll CACHE_NAME (map resolve ASSETS_TO_CACHE) fetch opened with
  | Some filled => (true, filled)
  | None => (false, opened)
  end.

(** The [fetch] listener: the response handed to the page ([None] when
    the promise rejects), and the caches afterwards. *)
Definition onFetch (fetch : jsstring -> option Response) (url : jsstring)
    (caches : CacheStorage) : option Response * CacheStorage :=
  if includes url tileHost then
    let opened := caches_open tileCache caches in
    match cache_match tileCache url opened with
    | Some response => (Some response, opened)
    | None =>
      match fetch url with
      | Some networkResponse =>
        (Some networkResponse, cache_put tileCache url networkResponse opened)
      | None => (None, opened)
      end
    end
  else
    (match caches_match url caches with
     | Some response => Some response
     | None => fetch url
     end,
     caches).

End ServiceWorker.

(** The inputs of the worker's examples: a response is its status code,
    and a path of the asset list is resolved against an origin. *)
Definition statusOk (status : N) : bool := (200 <=? status) && (status <? 300).

Definition fromOrigin (origin asset : jsstring) : jsstring :=
  if startsWith (lit "/") asset then origin ++ asset else asset.

Definition devServer (url : jsstring) : option N :=
  if bool_decide (url = lit "https://app.example/src/main.tsx") then Some 404 else Some 200.




(** The answers of the request that raised [isLocating]. *)
Definition isLocateAnswer (e : Event) : bool :=
  match e with
  | LocateAnswer _ => true
  | _ => false
  end.






(** * Facts *)

(** ** [trim] *)

Lemma trimStart_nil_iff (s : jsstring) : trimStart s = [] <-> blank s = true.
Proof.
  induction s as [|c r IH]; simpl.
  - split; reflexivity.
  - destruct (isWhiteSpace c); simpl.
    + exact IH.
    + split; discriminate.
Qed.

Lemma trimStart_head (s : jsstring) (c : N) (r : jsstring) :
  trimStart s = c :: r -> isWhiteSpace c = false.
Proof.
  induction s as [|a s IH]; simpl; [discriminate|].
  destruct (isWhiteSpace a) eqn:Ha; [exact IH|].
  intros [= -> _]. exact Ha.
Qed.

Lemma blank_rev (s : jsstring) : blank (rev s) = blank s.
Proof.
  unfold blank. induction s as [|c r IH]; simpl; [reflexivity|].
  rewrite forallb_app, IH. simpl. rewrite andb_true_r. apply andb_comm.
Qed.

(** The test [!title.trim()] of [savePin] holds exactly for the blank titles. *)
Lemma falsy_trim (s : jsstring) : falsy (trim s) = blank s.
Proof.
  unfold trim, trimEnd.
  destruct (trimStart s) as [|c r] eqn:E.
  - simpl. symmetry. apply trimStart_nil_iff, E.
  - assert (Hc : isWhiteSpace c = false) by (eapply trimStart_head; exact E).
    assert (Hs : blank s = false).
    { destruct (blank s) eqn:B; [|reflexivity].
      apply trimStart_nil_iff in B. congruence. }
    rewrite Hs.
    destruct (trimStart (rev (c :: r))) as [|d t] eqn:E2.
    + apply trimStart_nil_iff in E2. rewrite blank_rev in E2.
      simpl in E2. rewrite Hc in E2. discriminate.
    + destruct (rev (d :: t)) eqn:E3; [|reflexivity].
      apply (f_equal (@rev N)) in E3. rewrite rev_involutive in E3. discriminate.
Qed.

(** ** [savePin] *)

(** C10. A commit with no pending location ([selectedLocation] is null)
    returns at once in the three screens: the pin list, the typed title
    and description, the add-mode flag, the sidebar and every other cell
    are unchanged, and no toast is raised. *)
Theorem savePin_without_pending_location (s : State) (now1 now2 : Z) :
  selectedLocation s = None ->
  Minimal.savePin now1 now2 s = (s, [])
  /\ Soft.savePin now1 now2 s = (s, [])
  /\ Cyber.savePin now1 now2 s = (s, []).
Proof.
  intros H. unfold Minimal.savePin, Soft.savePin, Cyber.savePin.
  rewrite H. repeat split.
Qed.

Lemma savePin_without_pending_location_witness :
  selectedLocation browsing = None
  /\ Minimal.savePin 5 6 browsing = (browsing, [])
  /\ Soft.savePin 5 6 browsing = (browsing, [])
  /\ Cyber.savePin 5 6 browsing = (browsing, []).
Proof.
  split; [reflexivity|].
  apply (savePin_without_pending_location browsing 5 6). reflexivity.
Defined.

(** C8. A commit from [PendingEntry] whose title is empty after trimming
    leaves every cell as it was in the three screens, so the controller
    stays in [PendingEntry] with the same location and the typed title and
    description are kept; the only effect is one destructive toast. *)
Theorem savePin_blank_title_keeps_form (s : State) (location : LatLng.t) (now1 now2 : Z) :
  selectedLocation s = Some location ->
  trim (pinTitle s) = [] ->
  Minimal.savePin now1 now2 s = (s, [alert (lit "Please enter a title")])
  /\ Soft.savePin now1 now2 s = (s, [alert (lit "Give it a name!")])
  /\ Cyber.savePin now1 now2 s
     = (s, [alertWith (lit "Input Required") (lit "Please name this spot.")])
  /\ controller s = PendingEntry location.
Proof.
  intros H T. unfold Minimal.savePin, Soft.savePin, Cyber.savePin, controller.
  rewrite H, T. repeat split.
Qed.

Lemma savePin_blank_title_keeps_form_witness :
  let s := typing (lit "   ") in
  selectedLocation s = Some london
  /\ trim (pinTitle s) = []
  /\ Minimal.savePin 5 6 s = (s, [alert (lit "Please enter a title")])
  /\ pinDesc s = lit "by the river"
  /\ controller s = PendingEntry london.
Proof.
  pose proof (savePin_blank_title_keeps_form (typing (lit "   ")) london 5 6
                eq_refl eq_refl) as (M & _ & _ & C).
  split; [reflexivity|]. split; [reflexivity|]. split; [exact M|].
  split; [reflexivity | exact C].
Defined.

(** ** Adding through the screen *)

Lemma addOf_pins (k : Screen) (c : Candidate) (s : State) :
  pins (fst (addOf k c s))
  = if blank (name c) then pins s else insertPin k (candidatePin c) (pins s).
Proof.
  destruct k; unfold addOf, Minimal_add, Soft_add, Cyber_add, addPin, script, andThen;
    unfold Minimal.onToggleAddPin, Minimal.handleMapClick, Minimal.savePin,
      Soft.onToggleAddPin, Soft.handleMapClick, Soft.savePin,
      Cyber.onToggleAddPin, Cyber.handleMapClick, Cyber.savePin,
      onChangeTitle, onChangeDesc;
    destruct (isAddingPin s) eqn:A; simpl; rewrite ?A; simpl;
    rewrite falsy_trim; destruct (blank (name c)); reflexivity.
Qed.

Lemma addOf_toasts (k : Screen) (c : Candidate) (s : State) :
  blank (name c) = true -> last (snd (addOf k c s)) = Some (titleRequired k).
Proof.
  intros B.
  destruct k; unfold addOf, Minimal_add, Soft_add, Cyber_add, addPin, script, andThen;
    unfold Minimal.onToggleAddPin, Minimal.handleMapClick, Minimal.savePin,
      Soft.onToggleAddPin, Soft.handleMapClick, Soft.savePin,
      Cyber.onToggleAddPin, Cyber.handleMapClick, Cyber.savePin,
      onChangeTitle, onChangeDesc;
    destruct (isAddingPin s) eqn:A; simpl; rewrite ?A; simpl;
    rewrite falsy_trim, B; reflexivity.
Qed.

Lemma addOf_controller (k : Screen) (c : Candidate) (s : State) :
  controller (fst (addOf k c s))
  = if blank (name c) then PendingEntry (place c) else Idle.
Proof.
  destruct k; unfold addOf, Minimal_add, Soft_add, Cyber_add, addPin, script, andThen;
    unfold Minimal.onToggleAddPin, Minimal.handleMapClick, Minimal.savePin,
      Soft.onToggleAddPin, Soft.handleMapClick, Soft.savePin,
      Cyber.onToggleAddPin, Cyber.handleMapClick, Cyber.savePin,
      onChangeTitle, onChangeDesc;
    destruct (isAddingPin s) eqn:A; simpl; rewrite ?A; simpl;
    rewrite falsy_trim; destruct (blank (name c)); reflexivity.
Qed.

(** C2. In every screen and from every state, adding a candidate whose
    title is empty or white space only leaves the pin list as it was and
    ends with the screen's destructive title-required toast; adding the
    candidate titled [Library] with an empty description adds exactly one
    pin (last in the minimal screen, first in the other two), whose
    description is the empty string. *)
Theorem add_validates_title (k : Screen) (c : Candidate) (s : State) :
  (blank (name c) = true ->
     pins (fst (addOf k c s)) = pins s
     /\ last (snd (addOf k c s)) = Some (titleRequired k)
     /\ Toast.variant (titleRequired k) = Toast.Destructive)
  /\ (name c = lit "Library" -> note c = [] ->
     pins (fst (addOf k c s)) = insertPin k (candidatePin c) (pins s)
     /\ length (pins (fst (addOf k c s))) = S (length (pins s))
     /\ Pin.title (candidatePin c) = lit "Library"
     /\ Pin.description (candidatePin c) = []).
Proof.
  split.
  - intros B. rewrite addOf_pins, B. split; [reflexivity|].
    split; [apply addOf_toasts, B | destruct k; reflexivity].
  - intros T D. rewrite addOf_pins, T. simpl.
    split; [reflexivity|]. split.
    + destruct k; simpl; [rewrite length_app; simpl; lia | reflexivity | reflexivity].
    + split; [exact T | exact D].
Qed.

Lemma add_validates_title_witness :
  blank (lit "   ") = true
  /\ pins (fst (addOf MinimalScreen
                  {| place := london; name := lit "   "; note := []; clock1 := 5; clock2 := 6 |}
                  browsing)) = [cafe]
  /\ pins (fst (addOf MinimalScreen (library 5) browsing)) = [cafe; candidatePin (library 5)]
  /\ pins (fst (addOf SoftScreen (library 5) browsing)) = [candidatePin (library 5); cafe].
Proof.
  split; [reflexivity|]. split.
  - apply (add_validates_title MinimalScreen
             {| place := london; name := lit "   "; note := []; clock1 := 5; clock2 := 6 |}
             browsing). reflexivity.
  - split.
    + apply (add_validates_title MinimalScreen (library 5) browsing); reflexivity.
    + apply (add_validates_title SoftScreen (library 5) browsing); reflexivity.
Defined.

(** ** [deletePin] *)

Lemma filter_Forall_id {A} (P : A -> Prop) `{!forall x, Decision (P x)} (l : list A) :
  Forall P l -> filter P l = l.
Proof.
  induction 1 as [|x l Hx _ IH]; [reflexivity|].
  rewrite filter_cons_True by exact Hx. f_equal. exact IH.
Qed.

(** C7. In every screen [deletePin] keeps exactly the pins whose id
    differs from the given one, in their order: when no pin has the id the
    list is unchanged, and otherwise every pin with that id is gone and
    every other pin stays.  No other cell changes and the only toast is a
    plain one, not an error. *)
Theorem deletePin_removes_matching (k : Screen) (i : jsstring) (s : State) :
  (Forall (fun p => Pin.id p <> i) (pins s) -> pins (fst (deletePinOf k i s)) = pins s)
  /\ (forall p, p ∈ pins (fst (deletePinOf k i s)) <-> p ∈ pins s /\ Pin.id p <> i)
  /\ sublist (pins (fst (deletePinOf k i s))) (pins s)
  /\ fst (deletePinOf k i s) = setPins (pins (fst (deletePinOf k i s))) s
  /\ Forall (fun t => Toast.variant t = Toast.Default) (snd (deletePinOf k i s)).
Proof.
  assert (E : pins (fst (deletePinOf k i s)) = filter (fun p => Pin.id p <> i) (pins s))
    by (destruct k; reflexivity).
  rewrite E. split; [apply filter_Forall_id|].
  split; [intros p; rewrite list_elem_of_filter; tauto|].
  split; [apply sublist_filter|].
  split; destruct k; [reflexivity .. | repeat constructor | repeat constructor | repeat constructor].
Qed.

Lemma deletePin_removes_matching_witness :
  pins (fst (deletePinOf CyberScreen (lit "42") browsing)) = [cafe]
  /\ pins (fst (deletePinOf CyberScreen (timeToString 1700000000000) browsing)) = [].
Proof.
  split.
  - apply (deletePin_removes_matching CyberScreen (lit "42") browsing).
    repeat constructor. vm_compute. discriminate.
  - reflexivity.
Defined.

(** ** [flyToPin] *)

(** C9, as stated, fails.  In add mode with the list open, a click on the
    card of the pin at (51, -3) leaves the controller armed, not idle, and
    overwrites [userLocation], the cell that holds the live coordinate:
    the claim holds in no screen. *)
Lemma flyToPin_counterexample :
  controller browsing = AddModeArmed
  /\ controller (fst (Minimal.flyToPin 51 (-3) browsing)) = AddModeArmed
  /\ userLocation browsing = None
  /\ userLocation (fst (Minimal.flyToPin 51 (-3) browsing)) = Some (51%float, (-3)%float)
  /\ ~ SelectionClaim MinimalScreen
  /\ ~ SelectionClaim SoftScreen
  /\ ~ SelectionClaim CyberScreen.
Proof.
  do 4 (split; [reflexivity|]).
  repeat split; intros H; destruct (H 1024%Z browsing 51%float (-3)%float) as (C & _);
    discriminate C.
Qed.

(** C9, amended.  In every screen, selecting a pin from the list leaves
    the pin list, the add-mode flag, the pending location and the form as
    they were, so the controller state does not change; it raises no
    toast; it asks for the recentring by writing the pin's coordinate into
    [userLocation], the cell that also holds the live coordinate; and it
    closes the sidebar (always in the minimal screen, below 640 pixels of
    window width in the other two). *)
Theorem flyToPin_only_recentres (k : Screen) (innerWidth : Z) (lat lng : float) (s : State) :
  let s' := fst (flyToPinOf k innerWidth lat lng s) in
  pins s' = pins s
  /\ isAddingPin s' = isAddingPin s
  /\ selectedLocation s' = selectedLocation s
  /\ controller s' = controller s
  /\ pinTitle s' = pinTitle s
  /\ pinDesc s' = pinDesc s
  /\ isLocating s' = isLocating s
  /\ userLocation s' = Some (lat, lng)
  /\ mapCenter s' = Some (lat, lng)
  /\ isSidebarOpen s'
     = match k with
       | MinimalScreen => false
       | SoftScreen | CyberScreen => if (innerWidth <? 640)%Z then false else isSidebarOpen s
       end
  /\ snd (flyToPinOf k innerWidth lat lng s) = [].
Proof.
  destruct k; simpl; unfold Soft.flyToPin, Cyber.flyToPin;
    try destruct (innerWidth <? 640)%Z; repeat split.
Qed.

(** ** Runs of events *)

Ltac unfold_handlers :=
  unfold step, handlerOf,
    Minimal.handleLocateMe, Minimal.handleMapClick, Minimal.savePin, Minimal.deletePin,
    Minimal.flyToPin, Minimal.onToggleSidebar, Minimal.onToggleAddPin,
    Minimal.onCloseSidebar, Minimal.onCancel,
    Soft.autoLocate, Soft.onLocateButton, Soft.handleLocateMe, Soft.onLocated,
    Soft.handleQuickPin, Soft.handleMapClick,
    Soft.savePin, Soft.deletePin, Soft.flyToPin, Soft.onToggleSidebar,
    Soft.onToggleAddPin, Soft.onCloseSidebar, Soft.onCancel,
    Cyber.startTracking, Cyber.onFirstFix, Cyber.watchPosition, Cyber.handleQuickPin,
    Cyber.handleMapClick,
    Cyber.savePin, Cyber.deletePin, Cyber.flyToPin, Cyber.onOpenSidebar,
    Cyber.onRecalibrate, Cyber.onToggleAddPin, Cyber.onCloseSidebar,
    onChangeTitle, onChangeDesc, L_LatLng in *.

Ltac split_cases :=
  repeat match goal with
  | |- context [match ?g with Some _ => _ | None => _ end] => destruct g eqn:?
  | |- context [match ?a with Position _ _ => _ | PositionError => _ end] => destruct a
  | |- context [if ?b then _ else _] => destruct b eqn:?
  | |- context [let (_, _) := ?p in _] => destruct p
  end.

Lemma run_cons (k : Screen) (e : Event) (es : list Event) (s : State) :
  run k (e :: es) s = run k es (step k e s).
Proof. reflexivity. Qed.

Lemma run_app (k : Screen) (es1 es2 : list Event) (s : State) :
  run k (es1 ++ es2) s = run k es2 (run k es1 s).
Proof. apply fold_left_app. Qed.

(** ** Quick capture *)





(** ** The scenario of the state machine *)

(** C6. The scenario, on the handlers the claim cites, those of the
    minimal screen: from [Idle] the plus button arms add mode, a click on
    the map at (51.5, -0.09) opens the entry at that coordinate, Cancel
    returns to [Idle] with the pins untouched, and a commit of [Cafe] with
    an empty description returns to [Idle] with one more pin, at that
    coordinate. *)
Theorem Minimal_scenario (s0 : State) (now1 now2 : Z) :
  controller s0 = Idle ->
  let s1 := fst (Minimal.onToggleAddPin s0) in
  let s2 := fst (Minimal.handleMapClick london s1) in
  let cancelled := fst (Minimal.onCancel s2) in
  let committed :=
    fst (script [onChangeTitle (lit "Cafe"); onChangeDesc []; Minimal.savePin now1 now2] s2) in
  controller s1 = AddModeArmed
  /\ controller s2 = PendingEntry london
  /\ controller cancelled = Idle
  /\ pins cancelled = pins s0
  /\ controller committed = Idle
  /\ pins committed
     = pins s0 ++ [ {| Pin.id := timeToString now1; Pin.lat := 51.5; Pin.lng := -0.09;
                       Pin.title := lit "Cafe"; Pin.description := [];
                       Pin.timestamp := numberOfZ now2 |} ].
Proof.
  unfold controller. intros H.
  destruct (selectedLocation s0) eqn:L; [discriminate|].
  destruct (isAddingPin s0) eqn:A; [discriminate|].
  unfold Minimal.onToggleAddPin, Minimal.handleMapClick, Minimal.onCancel, script, andThen,
    onChangeTitle, onChangeDesc, Minimal.savePin.
  rewrite A. simpl. rewrite L. repeat split.
Qed.

Lemma Minimal_scenario_witness :
  controller initialState = Idle
  /\ pins (fst (script [Minimal.onToggleAddPin; Minimal.handleMapClick london;
                        onChangeTitle (lit "Cafe"); onChangeDesc [];
                        Minimal.savePin 5 6] initialState))
     = [ {| Pin.id := lit "5"; Pin.lat := 51.5; Pin.lng := -0.09;
            Pin.title := lit "Cafe"; Pin.description := [];
            Pin.timestamp := 6 |} ].
Proof.
  split; [reflexivity|].
  apply (Minimal_scenario initialState 5 6). reflexivity.
Defined.

(** X1. The Cancel of the soft screen.  After the same steps up to the
    open entry, Cancel clears the pending location only: the pins are
    untouched, add mode stays armed and the controller is in
    [AddModeArmed]; the plus button is what disarms it.  (The cyber screen
    has no Cancel control.) *)
Theorem Soft_cancel_leaves_add_mode_armed (s0 : State) :
  controller s0 = Idle ->
  let s1 := fst (Soft.onToggleAddPin s0) in
  let s2 := fst (Soft.handleMapClick london s1) in
  let cancelled := fst (Soft.onCancel s2) in
  controller s1 = AddModeArmed
  /\ controller s2 = PendingEntry london
  /\ pins cancelled = pins s0
  /\ isAddingPin cancelled = true
  /\ controller cancelled = AddModeArmed.
Proof.
  unfold controller. intros H.
  destruct (selectedLocation s0) eqn:L; [discriminate|].
  destruct (isAddingPin s0) eqn:A; [discriminate|].
  unfold Soft.onToggleAddPin, Soft.handleMapClick, Soft.onCancel.
  rewrite A. simpl. rewrite L. repeat split.
Qed.

Lemma Soft_cancel_leaves_add_mode_armed_witness :
  controller initialState = Idle
  /\ controller
       (fst (script [Soft.onToggleAddPin; Soft.handleMapClick london; Soft.onCancel]
               initialState)) = AddModeArmed
  /\ controller
       (fst (script [Minimal.onToggleAddPin; Minimal.handleMapClick london; Minimal.onCancel]
               initialState)) = Idle.
Proof.
  split; [reflexivity|]. split.
  - apply (Soft_cancel_leaves_add_mode_armed initialState). reflexivity.
  - reflexivity.
Defined.

(** ** Identifiers *)

Lemma uintDigits_inj (d1 d2 : Decimal.uint) : uintDigits d1 = uintDigits d2 -> d1 = d2.
Proof.
  revert d2. induction d1 as [|d1 IH|d1 IH|d1 IH|d1 IH|d1 IH|d1 IH|d1 IH|d1 IH|d1 IH|d1 IH];
    intros [|d2|d2|d2|d2|d2|d2|d2|d2|d2|d2]; simpl; intros H;
    try discriminate H; try reflexivity;
    injection H as H; f_equal; apply IH, H.
Qed.

Lemma uintDigits_no_sign (d d' : Decimal.uint) : uintDigits d <> 0x2D :: uintDigits d'.
Proof. destruct d; simpl; intros H; discriminate H. Qed.

(** Two time values with the same decimal rendering are the same. *)
Lemma timeToString_inj (a b : Z) : timeToString a = timeToString b -> a = b.
Proof.
  unfold timeToString. intros H.
  rewrite <- (DecimalZ.of_to a), <- (DecimalZ.of_to b).
  destruct (Z.to_int a) as [da|da], (Z.to_int b) as [db|db].
  - apply uintDigits_inj in H. congruence.
  - exfalso. exact (uintDigits_no_sign _ _ H).
  - exfalso. symmetry in H. exact (uintDigits_no_sign _ _ H).
  - injection H as H. apply uintDigits_inj in H. congruence.
Qed.

Lemma accepted_cons (c : Candidate) (cs : list Candidate) :
  accepted (c :: cs) = if blank (name c) then accepted cs else c :: accepted cs.
Proof.
  unfold accepted. destruct (blank (name c)) eqn:B.
  - apply filter_cons_False. rewrite B. discriminate.
  - apply filter_cons_True. exact B.
Qed.

Lemma addAll_pins (k : Screen) (cs : list Candidate) (s : State) :
  pins (addAll (addOf k) cs s)
  = match k with
    | MinimalScreen => pins s ++ map candidatePin (accepted cs)
    | SoftScreen | CyberScreen => rev (map candidatePin (accepted cs)) ++ pins s
    end.
Proof.
  revert s. induction cs as [|c cs IH]; intros s.
  - destruct k; simpl; [symmetry; apply app_nil_r | reflexivity | reflexivity].
  - unfold addAll in *. simpl fold_left. rewrite IH, addOf_pins, accepted_cons.
    destruct (blank (name c)); [reflexivity|].
    destruct k; simpl; rewrite <- ?app_assoc; reflexivity.
Qed.

Lemma accepted_clocks (cs : list Candidate) (c : Candidate) :
  In c (accepted cs) -> In c cs.
Proof.
  unfold accepted. rewrite <- !list_elem_of_In, list_elem_of_filter. tauto.
Qed.

Lemma NoDup_accepted_ids (cs : list Candidate) :
  NoDup (map clock1 cs) -> NoDup (map Pin.id (map candidatePin (accepted cs))).
Proof.
  induction cs as [|c cs IH]; simpl; intros H.
  - unfold accepted. simpl. constructor.
  - apply NoDup_cons in H as [Hc H]. rewrite accepted_cons.
    destruct (blank (name c)); [apply IH, H|].
    simpl. apply NoDup_cons. split; [|apply IH, H].
    intros Hin. apply Hc.
    apply list_elem_of_In, in_map_iff in Hin as (p & Hp & Hin).
    apply in_map_iff in Hin as (c' & <- & Hin).
    apply timeToString_inj in Hp. apply list_elem_of_In, in_map_iff.
    exists c'. split; [exact Hp | apply accepted_clocks, Hin].
Qed.

(** C4, as stated, fails: two adds that read the same millisecond get the
    same id, in every screen. *)
Lemma same_millisecond_counterexample :
  map Pin.id
    (pins (addAll (addOf MinimalScreen) [library 1700000000000; library 1700000000000]
             initialState))
  = [lit "1700000000000"; lit "1700000000000"]
  /\ ~ UniqueIdsClaim MinimalScreen
  /\ ~ UniqueIdsClaim SoftScreen
  /\ ~ UniqueIdsClaim CyberScreen.
Proof.
  assert (E : forall k,
             map Pin.id
               (pins (addAll (addOf k) [library 1700000000000; library 1700000000000]
                        initialState))
             = [lit "1700000000000"; lit "1700000000000"])
    by (intros []; vm_compute; reflexivity).
  split; [apply (E MinimalScreen)|].
  repeat split; intros H;
    specialize (H [library 1700000000000; library 1700000000000] initialState
                  (NoDup_nil_2 : NoDup (map Pin.id (pins initialState))));
    rewrite E in H; apply NoDup_cons in H as [H _]; apply H; left.
Qed.

(** C4, amended.  In every screen, when the clock readings that become
    ids are pairwise distinct over the adds, the pins already there have
    pairwise distinct ids, and none of these is the decimal rendering of
    one of the readings, the pin list after the adds holds no id twice:
    the list is the old one with the pins of the candidates whose title
    is not blank (after it in the minimal screen, before it and newest
    first in the other two), one per add when no title is blank, and the
    new ids are pairwise distinct. *)
Theorem distinct_clocks_give_distinct_ids (k : Screen) (cs : list Candidate) (s : State) :
  NoDup (map clock1 cs) ->
  NoDup (map Pin.id (pins s)) ->
  (forall c, In c cs -> ~ In (timeToString (clock1 c)) (map Pin.id (pins s))) ->
  pins (addAll (addOf k) cs s)
  = match k with
    | MinimalScreen => pins s ++ map candidatePin (accepted cs)
    | SoftScreen | CyberScreen => rev (map candidatePin (accepted cs)) ++ pins s
    end
  /\ (Forall (fun c => blank (name c) = false) cs -> accepted cs = cs)
  /\ NoDup (map Pin.id (map candidatePin (accepted cs)))
  /\ NoDup (map Pin.id (pins (addAll (addOf k) cs s))).
Proof.
  intros Hclock Hold Hfresh.
  pose proof (NoDup_accepted_ids cs Hclock) as Hnew.
  split; [apply addAll_pins|].
  split; [intros Hall; apply filter_Forall_id, Hall|].
  split; [exact Hnew|].
  assert (Hdisj : forall i, In i (map Pin.id (map candidatePin (accepted cs))) ->
                        ~ In i (map Pin.id (pins s))).
  { intros i Hi. apply in_map_iff in Hi as (p & <- & Hp).
    apply in_map_iff in Hp as (c & <- & Hc). apply Hfresh, accepted_clocks, Hc. }
  rewrite addAll_pins.
  destruct k; rewrite map_app, ?map_rev; apply NoDup_app.
  - split; [exact Hold|]. split; [|exact Hnew].
    intros i Hi Hi'. apply list_elem_of_In in Hi, Hi'. exact (Hdisj i Hi' Hi).
  - split; [rewrite <- Permutation_rev; exact Hnew|]. split; [|exact Hold].
    intros i Hi. rewrite list_elem_of_In in Hi. apply in_rev in Hi.
    rewrite list_elem_of_In. apply Hdisj, Hi.
  - split; [rewrite <- Permutation_rev; exact Hnew|]. split; [|exact Hold].
    intros i Hi. rewrite list_elem_of_In in Hi. apply in_rev in Hi.
    rewrite list_elem_of_In. apply Hdisj, Hi.
Qed.

Lemma distinct_clocks_give_distinct_ids_witness :
  map Pin.id (pins (addAll (addOf SoftScreen) [library 5; library 6] browsing))
  = [lit "6"; lit "5"; lit "1700000000000"]
  /\ NoDup (map Pin.id (pins (addAll (addOf SoftScreen) [library 5; library 6] browsing))).
Proof.
  split; [reflexivity|].
  apply (distinct_clocks_give_distinct_ids SoftScreen [library 5; library 6] browsing).
  - repeat constructor; vm_compute; intros H; inversion H as [|? ? ? H']; subst;
      try discriminate; inversion H'.
  - repeat constructor. intros H; inversion H.
  - intros c [<-|[<-|[]]]; vm_compute; intros [H|[]]; discriminate H.
Defined.

(** ** [JSON.parse] after [JSON.stringify]: strings *)

Lemma hexValue_hexDigit (d : N) : d < 16 -> hexValue (hexDigit d) = Some d.
Proof.
  intros H.
  assert (E : d = 0 \/ d = 1 \/ d = 2 \/ d = 3 \/ d = 4 \/ d = 5 \/ d = 6 \/ d = 7 \/ d = 8
              \/ d = 9 \/ d = 10 \/ d = 11 \/ d = 12 \/ d = 13 \/ d = 14 \/ d = 15) by lia.
  repeat (destruct E as [->|E]; [reflexivity|]). subst d. reflexivity.
Qed.

Lemma hex_digits_sum (c : N) :
  c < 65536 ->
  4096 * (c / 4096 mod 16) + 256 * (c / 256 mod 16) + 16 * (c / 16 mod 16) + c mod 16 = c.
Proof.
  intros H.
  pose proof (N.div_mod c 16 ltac:(lia)) as E1.
  pose proof (N.div_mod (c / 16) 16 ltac:(lia)) as E2.
  pose proof (N.div_mod (c / 256) 16 ltac:(lia)) as E3.
  rewrite N.Div0.div_div in E2, E3.
  change (16 * 16) with 256 in E2. change (256 * 16) with 4096 in E3.
  assert (c / 4096 < 16) by (apply N.Div0.div_lt_upper_bound; lia).
  rewrite (N.mod_small (c / 4096) 16) by assumption.
  lia.
Qed.

Lemma parseChars_UnicodeEscape (c : N) (t : jsstring) :
  c < 65536 -> parseChars (UnicodeEscape c ++ t) = consResult c (parseChars t).
Proof.
  intros H. unfold UnicodeEscape. cbn [app parseChars].
  change (0x5C =? 0x22) with false. change (0x5C =? 0x5C) with true.
  change (0x75 =? 0x75) with true. cbv iota.
  rewrite !hexValue_hexDigit by (apply N.mod_lt; lia).
  rewrite hex_digits_sum by exact H. reflexivity.
Qed.

Lemma parseChars_quoteCodeUnit (c : N) (t : jsstring) :
  parseChars (quoteCodeUnit c ++ t) = consResult c (parseChars t).
Proof.
  unfold quoteCodeUnit.
  destruct (c =? 0x08) eqn:E1; [apply N.eqb_eq in E1; subst; reflexivity|].
  destruct (c =? 0x09) eqn:E2; [apply N.eqb_eq in E2; subst; reflexivity|].
  destruct (c =? 0x0A) eqn:E3; [apply N.eqb_eq in E3; subst; reflexivity|].
  destruct (c =? 0x0C) eqn:E4; [apply N.eqb_eq in E4; subst; reflexivity|].
  destruct (c =? 0x0D) eqn:E5; [apply N.eqb_eq in E5; subst; reflexivity|].
  destruct (c =? 0x22) eqn:E6; [apply N.eqb_eq in E6; subst; reflexivity|].
  destruct (c =? 0x5C) eqn:E7; [apply N.eqb_eq in E7; subst; reflexivity|].
  destruct (c <? 0x20) eqn:E8.
  - apply parseChars_UnicodeEscape. lia.
  - cbn [app parseChars]. rewrite E6, E7, E8. reflexivity.
Qed.

Lemma parseChars_quoteChars_bounded (n : nat) (s rest : jsstring) :
  (length s < n)%nat -> parseChars (quoteChars s ++ 0x22 :: rest) = Some (s, rest).
Proof.
  revert s. induction n as [|n IH]; intros s Hn; [lia|].
  destruct s as [|c r]; [reflexivity|].
  cbn [quoteChars].
  assert (Hesc : forall u, isLeadingSurrogate c || isTrailingSurrogate c = true ->
             (length u < n)%nat ->
             parseChars ((UnicodeEscape c ++ quoteChars u) ++ 0x22 :: rest) = Some (c :: u, rest)).
  { intros u Hs Hu. rewrite <- app_assoc, parseChars_UnicodeEscape.
    - rewrite IH by exact Hu. reflexivity.
    - unfold isLeadingSurrogate, isTrailingSurrogate in Hs. lia. }
  simpl in Hn.
  destruct (isLeadingSurrogate c) eqn:L.
  - destruct r as [|d r'].
    + apply (Hesc []); [reflexivity | simpl; lia].
    + destruct (isTrailingSurrogate d) eqn:T.
      * cbn [app parseChars].
        unfold isLeadingSurrogate in L. unfold isTrailingSurrogate in T.
        replace (c =? 0x22) with false by lia. replace (c =? 0x5C) with false by lia.
        replace (c <? 0x20) with false by lia.
        replace (d =? 0x22) with false by lia. replace (d =? 0x5C) with false by lia.
        replace (d <? 0x20) with false by lia.
        rewrite IH by (simpl in Hn; lia). reflexivity.
      * apply Hesc; [reflexivity | lia].
  - destruct (isTrailingSurrogate c) eqn:T.
    + apply Hesc; [reflexivity | lia].
    + rewrite <- app_assoc, parseChars_quoteCodeUnit, IH by lia. reflexivity.
Qed.

(** A quoted string reads back as the string. *)
Lemma parseChars_quoteChars (s rest : jsstring) :
  parseChars (quoteChars s ++ 0x22 :: rest) = Some (s, rest).
Proof. apply (parseChars_quoteChars_bounded (S (length s))). lia. Qed.

(** ** [JSON.parse] after [JSON.stringify]: numbers *)

Lemma delimited_not_digit (c : N) (rest : jsstring) :
  delimited (c :: rest) = true ->
  isDigit c = false /\ (c =? 0x2E) = false /\ (c =? 0x65) || (c =? 0x45) = false.
Proof. unfold delimited, delimiter, isDigit. lia. Qed.

Lemma spanDigits_app (s ds r rest : jsstring) :
  spanDigits s = (ds, r) ->
  (r = [] -> delimited rest = true) ->
  spanDigits (s ++ rest) = (ds, r ++ rest).
Proof.
  revert ds r. induction s as [|c s IH]; intros ds r E D.
  - injection E as <- <-. specialize (D eq_refl). simpl.
    destruct rest as [|c rest]; [reflexivity|].
    apply delimited_not_digit in D as (D & _). simpl. rewrite D. reflexivity.
  - cbn [app spanDigits] in *. destruct (isDigit c).
    + destruct (spanDigits s) as [ds' r'] eqn:E'. injection E as <- <-.
      rewrite (IH ds' r' eq_refl D). reflexivity.
    + injection E as <- <-. reflexivity.
Qed.

Lemma lexInt_app (s i r rest : jsstring) :
  lexInt s = Some (i, r) ->
  (r = [] -> delimited rest = true) ->
  lexInt (s ++ rest) = Some (i, r ++ rest).
Proof.
  destruct s as [|c s]; [discriminate|]. cbn [app lexInt].
  destruct (c =? 0x30); [intros [= <- <-] _; reflexivity|].
  destruct (isDigit c); [|discriminate].
  destruct (spanDigits s) as [ds r'] eqn:E. intros [= <- <-] D.
  rewrite (spanDigits_app s ds r' rest E D). reflexivity.
Qed.

Lemma lexFrac_app (s f r rest : jsstring) :
  lexFrac s = Some (f, r) ->
  (r = [] -> delimited rest = true) ->
  lexFrac (s ++ rest) = Some (f, r ++ rest).
Proof.
  destruct s as [|c s].
  - intros [= <- <-] D. specialize (D eq_refl). simpl.
    destruct rest as [|c rest]; [reflexivity|].
    apply delimited_not_digit in D as (_ & D & _). simpl. rewrite D. reflexivity.
  - cbn [app lexFrac]. destruct (c =? 0x2E); [|intros [= <- <-] _; reflexivity].
    destruct (spanDigits s) as [ds r'] eqn:E.
    destruct ds as [|d ds]; [discriminate|]. intros [= <- <-] D.
    rewrite (spanDigits_app s (d :: ds) r' rest E D). reflexivity.
Qed.

Lemma lexExp_app (s e r rest : jsstring) :
  lexExp s = Some (e, r) ->
  (r = [] -> delimited rest = true) ->
  lexExp (s ++ rest) = Some (e, r ++ rest).
Proof.
  destruct s as [|c s].
  - intros [= <- <-] D. specialize (D eq_refl). simpl.
    destruct rest as [|c rest]; [reflexivity|].
    apply delimited_not_digit in D as (_ & _ & D). simpl. rewrite D. reflexivity.
  - cbn [app lexExp]. destruct ((c =? 0x65) || (c =? 0x45)); [|intros [= <- <-] _; reflexivity].
    destruct s as [|d s].
    + simpl. discriminate.
    + cbn [app]. destruct ((d =? 0x2B) || (d =? 0x2D)).
      * destruct (spanDigits s) as [ds r'] eqn:E.
        destruct ds as [|d' ds]; [discriminate|]. intros [= <- <-] D.
        rewrite (spanDigits_app s (d' :: ds) r' rest E D). reflexivity.
      * destruct (spanDigits (d :: s)) as [ds r'] eqn:E.
        destruct ds as [|d' ds]; [discriminate|]. intros [= <- <-] D.
        change (d :: s ++ rest) with ((d :: s) ++ rest).
        rewrite (spanDigits_app (d :: s) (d' :: ds) r' rest E D). reflexivity.
Qed.

(** A number that is lexed whole is lexed the same in front of a
    delimiter. *)
Lemma lexNumber_app (s tok rest : jsstring) :
  lexNumber s = Some (tok, []) ->
  delimited rest = true ->
  lexNumber (s ++ rest) = Some (tok, rest).
Proof.
  intros E D. unfold lexNumber in *.
  assert (Step : forall s1 sign,
    match lexInt s1 with
    | None => None
    | Some (i, s2) =>
      match lexFrac s2 with
      | None => None
      | Some (f, s3) =>
        match lexExp s3 with
        | None => None
        | Some (e, s4) => Some (sign ++ i ++ f ++ e, s4)
        end
      end
    end = Some (tok, []) ->
    match lexInt (s1 ++ rest) with
    | None => None
    | Some (i, s2) =>
      match lexFrac s2 with
      | None => None
      | Some (f, s3) =>
        match lexExp s3 with
        | None => None
        | Some (e, s4) => Some (sign ++ i ++ f ++ e, s4)
        end
      end
    end = Some (tok, rest)).
  { intros s1 sign H.
    destruct (lexInt s1) as [[i s2]|] eqn:E1; [|discriminate].
    destruct (lexFrac s2) as [[f s3]|] eqn:E2; [|discriminate].
    destruct (lexExp s3) as [[e s4]|] eqn:E3; [|discriminate].
    injection H as <- ->.
    assert (D3 : s3 = [] -> delimited rest = true) by (intros _; exact D).
    assert (D2 : s2 = [] -> delimited rest = true) by (intros _; exact D).
    rewrite (lexInt_app s1 i s2 rest E1 D2).
    rewrite (lexFrac_app s2 f s3 rest E2 D3).
    rewrite (lexExp_app s3 e [] rest E3 (fun _ => D)). reflexivity. }
  destruct s as [|c s]; [discriminate E|].
  cbn [app]. destruct (c =? 0x2D).
  - apply Step, E.
  - apply (Step (c :: s)), E.
Qed.

Lemma lexNumber_head (s tok r : jsstring) :
  lexNumber s = Some (tok, r) ->
  exists c s', s = c :: s' /\ (c =? 0x2D) || isDigit c = true.
Proof.
  unfold lexNumber. destruct s as [|c s]; [discriminate|].
  intros H. exists c, s. split; [reflexivity|].
  destruct (c =? 0x2D); [reflexivity|]. simpl.
  unfold lexInt in H. destruct (c =? 0x30) eqn:Z.
  - unfold isDigit. lia.
  - destruct (isDigit c); [reflexivity | discriminate].
Qed.

(** ** The numbers of ECMAScript: digits *)

Lemma isDigit_uintDigits (d : Decimal.uint) : forallb isDigit (uintDigits d) = true.
Proof. induction d; simpl; try rewrite IHd; reflexivity. Qed.

Lemma decimalValue_from (s : jsstring) (acc : N) :
  fold_left (fun acc c => 10 * acc + (c - 0x30)) s acc
  = acc * 10 ^ N.of_nat (length s) + decimalValue s.
Proof.
  unfold decimalValue. revert acc. induction s as [|c s IH]; intros acc.
  - simpl. lia.
  - cbn [fold_left length]. rewrite IH, (IH (10 * 0 + (c - 48))).
    rewrite Nat2N.inj_succ, N.pow_succ_r'. lia.
Qed.

Lemma decimalValue_app (a b : jsstring) :
  decimalValue (a ++ b) = decimalValue a * 10 ^ N.of_nat (length b) + decimalValue b.
Proof. unfold decimalValue at 1. rewrite fold_left_app. apply decimalValue_from. Qed.

Lemma decimalValue_zeros (z : nat) : decimalValue (repeat 0x30 z) = 0.
Proof.
  induction z as [|z IH]; [reflexivity|].
  change (repeat 0x30 (S z)) with ([0x30] ++ repeat 0x30 z).
  rewrite decimalValue_app, IH. reflexivity.
Qed.

Lemma decimalValue_uint_acc (d : Decimal.uint) (acc : positive) :
  fold_left (fun acc c => 10 * acc + (c - 0x30)) (uintDigits d) (N.pos acc)
  = N.pos (Pos.of_uint_acc d acc).
Proof.
  revert acc. induction d; intros acc; cbn [uintDigits fold_left Pos.of_uint_acc];
    try reflexivity; rewrite <- IHd; f_equal; lia.
Qed.

Lemma decimalValue_uint (d : Decimal.uint) : decimalValue (uintDigits d) = Pos.of_uint d.
Proof.
  unfold decimalValue. induction d; cbn [uintDigits fold_left Pos.of_uint]; try reflexivity;
    try (rewrite <- decimalValue_uint_acc; reflexivity).
  exact IHd.
Qed.

Lemma decimalValue_digitsOf (c : positive) : decimalValue (digitsOf c) = N.pos c.
Proof. unfold digitsOf. rewrite decimalValue_uint. apply DecimalPos.Unsigned.of_to. Qed.

Lemma decimalValue_N (n : N) : decimalValue (uintDigits (N.to_uint n)) = n.
Proof.
  rewrite decimalValue_uint. destruct n as [|p]; [reflexivity|].
  apply DecimalPos.Unsigned.of_to.
Qed.

Lemma nzhead_head (d : Decimal.uint) :
  match Decimal.nzhead d with Decimal.D0 _ => False | _ => True end.
Proof. induction d; simpl; try exact I. exact IHd. Qed.

Lemma digitsOf_head (c : positive) : exists h t, digitsOf c = h :: t /\ h <> 0x30.
Proof.
  unfold digitsOf.
  pose proof (DecimalPos.Unsigned.to_of (Pos.to_uint c)) as E.
  rewrite DecimalPos.Unsigned.of_to in E. cbn [N.to_uint] in E.
  pose proof (DecimalPos.Unsigned.to_uint_nonnil c) as NN.
  pose proof (nzhead_head (Pos.to_uint c)) as H.
  unfold Decimal.unorm in E.
  destruct (Decimal.nzhead (Pos.to_uint c)) eqn:Z; try contradiction;
    try (rewrite E; cbn [uintDigits]; eexists _, _; split; [reflexivity | discriminate]).
  exfalso. apply (DecimalPos.Unsigned.to_uint_nonzero c). exact E.
Qed.

Lemma dropZeros_zeros (z : nat) (s : jsstring) : dropZeros (repeat 0x30 z ++ s) = dropZeros s.
Proof. induction z as [|z IH]; [reflexivity|]. simpl. exact IH. Qed.

Lemma dropZeros_spec (s : jsstring) :
  exists z, s = repeat 0x30 z ++ dropZeros s
            /\ match dropZeros s with c :: _ => c <> 0x30 | [] => True end.
Proof.
  induction s as [|c s (z & E & H)]; [exists O; split; [reflexivity | exact I]|].
  simpl. destruct (c =? 0x30) eqn:C.
  - exists (S z). apply N.eqb_eq in C. subst c. simpl. split; [f_equal; exact E | exact H].
  - exists O. split; [reflexivity|]. apply N.eqb_neq, C.
Qed.

Lemma dropZeros_idem (s : jsstring) : dropZeros (dropZeros s) = dropZeros s.
Proof.
  induction s as [|c s IH]; [reflexivity|]. simpl.
  destruct (c =? 0x30) eqn:C; [exact IH|]. simpl. rewrite C. reflexivity.
Qed.

Lemma dropZeros_head (h : N) (t u : jsstring) :
  h <> 0x30 -> dropZeros ((h :: t) ++ u) = (h :: t) ++ u.
Proof. intros H. simpl. apply N.eqb_neq in H. rewrite H. reflexivity. Qed.

(** The digits are their significand and as many zeros as were trimmed. *)
Lemma significand_spec (digits : jsstring) :
  digits = significand digits
           ++ repeat 0x30 (length digits - length (significand digits)).
Proof.
  unfold significand. destruct (dropZeros_spec (rev digits)) as (z & E & _).
  assert (L : length digits = (z + length (dropZeros (rev digits)))%nat).
  { rewrite <- (length_rev digits), E at 1. rewrite length_app, repeat_length. reflexivity. }
  rewrite length_rev, L.
  replace (z + length (dropZeros (rev digits)) - length (dropZeros (rev digits)))%nat
    with z by lia.
  rewrite <- (rev_involutive digits) at 1. rewrite E at 1.
  rewrite rev_app_distr. f_equal.
  clear. induction z as [|z IH]; [reflexivity|].
  simpl. rewrite IH. clear. induction z as [|z IH]; [reflexivity|].
  simpl. rewrite <- IH. reflexivity.
Qed.

Lemma significand_idem (digits : jsstring) :
  significand (significand digits) = significand digits.
Proof. unfold significand. rewrite rev_involutive, dropZeros_idem. reflexivity. Qed.

Lemma significand_trimmed (digits : jsstring) : trimmed digits -> significand digits = digits.
Proof. intros (_ & _ & H). unfold significand. rewrite H. apply rev_involutive. Qed.

Lemma significand_zeros (digits : jsstring) (z : nat) :
  significand (digits ++ repeat 0x30 z) = significand digits.
Proof.
  unfold significand. rewrite rev_app_distr.
  replace (rev (repeat 0x30 z)) with (repeat 0x30 z).
  - rewrite dropZeros_zeros. reflexivity.
  - clear. induction z as [|z IH]; [reflexivity|].
    simpl. rewrite <- IH. clear. induction z as [|z IH]; [reflexivity|].
    simpl. rewrite <- IH. reflexivity.
Qed.

Lemma trimmed_digitsOf (c : positive) : trimmed (significand (digitsOf c)).
Proof.
  destruct (digitsOf_head c) as (h & t & E & H).
  pose proof (significand_spec (digitsOf c)) as Sp.
  pose proof (isDigit_uintDigits (Pos.to_uint c)) as D. fold (digitsOf c) in D.
  remember (length (digitsOf c) - length (significand (digitsOf c)))%nat as z eqn:Z.
  clear Z. split; [|split].
  - rewrite Sp, forallb_app in D. apply andb_prop in D as [D _]. exact D.
  - destruct (significand (digitsOf c)) as [|h' t']; rewrite E in Sp.
    + exfalso. destruct z; simpl in Sp; [discriminate|].
      injection Sp as -> _. apply H. reflexivity.
    + exists h', t'. split; [reflexivity|]. simpl in Sp.
      injection Sp as -> _. exact H.
  - unfold significand. rewrite rev_involutive. apply dropZeros_idem.
Qed.

(** ** The text of a number is one JSON number *)

Lemma spanDigits_all (ds rest : jsstring) :
  forallb isDigit ds = true ->
  match rest with c :: _ => isDigit c = false | [] => True end ->
  spanDigits (ds ++ rest) = (ds, rest).
Proof.
  intros D R. induction ds as [|d ds IH].
  - destruct rest as [|c r]; [reflexivity|]. simpl. rewrite R. reflexivity.
  - simpl in D. apply andb_prop in D as [Dd D]. simpl. rewrite Dd, IH by exact D.
    reflexivity.
Qed.

Lemma spanDigits_digits (ds : jsstring) : forallb isDigit ds = true -> spanDigits ds = (ds, []).
Proof. intros D. rewrite <- (app_nil_r ds) at 1. apply spanDigits_all; [exact D | exact I]. Qed.

Lemma roundDecimal_same (negative : bool) (ds ds' : jsstring) (E E' : Z) :
  decimalValue (significand ds) = decimalValue (significand ds') ->
  (E + Z.of_nat (length ds - length (significand ds))
   = E' + Z.of_nat (length ds' - length (significand ds')))%Z ->
  roundDecimal negative ds E = roundDecimal negative ds' E'.
Proof. unfold roundDecimal. intros -> ->. reflexivity. Qed.

Lemma isDigit_not_minus (h : N) : isDigit h = true -> (h =? 0x2D) = false.
Proof. unfold isDigit. lia. Qed.

Lemma lexNumber_parts (h : N) (r i f e s2 s3 : jsstring) :
  isDigit h = true ->
  lexInt (h :: r) = Some (i, s2) ->
  lexFrac s2 = Some (f, s3) ->
  lexExp s3 = Some (e, []) ->
  lexNumber (h :: r) = Some (i ++ f ++ e, []).
Proof.
  intros D I F X. unfold lexNumber. rewrite (isDigit_not_minus h D), I, F, X. reflexivity.
Qed.

Lemma lexInt_digits (h : N) (t rest : jsstring) :
  isDigit h = true -> h <> 0x30 -> forallb isDigit t = true ->
  match rest with c :: _ => isDigit c = false | [] => True end ->
  lexInt (h :: t ++ rest) = Some (h :: t, rest).
Proof.
  intros D H T R. unfold lexInt. apply N.eqb_neq in H. rewrite H, D.
  rewrite (spanDigits_all t rest T R). reflexivity.
Qed.

Lemma lexFrac_digits (d : N) (ds rest : jsstring) :
  forallb isDigit (d :: ds) = true ->
  match rest with c :: _ => isDigit c = false | [] => True end ->
  lexFrac (0x2E :: (d :: ds) ++ rest) = Some (0x2E :: d :: ds, rest).
Proof.
  intros D R. unfold lexFrac. cbn [N.eqb Pos.eqb].
  rewrite (spanDigits_all (d :: ds) rest D R). reflexivity.
Qed.

Lemma uintDigits_N_cons (v : N) : exists d ds, uintDigits (N.to_uint v) = d :: ds.
Proof.
  destruct v as [|p]; [eexists _, _; reflexivity|].
  destruct (digitsOf_head p) as (h & t & E & _). exists h, t. exact E.
Qed.

Lemma spanDigits_one (h : N) (rest : jsstring) :
  isDigit h = true ->
  match rest with c :: _ => isDigit c = false | [] => True end ->
  spanDigits (h :: rest) = ([h], rest).
Proof.
  intros D R. apply (spanDigits_all [h] rest); [|exact R].
  cbn [forallb]. rewrite D. reflexivity.
Qed.

Lemma lexExp_exponentText (n : Z) : lexExp (exponentText n) = Some (exponentText n, []).
Proof.
  unfold exponentText, lexExp. cbn [N.eqb Pos.eqb orb].
  destruct (uintDigits_N_cons (Z.abs_N (n - 1))) as (d & ds & E).
  pose proof (isDigit_uintDigits (N.to_uint (Z.abs_N (n - 1)))) as D.
  rewrite E in *.
  destruct (n - 1 <? 0)%Z; cbn [N.eqb Pos.eqb orb]; rewrite (spanDigits_digits _ D);
    reflexivity.
Qed.

Lemma exponentValue_exponentText (n : Z) : exponentValue (exponentText n) = (n - 1)%Z.
Proof.
  unfold exponentText, exponentValue.
  destruct (n - 1 <? 0)%Z eqn:C; cbn [N.eqb Pos.eqb]; rewrite decimalValue_N; lia.
Qed.

Lemma exponentText_head (n : Z) : exists r, exponentText n = 0x65 :: r.
Proof. eexists. reflexivity. Qed.

Lemma forallb_take_drop (f : N -> bool) (n : nat) (l : jsstring) :
  forallb f l = true -> forallb f (take n l) = true /\ forallb f (drop n l) = true.
Proof.
  intros H. rewrite <- (take_drop n l), forallb_app in H. apply andb_prop in H. exact H.
Qed.

Lemma trimmed_rev (digits : jsstring) :
  trimmed digits -> exists l r, rev digits = l :: r /\ l <> 0x30.
Proof.
  intros (_ & (h & t & E & _) & Z).
  destruct (dropZeros_spec (rev digits)) as (z & _ & H). rewrite Z in H.
  destruct (rev digits) as [|l r] eqn:R.
  - apply (f_equal (@length N)) in R. rewrite length_rev, E in R. discriminate R.
  - exists l, r. split; [reflexivity | exact H].
Qed.

(** Digits in front of trimmed digits do not change the significand's
    end: nothing is trimmed. *)
Lemma significand_behind (front digits : jsstring) :
  trimmed digits -> significand (front ++ digits) = front ++ digits.
Proof.
  intros T. destruct (trimmed_rev digits T) as (l & r & E & H).
  unfold significand. rewrite rev_app_distr, E. rewrite dropZeros_head by exact H.
  rewrite <- E, <- rev_app_distr. apply rev_involutive.
Qed.

Lemma decimalValue_behind_zeros (z : nat) (digits : jsstring) :
  decimalValue (repeat 0x30 z ++ digits) = decimalValue digits.
Proof. rewrite decimalValue_app, decimalValue_zeros. reflexivity. Qed.

(** The text that [formatDecimal] lays out for trimmed digits is one
    JSON number, it starts with a digit, and it is read as the decimal it
    was laid out from. *)
Lemma formatDecimal_reads (digits : jsstring) (n : Z) :
  trimmed digits ->
  lexNumber (formatDecimal digits n) = Some (formatDecimal digits n, [])
  /\ (exists h r, formatDecimal digits n = h :: r /\ isDigit h = true)
  /\ forall negative,
       (let (ds, E) := decimalOfLiteral (formatDecimal digits n) in
        roundDecimal negative ds E)
       = roundDecimal negative digits (n - Z.of_nat (length digits)).
Proof.
  intros T. pose proof T as (D & (h & t & -> & H) & Z).
  pose proof D as D'. cbn [forallb] in D'. apply andb_prop in D' as [Dh Dt].
  unfold formatDecimal.
  set (k := Z.of_nat (length (h :: t))).
  assert (K : k = Z.of_nat (length (h :: t))) by reflexivity. clearbody k.
  destruct ((k <=? n)%Z && (n <=? 21)%Z) eqn:B1;
    [|destruct ((0 <? n)%Z && (n <=? 21)%Z) eqn:B2;
      [|destruct ((-6 <? n)%Z && (n <=? 0)%Z) eqn:B3]].
  - (* digits and zeros *)
    set (z := Z.to_nat (n - k)).
    assert (Dz : forallb isDigit (t ++ repeat 0x30 z) = true).
    { rewrite forallb_app, Dt. clear. induction z; [reflexivity | exact IHz]. }
    split; [|split].
    + cbn [app].
      rewrite (lexNumber_parts h (t ++ repeat 0x30 z) (h :: t ++ repeat 0x30 z) [] [] [] [] Dh).
      * rewrite !app_nil_r. reflexivity.
      * rewrite <- (app_nil_r (t ++ repeat 0x30 z)) at 1.
        apply lexInt_digits; [exact Dh | exact H | exact Dz | exact I].
      * reflexivity.
      * reflexivity.
    + eexists _, _. split; [reflexivity | exact Dh].
    + intros negative. unfold decimalOfLiteral.
      rewrite spanDigits_digits by (cbn [app forallb]; rewrite Dh; exact Dz).
      cbn [exponentValue length]. rewrite app_nil_r.
      apply roundDecimal_same.
      * rewrite significand_zeros. reflexivity.
      * rewrite significand_zeros, (significand_trimmed _ T), length_app, repeat_length.
        subst z. lia.
  - (* digits, point, digits *)
    assert (Nk : (0 < n < k)%Z) by lia.
    destruct (forallb_take_drop isDigit (Z.to_nat n) (h :: t) D) as [Dtake Ddrop].
    destruct (Z.to_nat n) as [|n'] eqn:N'; [lia|].
    assert (Ln : (n' < length t)%nat) by (cbn [length] in K; lia).
    cbn [take drop] in *. cbn [forallb] in Dtake. apply andb_prop in Dtake as [_ Dtake].
    destruct (drop n' t) as [|d ds] eqn:Dr.
    { apply (f_equal (@length N)) in Dr. rewrite length_drop in Dr. simpl in Dr. lia. }
    split; [|split].
    + cbn [app].
      rewrite (lexNumber_parts h (take n' t ++ 0x2E :: d :: ds) (h :: take n' t)
                 (0x2E :: d :: ds) [] (0x2E :: d :: ds) [] Dh).
      * rewrite app_nil_r. reflexivity.
      * apply lexInt_digits; [exact Dh | exact H | exact Dtake | reflexivity].
      * rewrite <- (app_nil_r (d :: ds)) at 1. apply lexFrac_digits; [exact Ddrop | exact I].
      * reflexivity.
    + eexists _, _. split; [reflexivity | exact Dh].
    + intros negative. unfold decimalOfLiteral.
      change ((h :: take n' t) ++ 0x2E :: d :: ds) with ((h :: take n' t) ++ 0x2E :: d :: ds).
      rewrite (spanDigits_all (h :: take n' t) (0x2E :: d :: ds))
        by first [reflexivity | cbn [forallb]; rewrite Dh; exact Dtake].
      cbn [N.eqb Pos.eqb]. rewrite (spanDigits_digits _ Ddrop). cbn [exponentValue].
      assert (E : (h :: take n' t) ++ d :: ds = h :: t).
      { cbn [app]. rewrite <- Dr, take_drop. reflexivity. }
      rewrite E. apply roundDecimal_same; [reflexivity|].
      apply (f_equal (@length N)) in Dr. rewrite length_drop in Dr.
      cbn [length] in *. lia.
  - (* zero, point, zeros, digits *)
    set (z := Z.to_nat (- n)).
    assert (Dz : forallb isDigit (repeat 0x30 z ++ h :: t) = true).
    { rewrite forallb_app, D, andb_true_r. clear. induction z; [reflexivity | exact IHz]. }
    destruct (repeat 0x30 z ++ h :: t) as [|d ds] eqn:Fr.
    { destruct z; discriminate Fr. }
    split; [|split].
    + rewrite (lexNumber_parts 0x30 (0x2E :: d :: ds) [0x30] (0x2E :: d :: ds) []
                 (0x2E :: d :: ds) [] eq_refl).
      * rewrite app_nil_r. reflexivity.
      * reflexivity.
      * rewrite <- (app_nil_r (d :: ds)) at 1. apply lexFrac_digits; [exact Dz | exact I].
      * reflexivity.
    + eexists _, _. split; [reflexivity | reflexivity].
    + intros negative. unfold decimalOfLiteral.
      rewrite (spanDigits_one 0x30 (0x2E :: d :: ds)) by reflexivity.
      cbn [N.eqb Pos.eqb]. rewrite (spanDigits_digits _ Dz). cbn [exponentValue].
      rewrite <- Fr.
      change ([0x30] ++ repeat 0x30 z ++ h :: t) with (repeat 0x30 (S z) ++ h :: t).
      apply roundDecimal_same.
      * rewrite (significand_behind _ _ T), (significand_trimmed _ T).
        apply decimalValue_behind_zeros.
      * rewrite (significand_behind _ _ T), (significand_trimmed _ T).
        rewrite length_app, repeat_length. subst z. cbn [length] in *. lia.
  - (* exponent notation *)
    destruct (exponentText_head n) as [xr X].
    pose proof (lexExp_exponentText n) as LX.
    pose proof (exponentValue_exponentText n) as VX.
    destruct t as [|d ds].
    + split; [|split].
      * rewrite (lexNumber_parts h (exponentText n) [h] [] (exponentText n)
                   (exponentText n) (exponentText n) Dh).
        -- reflexivity.
        -- rewrite <- (app_nil_l (exponentText n)) at 1.
           apply lexInt_digits; [exact Dh | exact H | reflexivity | rewrite X; reflexivity].
        -- rewrite X. reflexivity.
        -- exact LX.
      * eexists _, _. split; [reflexivity | exact Dh].
      * intros negative. unfold decimalOfLiteral.
        rewrite (spanDigits_one h (exponentText n))
          by first [exact Dh | rewrite X; reflexivity].
        rewrite X at 1. cbn [N.eqb Pos.eqb]. rewrite VX.
        apply roundDecimal_same; [reflexivity|]. cbn [length app] in *. lia.
    + split; [|split].
      * rewrite (lexNumber_parts h (0x2E :: (d :: ds) ++ exponentText n) [h]
                   (0x2E :: d :: ds) (exponentText n)
                   (0x2E :: (d :: ds) ++ exponentText n) (exponentText n) Dh).
        -- reflexivity.
        -- change (h :: 0x2E :: (d :: ds) ++ exponentText n)
             with (h :: [] ++ 0x2E :: (d :: ds) ++ exponentText n).
           apply lexInt_digits; [exact Dh | exact H | reflexivity | reflexivity].
        -- apply lexFrac_digits; [exact Dt | rewrite X; reflexivity].
        -- exact LX.
      * eexists _, _. split; [reflexivity | exact Dh].
      * intros negative. unfold decimalOfLiteral.
        rewrite (spanDigits_one h (0x2E :: (d :: ds) ++ exponentText n))
          by first [exact Dh | reflexivity].
        cbn [N.eqb Pos.eqb].
        rewrite (spanDigits_all (d :: ds) (exponentText n))
          by first [exact Dt | rewrite X; reflexivity].
        rewrite VX. apply roundDecimal_same; [reflexivity|]. cbn [length app] in *. lia.
Qed.

(** ** The search ends on a decimal that is read as the number *)

Lemma tryDigits_reads (m : positive) (e : Z) (a b : positive) (n k : Z) (c : positive)
    (E : Z) :
  tryDigits m e a b n k = Some (c, E) -> readsBack m e c E = true.
Proof.
  unfold tryDigits.
  destruct (find _ _) as [c'|] eqn:F; [|discriminate].
  intros [= <- <-]. apply find_some in F as [_ F]. exact F.
Qed.

Lemma shortest_reads (m : positive) (e : Z) (a b : positive) (n k : Z) (tries : nat)
    (c : positive) (E : Z) :
  shortest m e a b n k tries = Some (c, E) -> readsBack m e c E = true.
Proof.
  revert k. induction tries as [|tries IH]; intros k; [discriminate|].
  cbn [shortest]. destruct (tryDigits m e a b n k) as [[c' E']|] eqn:T.
  - intros [= <- <-]. apply (tryDigits_reads _ _ _ _ _ _ _ _ T).
  - apply IH.
Qed.

(** ** A quotient that is a number is rounded to that number *)

Lemma digits2_bounds (p : positive) :
  (2 ^ (Z.pos (digits2_pos p) - 1) <= Z.pos p < 2 ^ Z.pos (digits2_pos p))%Z.
Proof.
  induction p as [p IH|p IH|]; cbn [digits2_pos]; [| |simpl; lia].
  - rewrite Pos2Z.inj_succ. replace (Z.succ (Z.pos (digits2_pos p)) - 1)%Z
      with (Z.succ (Z.pos (digits2_pos p) - 1)) by lia.
    rewrite !Z.pow_succ_r by lia. lia.
  - rewrite Pos2Z.inj_succ. replace (Z.succ (Z.pos (digits2_pos p)) - 1)%Z
      with (Z.succ (Z.pos (digits2_pos p) - 1)) by lia.
    rewrite !Z.pow_succ_r by lia. lia.
Qed.

Lemma iter_pos_nat {A} (f : A -> A) (p : positive) (x : A) :
  SpecFloat.iter_pos f p x = Nat.iter (Pos.to_nat p) f x.
Proof.
  revert x. induction p as [p IH|p IH|]; intros x; cbn [SpecFloat.iter_pos].
  - rewrite !IH, Pos2Nat.inj_xI.
    replace (S (2 * Pos.to_nat p)) with (Pos.to_nat p + (Pos.to_nat p + 1))%nat by lia.
    rewrite !Nat.iter_add. reflexivity.
  - rewrite !IH, Pos2Nat.inj_xO.
    replace (2 * Pos.to_nat p)%nat with (Pos.to_nat p + Pos.to_nat p)%nat by lia.
    rewrite Nat.iter_add. reflexivity.
  - reflexivity.
Qed.

Lemma shr_doubled (j : nat) (m : positive) :
  Nat.iter j shr_1 {| shr_m := Z.pos (Nat.iter j xO m); shr_r := false; shr_s := false |}
  = {| shr_m := Z.pos m; shr_r := false; shr_s := false |}.
Proof.
  revert m. induction j as [|j IH]; intros m; [reflexivity|].
  rewrite Nat.iter_succ_r.
  change (Nat.iter (S j) xO m) with (xO (Nat.iter j xO m)).
  change (shr_1 {| shr_m := Z.pos (Nat.iter j xO m)~0; shr_r := false; shr_s := false |})
    with {| shr_m := Z.pos (Nat.iter j xO m); shr_r := false; shr_s := false |}.
  apply IH.
Qed.

Lemma doubled_value (j : nat) (m : positive) :
  Z.pos (Nat.iter j xO m) = (Z.pos m * 2 ^ Z.of_nat j)%Z.
Proof.
  induction j as [|j IH]; [simpl; lia|].
  change (Nat.iter (S j) xO m) with (xO (Nat.iter j xO m)).
  rewrite Pos2Z.inj_xO, IH, Nat2Z.inj_succ, Z.pow_succ_r by lia. lia.
Qed.

Lemma doubled_digits (j : nat) (m : positive) :
  Z.pos (digits2_pos (Nat.iter j xO m)) = (Z.pos (digits2_pos m) + Z.of_nat j)%Z.
Proof.
  induction j as [|j IH]; [simpl; lia|].
  change (Nat.iter (S j) xO m) with (xO (Nat.iter j xO m)).
  cbn [digits2_pos]. rewrite Pos2Z.inj_succ, IH. lia.
Qed.

(** Rounding a mantissa that is [m] doubled [j] times, at the exponent
    [e - j], gives [m] at the exponent [e], when that pair is a number of
    the format. *)
Lemma binary_round_aux_doubled (negative : bool) (m : positive) (e : Z) (j : nat) :
  bounded prec emax m e = true ->
  binary_round_aux prec emax negative (Z.pos (Nat.iter j xO m)) (e - Z.of_nat j) loc_Exact
  = S754_finite negative m e.
Proof.
  intros B. unfold bounded, canonical_mantissa in B.
  apply andb_prop in B as [C M]. apply Z.eqb_eq in C. apply Z.leb_le in M.
  unfold binary_round_aux, shr_fexp. cbn [Zdigits2 shr_record_of_loc].
  rewrite doubled_digits.
  replace (Z.pos (digits2_pos m) + Z.of_nat j + (e - Z.of_nat j))%Z
    with (Z.pos (digits2_pos m) + e)%Z by lia.
  rewrite C. replace (e - (e - Z.of_nat j))%Z with (Z.of_nat j) by lia.
  assert (S1 : shr {| shr_m := Z.pos (Nat.iter j xO m); shr_r := false; shr_s := false |}
                 (e - Z.of_nat j) (Z.of_nat j)
               = ({| shr_m := Z.pos m; shr_r := false; shr_s := false |}, e)).
  { destruct j as [|j].
    - change (Z.of_nat 0) with 0%Z. rewrite Z.sub_0_r. reflexivity.
    - change (Z.of_nat (S j)) with (Z.pos (Pos.of_succ_nat j)). unfold shr.
      rewrite iter_pos_nat, SuccNat2Pos.id_succ, shr_doubled.
      f_equal. lia. }
  rewrite S1. cbn [shr_m loc_of_shr_record round_nearest_even Zdigits2 shr_record_of_loc].
  rewrite C, Z.sub_diag. cbn [shr shr_m].
  apply Z.leb_le in M. rewrite M. reflexivity.
Qed.

Lemma div_eucl_pair (a b : Z) : Z.div_eucl a b = ((a / b)%Z, (a mod b)%Z).
Proof. unfold Z.div, Z.modulo. destruct (Z.div_eucl a b). reflexivity. Qed.

Lemma new_location_exact (steps : Z) : new_location steps 0 = loc_Exact.
Proof.
  unfold new_location, new_location_even, new_location_odd.
  destruct (Z.even steps); reflexivity.
Qed.

Lemma pow2_lt_exponents (x y : Z) : (0 <= y)%Z -> (2 ^ x < 2 ^ y)%Z -> (x < y)%Z.
Proof. intros Y H. apply (Z.pow_lt_mono_r_iff 2); [lia | exact Y | exact H]. Qed.

(** The quotient of [a] by [b] that is exactly [m * 2^e], a number of the
    format, is rounded to that number. *)
Lemma roundQuotient_exact (negative : bool) (a b : positive) (m : positive) (e : Z) :
  bounded prec emax m e = true ->
  (Z.pos a * 2 ^ Z.max 0 (- e) = Z.pos m * Z.pos b * 2 ^ Z.max 0 e)%Z ->
  roundQuotient negative (Z.pos a) (Z.pos b) = S754_finite negative m e.
Proof.
  intros B Q. pose proof B as B'. unfold bounded, canonical_mantissa in B'.
  apply andb_prop in B' as [C _]. apply Z.eqb_eq in C.
  unfold roundQuotient, SFdiv_core_binary. cbn [Zdigits2].
  rewrite !Z.add_0_r, Z.sub_diag.
  set (e' := Z.min (fexp prec emax (Z.pos (digits2_pos a) - Z.pos (digits2_pos b))) 0).
  assert (Le : (e' <= e)%Z).
  { destruct (Z.le_gt_cases 0 e) as [P|P]; [subst e'; lia|].
    enough (Z.pos (digits2_pos a) - Z.pos (digits2_pos b) <= Z.pos (digits2_pos m) + e)%Z
      by (subst e'; unfold fexp in *; lia).
    rewrite (Z.max_r 0 (- e)), (Z.max_l 0 e), Z.pow_0_r, Z.mul_1_r in Q by lia.
    pose proof (digits2_bounds a) as [A1 _].
    pose proof (digits2_bounds m) as [_ M2].
    pose proof (digits2_bounds b) as [_ B2].
    assert (L : (2 ^ (Z.pos (digits2_pos a) - 1 + - e)
                 < 2 ^ (Z.pos (digits2_pos m) + Z.pos (digits2_pos b)))%Z).
    { rewrite !Z.pow_add_r by lia.
      apply (Z.le_lt_trans _ (Z.pos a * 2 ^ (- e))).
      - apply Z.mul_le_mono_nonneg_r; [apply Z.pow_nonneg; lia | exact A1].
      - rewrite Q. apply Z.mul_lt_mono_nonneg; lia. }
    apply pow2_lt_exponents in L; lia. }
  assert (E0 : (e' <= 0)%Z) by (subst e'; lia).
  clearbody e'.
  set (j := Z.to_nat (e - e')).
  assert (M' : match (0 - e')%Z with
               | 0%Z => Z.pos a
               | Z.pos _ => Z.shiftl (Z.pos a) (0 - e')
               | Z.neg _ => 0%Z
               end = (Z.pos (Nat.iter j xO m) * Z.pos b)%Z).
  { assert (S : match (0 - e')%Z with
                 | 0%Z => Z.pos a
                 | Z.pos _ => Z.shiftl (Z.pos a) (0 - e')
                 | Z.neg _ => 0%Z
                 end = (Z.pos a * 2 ^ (- e'))%Z).
    { destruct (0 - e')%Z as [|p|p] eqn:D.
      - replace (- e')%Z with 0%Z by lia. lia.
      - rewrite Z.shiftl_mul_pow2 by lia. replace (- e')%Z with (Z.pos p) by lia.
        reflexivity.
      - lia. }
    rewrite S, doubled_value. subst j. rewrite Z2Nat.id by lia.
    destruct (Z.le_gt_cases 0 e) as [P|P].
    - rewrite (Z.max_l 0 (- e)), (Z.max_r 0 e), Z.pow_0_r, Z.mul_1_r in Q by lia.
      rewrite Q. replace (e - e')%Z with (e + - e')%Z by lia.
      rewrite Z.pow_add_r by lia. lia.
    - rewrite (Z.max_r 0 (- e)), (Z.max_l 0 e), Z.pow_0_r, Z.mul_1_r in Q by lia.
      replace (- e')%Z with (- e + (e - e'))%Z by lia.
      rewrite Z.pow_add_r by lia. rewrite Z.mul_assoc, Q. lia. }
  rewrite M', div_eucl_pair, Z.div_mul, Z.mod_mul by lia.
  rewrite new_location_exact.
  replace e' with (e - Z.of_nat j)%Z by (subst j; lia).
  apply binary_round_aux_doubled, B.
Qed.

(** ** The exact decimal is read as the number *)

Lemma roundQuotient_exact_Z (negative : bool) (a b : Z) (m : positive) (e : Z) :
  (0 < a)%Z -> (0 < b)%Z ->
  bounded prec emax m e = true ->
  (a * 2 ^ Z.max 0 (- e) = Z.pos m * b * 2 ^ Z.max 0 e)%Z ->
  roundQuotient negative a b = S754_finite negative m e.
Proof.
  intros A B. destruct a as [|a|a], b as [|b|b]; try lia. apply roundQuotient_exact.
Qed.

(** What [roundDecimal] does with the digits of a positive integer. *)
Lemma roundDecimal_digitsOf (negative : bool) (c : positive) (E : Z) :
  exists (n : positive) (t : nat),
    (Z.pos c = Z.pos n * 10 ^ Z.of_nat t)%Z
    /\ roundDecimal negative (digitsOf c) E
       = if (0 <=? E + Z.of_nat t)%Z
         then roundQuotient negative (Z.pos n * 10 ^ (E + Z.of_nat t)) 1
         else roundQuotient negative (Z.pos n) (10 ^ (- (E + Z.of_nat t))).
Proof.
  unfold roundDecimal.
  pose proof (significand_spec (digitsOf c)) as Sp.
  remember (length (digitsOf c) - length (significand (digitsOf c)))%nat as t eqn:Ht.
  clear Ht.
  pose proof (decimalValue_digitsOf c) as V.
  rewrite Sp, decimalValue_app, decimalValue_zeros, repeat_length, N.add_0_r in V.
  destruct (decimalValue (significand (digitsOf c))) as [|n]; [discriminate V|].
  exists n, t. split; [|reflexivity].
  apply (f_equal Z.of_N) in V. rewrite N2Z.inj_mul, N2Z.inj_pow, nat_N_Z in V.
  simpl Z.of_N in V. lia.
Qed.

Lemma pow10_split (p : Z) : (0 <= p)%Z -> (10 ^ p = 2 ^ p * 5 ^ p)%Z.
Proof. intros P. rewrite <- Z.pow_mul_l. reflexivity. Qed.

Lemma sameFloat_refl (x : spec_float) : sameFloat x x = true.
Proof.
  destruct x as [s|s| |s m e]; simpl; try reflexivity; try (destruct s; reflexivity).
  rewrite Pos.eqb_refl, Z.eqb_refl. destruct s; reflexivity.
Qed.

Lemma sameFloat_eq (x y : spec_float) : sameFloat x y = true -> x = y.
Proof.
  destruct x as [s|s| |s m e], y as [s'|s'| |s' m' e']; simpl; try discriminate;
    try reflexivity; try (destruct s, s'; simpl; congruence).
  intros H. apply andb_prop in H as [H He]. apply andb_prop in H as [Hs Hm].
  apply Z.eqb_eq in He. apply Pos.eqb_eq in Hm. apply Bool.eqb_prop in Hs. congruence.
Qed.

Lemma exactDecimal_reads (m : positive) (e : Z) :
  bounded prec emax m e = true ->
  readsBack m e (fst (exactDecimal m e)) (snd (exactDecimal m e)) = true.
Proof.
  intros B. unfold readsBack.
  destruct (roundDecimal_digitsOf false (fst (exactDecimal m e)) (snd (exactDecimal m e)))
    as (n & t & Hc & ->).
  assert (P10 : forall k, (0 < 10 ^ Z.of_nat k)%Z) by (intros k; apply Z.pow_pos_nonneg; lia).
  enough (R : (if (0 <=? snd (exactDecimal m e) + Z.of_nat t)%Z
               then roundQuotient false
                      (Z.pos n * 10 ^ (snd (exactDecimal m e) + Z.of_nat t)) 1
               else roundQuotient false (Z.pos n)
                      (10 ^ (- (snd (exactDecimal m e) + Z.of_nat t))))
              = S754_finite false m e) by (rewrite R; apply sameFloat_refl).
  unfold exactDecimal in *. destruct e as [|p|p]; cbn [fst snd] in *.
  - (* the exponent is zero *)
    rewrite Z.pow_0_r, Z.mul_1_r, Pos2Z.id in Hc.
    replace (0 <=? 0 + Z.of_nat t)%Z with true by lia.
    apply roundQuotient_exact_Z; [rewrite Z.add_0_l; lia | lia | exact B |].
    rewrite Z.add_0_l. change (- 0)%Z with 0%Z. rewrite Z.max_id, Z.pow_0_r. lia.
  - (* an integer *)
    rewrite Z2Pos.id in Hc by (apply Z.mul_pos_pos; [lia | apply Z.pow_pos_nonneg; lia]).
    replace (0 <=? 0 + Z.of_nat t)%Z with true by lia.
    apply roundQuotient_exact_Z; [rewrite Z.add_0_l; lia | lia | exact B |].
    rewrite Z.add_0_l, (Z.max_l 0 (- Z.pos p)), (Z.max_r 0 (Z.pos p)), Z.pow_0_r by lia.
    lia.
  - (* a fraction *)
    rewrite Pos2Z.inj_mul, Pos2Z.inj_pow in Hc.
    assert (P5 : (0 < 5 ^ Z.pos p)%Z) by (apply Z.pow_pos_nonneg; lia).
    assert (P2 : (0 < 2 ^ Z.pos p)%Z) by (apply Z.pow_pos_nonneg; lia).
    change (- Z.neg p)%Z with (Z.pos p).
    destruct (0 <=? Z.neg p + Z.of_nat t)%Z eqn:S.
    + apply roundQuotient_exact_Z;
        [apply Z.mul_pos_pos; [lia | apply Z.pow_pos_nonneg; lia] | lia | exact B |].
      change (- Z.neg p)%Z with (Z.pos p).
      rewrite (Z.max_r 0 (Z.pos p)), (Z.max_l 0 (Z.neg p)), Z.pow_0_r by lia.
      replace (Z.of_nat t) with ((Z.neg p + Z.of_nat t) + Z.pos p)%Z in Hc by lia.
      rewrite Z.pow_add_r, (pow10_split (Z.pos p)) in Hc by lia.
      apply (Z.mul_cancel_r _ _ (5 ^ Z.pos p)); lia.
    + apply roundQuotient_exact_Z; [lia | apply Z.pow_pos_nonneg; lia | exact B |].
      change (- Z.neg p)%Z with (Z.pos p).
      rewrite (Z.max_r 0 (Z.pos p)), (Z.max_l 0 (Z.neg p)), Z.pow_0_r by lia.
      apply (Z.mul_cancel_r _ _ (10 ^ Z.of_nat t * 5 ^ Z.pos p)); [specialize (P10 t); lia|].
      assert (X : (10 ^ (- (Z.neg p + Z.of_nat t)) * 10 ^ Z.of_nat t = 2 ^ Z.pos p * 5 ^ Z.pos p)%Z).
      { rewrite <- Z.pow_add_r by lia. rewrite <- pow10_split by lia. f_equal. lia. }
      nia.
Qed.

Lemma decimalOf_reads (m : positive) (e : Z) :
  bounded prec emax m e = true ->
  readsBack m e (fst (decimalOf m e)) (snd (decimalOf m e)) = true.
Proof.
  intros B. unfold decimalOf.
  destruct (match e with
            | Z.neg p => (m, (2 ^ p)%positive)
            | _ => (Z.to_pos (Z.pos m * 2 ^ e), 1%positive)
            end) as [a b].
  destruct (shortest m e a b (decimalExponent a b) 1 17) as [[c E]|] eqn:S.
  - apply (shortest_reads _ _ _ _ _ _ _ _ _ S).
  - apply exactDecimal_reads, B.
Qed.

(** ** Every finite number but the negative zero is exact *)

Lemma roundDecimal_sign (negative : bool) (digits : jsstring) (E : Z) :
  roundDecimal negative digits E = withSign negative (roundDecimal false digits E).
Proof.
  unfold roundDecimal, roundQuotient.
  destruct (decimalValue (significand digits)); [reflexivity|].
  destruct (0 <=? _)%Z;
    match goal with
    | |- context [SFdiv_core_binary ?p ?x ?a ?b ?c ?d] =>
      destruct (SFdiv_core_binary p x a b c d) as [[q e'] l]
    end;
    unfold binary_round_aux;
    destruct (shr_fexp prec emax q e' l) as [mrs e1];
    destruct (shr_fexp prec emax _ e1 loc_Exact) as [mrs' e2];
    destruct (shr_m mrs'); try reflexivity;
    destruct (e2 <=? emax - prec)%Z; reflexivity.
Qed.

Lemma finite_shape (x : float) :
  is_finite x = true ->
  match Prim2SF x with
  | S754_zero _ | S754_finite _ _ _ => True
  | _ => False
  end.
Proof.
  unfold is_finite, is_nan, is_infinity. rewrite !FloatAxioms.eqb_spec, FloatAxioms.abs_spec.
  destruct (Prim2SF x) as [s|s| |s m e]; try exact (fun _ => I).
  - destruct s; vm_compute; discriminate.
  - vm_compute. discriminate.
Qed.

Lemma lexNumber_minus (h : N) (r : jsstring) :
  isDigit h = true ->
  lexNumber (h :: r) = Some (h :: r, []) ->
  lexNumber (0x2D :: h :: r) = Some (0x2D :: h :: r, []).
Proof.
  intros D. unfold lexNumber. rewrite (isDigit_not_minus h D). cbn [N.eqb Pos.eqb].
  destruct (lexInt (h :: r)) as [[i s2]|]; [|discriminate].
  destruct (lexFrac s2) as [[f s3]|]; [|discriminate].
  destruct (lexExp s3) as [[x s4]|]; [|discriminate].
  cbn [app]. intros [= -> ->]. reflexivity.
Qed.

(** [Number::toString] writes every finite number as one JSON number, and
    a JSON number that it wrote is read as the number it was written for,
    the negative zero apart, which is written [0]. *)
Theorem numberToString_reads (x : float) :
  is_finite x = true ->
  isNegativeZero x = false ->
  lexNumber (numberToString x) = Some (numberToString x, [])
  /\ numberOfLiteral (numberToString x) = x.
Proof.
  intros F Z. pose proof (finite_shape x F) as Sh.
  pose proof (Prim2SF_valid x) as V. pose proof (SF2Prim_Prim2SF x) as R.
  unfold isNegativeZero in Z. unfold numberToString.
  destruct (Prim2SF x) as [s|s| |s m e] eqn:P; try contradiction.
  - destruct s; [discriminate Z|]. split; [reflexivity|]. rewrite <- R. reflexivity.
  - cbn [valid_binary] in V. pose proof (decimalOf_reads m e V) as RB.
    destruct (decimalOf m e) as [c E]. cbn [fst snd] in RB.
    unfold readsBack in RB. apply sameFloat_eq in RB.
    pose proof (trimmed_digitsOf c) as T.
    pose proof (significand_spec (digitsOf c)) as Sp.
    set (dl := significand (digitsOf c)) in *.
    set (n := (E + Z.of_nat (length (digitsOf c)))%Z).
    destruct (formatDecimal_reads dl n T) as (L & (h & r & Eq & Dh) & Val).
    assert (RD : forall negative,
               roundDecimal negative dl (n - Z.of_nat (length dl))
               = S754_finite negative m e).
    { intros negative. rewrite roundDecimal_sign.
      rewrite (roundDecimal_same false dl (digitsOf c) (n - Z.of_nat (length dl)) E).
      - rewrite RB. reflexivity.
      - fold dl. subst dl. rewrite significand_idem. reflexivity.
      - fold dl. replace (significand dl) with dl by (subst dl; symmetry; apply significand_idem).
        apply (f_equal (@length N)) in Sp. rewrite length_app, repeat_length in Sp.
        subst n. lia. }
    rewrite Eq in *. destruct s; cbn [app].
    + split; [apply lexNumber_minus; assumption|].
      unfold numberOfLiteral. rewrite (lexNumber_minus h r Dh L). cbn [N.eqb Pos.eqb].
      specialize (Val true). destruct (decimalOfLiteral (h :: r)) as [ds E'].
      rewrite Val, RD. exact R.
    + split; [exact L|].
      unfold numberOfLiteral. rewrite L, (isDigit_not_minus h Dh).
      specialize (Val false). destruct (decimalOfLiteral (h :: r)) as [ds E'].
      rewrite Val, RD. exact R.
Qed.

(** Known answers of [Number::toString]: one for each layout, the ends
    of the range, and a time value, which is written as [timeToString]
    writes it. *)
Lemma numberToString_examples :
  numberToString 51.5 = lit "51.5"
  /\ numberToString (-0.09) = lit "-0.09"
  /\ numberToString (0.1 + 0.2) = lit "0.30000000000000004"
  /\ numberToString 100 = lit "100"
  /\ numberToString 123456789012345680000 = lit "123456789012345680000"
  /\ numberToString 1e21 = lit "1e+21"
  /\ numberToString 0.000001 = lit "0.000001"
  /\ numberToString 1e-7 = lit "1e-7"
  /\ numberToString (-1.5e-10) = lit "-1.5e-10"
  /\ numberToString 5e-324 = lit "5e-324"
  /\ numberToString 1.7976931348623157e308 = lit "1.7976931348623157e+308"
  /\ numberToString 9007199254740993 = lit "9007199254740992"
  /\ numberToString (-0) = lit "0"
  /\ numberToString (numberOfZ 1700000000000) = timeToString 1700000000000.
Proof. repeat split; vm_compute; reflexivity. Qed.

(** Known answers of the reading: fractions, exponents, the negative
    zero, a tie that goes to the even neighbour, the two ends of the
    range, and a text that is no JSON number. *)
Lemma numberOfLiteral_examples :
  numberOfLiteral (lit "51.5") = 51.5%float
  /\ numberOfLiteral (lit "-0.09") = (-0.09)%float
  /\ numberOfLiteral (lit "0.1") = 0.1%float
  /\ numberOfLiteral (lit "1.5E+3") = 1500%float
  /\ numberOfLiteral (lit "100e-2") = 1%float
  /\ isNegativeZero (numberOfLiteral (lit "-0")) = true
  /\ numberOfLiteral (lit "9007199254740993") = 9007199254740992%float
  /\ numberOfLiteral (lit "9007199254740995") = 9007199254740996%float
  /\ numberOfLiteral (lit "1.7976931348623158e308") = 1.7976931348623157e308%float
  /\ numberOfLiteral (lit "1.7976931348623159e308") = infinity
  /\ numberOfLiteral (lit "2.4703282292062328e-324") = 5e-324%float
  /\ numberOfLiteral (lit "2.4703282292062327e-324") = 0%float
  /\ is_nan (numberOfLiteral (lit "01")) = true.
Proof. repeat split; vm_compute; reflexivity. Qed.

(** Every storable number is exact under the platform's codec. *)
Lemma ecmaNumbers_exact (x : float) : storable x -> exactNumber ecmaNumbers x.
Proof.
  intros [F Z]. split; [exact F|]. apply numberToString_reads; assumption.
Qed.

(** ** [JSON.parse] after [JSON.stringify]: values *)

Lemma json_nested_ind (P : json -> Prop) :
  P JNull ->
  (forall b, P (JBool b)) ->
  (forall x, P (JNumber x)) ->
  (forall s, P (JString s)) ->
  (forall l, Forall P l -> P (JArray l)) ->
  (forall l, Forall (fun kv => P (snd kv)) l -> P (JObject l)) ->
  forall v, P v.
Proof.
  intros Hnull Hbool Hnum Hstr Harr Hobj.
  fix IH 1. intros [|b|x|s|l|l].
  - exact Hnull.
  - apply Hbool.
  - apply Hnum.
  - apply Hstr.
  - apply Harr. induction l as [|v l IHl]; constructor; [apply IH | exact IHl].
  - apply Hobj. induction l as [|kv l IHl]; constructor; [apply IH | exact IHl].
Qed.

(** An object with plain keys is the object its own members build. *)
Lemma hasProperty_fresh (key : jsstring) (members : list (jsstring * json)) :
  key ∉ map fst members -> hasProperty key members = false.
Proof.
  induction members as [|kv members IH]; [reflexivity|]. intros H.
  apply not_elem_of_cons in H as [Hk H]. simpl.
  rewrite bool_decide_eq_false_2 by congruence. apply IH, H.
Qed.

Lemma objectOf_plain (l : list (jsstring * json)) :
  plainKeys (map fst l) -> objectOf l = l.
Proof.
  intros [D I]. unfold objectOf.
  enough (H : forall acc, NoDup (map fst (acc ++ l)) ->
                fold_left (fun object kv => defineProperty (fst kv) (snd kv) object) l acc
                = acc ++ l) by (apply (H []), D).
  clear D. induction l as [|[k v] l IH]; intros acc D; [symmetry; apply app_nil_r|].
  apply Forall_cons in I as [Ik I]. cbn [fold_left fst snd]. unfold defineProperty.
  rewrite hasProperty_fresh.
  - simpl in Ik. rewrite Ik. rewrite IH; [|exact I|].
    + rewrite <- app_assoc. reflexivity.
    + rewrite <- app_assoc. exact D.
  - rewrite map_app in D. apply NoDup_app in D as (_ & D & _).
    intros Hin. apply (D k Hin). simpl. left.
Qed.

(** A name given twice keeps its first place and its last value, and an
    array index comes before the other names. *)
Lemma JSON_parse_object_example :
  JSON_parse ecmaNumbers
    (lit "{" ++ quoted "b" ++ lit ":1," ++ quoted "1" ++ lit ":2.5," ++ quoted "a"
     ++ lit ":null," ++ quoted "b" ++ lit ":3}")
  = Normal (JObject [(lit "1", JNumber 2.5); (lit "b", JNumber 3); (lit "a", JNull)]).
Proof. vm_compute. reflexivity. Qed.

Section RoundTrip.
Variable codec : NumberCodec.

Lemma faithful_array (l : list json) :
  faithful codec (JArray l) <-> Forall (faithful codec) l.
Proof.
  induction l as [|v l IH]; simpl.
  - split; [constructor | trivial].
  - split.
    + intros [Hv Hl]. constructor; [exact Hv | apply IH, Hl].
    + intros H. apply Forall_cons in H as [Hv Hl]. split; [exact Hv | apply IH, Hl].
Qed.

Lemma faithful_object (l : list (jsstring * json)) :
  faithful codec (JObject l)
  <-> plainKeys (map fst l) /\ Forall (fun kv => faithful codec (snd kv)) l.
Proof.
  cbn [faithful]. apply and_iff_compat_l.
  induction l as [|v l IH]; simpl.
  - split; [constructor | trivial].
  - split.
    + intros [Hv Hl]. constructor; [exact Hv | apply IH, Hl].
    + intros H. apply Forall_cons in H as [Hv Hl]. split; [exact Hv | apply IH, Hl].
Qed.

Lemma parseValue_S (fuel : nat) (s : jsstring) :
  parseValue codec (S fuel) s
  = match skipWS s with
    | [] => None
    | c :: r =>
      if c =? 0x22 then
        match parseChars r with
        | Some (str, rest) => Some (JString str, rest)
        | None => None
        end
      else if c =? 0x5B then
        match skipWS r with
        | [] => None
        | c' :: r' =>
          if c' =? 0x5D then Some (JArray [], r')
          else
            match parseElements codec fuel r with
            | Some (vs, rest) => Some (JArray vs, rest)
            | None => None
            end
        end
      else if c =? 0x7B then
        match skipWS r with
        | [] => None
        | c' :: r' =>
          if c' =? 0x7D then Some (JObject [], r')
          else
            match parseMembers codec fuel r with
            | Some (ms, rest) => Some (JObject (objectOf ms), rest)
            | None => None
            end
        end
      else
        match stripPrefix (lit "true") (c :: r) with
        | Some rest => Some (JBool true, rest)
        | None =>
          match stripPrefix (lit "false") (c :: r) with
          | Some rest => Some (JBool false, rest)
          | None =>
            match stripPrefix (lit "null") (c :: r) with
            | Some rest => Some (JNull, rest)
            | None =>
              match lexNumber (c :: r) with
              | Some (tok, rest) => Some (JNumber (StringToNumber codec tok), rest)
              | None => None
              end
            end
          end
        end
    end.
Proof. reflexivity. Qed.

Lemma parseElements_S (fuel : nat) (s : jsstring) :
  parseElements codec (S fuel) s
  = match parseValue codec fuel s with
    | None => None
    | Some (v, r) =>
      match skipWS r with
      | [] => None
      | c :: r' =>
        if c =? 0x2C then
          match parseElements codec fuel r' with
          | Some (vs, rest) => Some (v :: vs, rest)
          | None => None
          end
        else if c =? 0x5D then Some ([v], r')
        else None
      end
    end.
Proof. reflexivity. Qed.

Lemma parseMembers_S (fuel : nat) (s : jsstring) :
  parseMembers codec (S fuel) s
  = match skipWS s with
    | [] => None
    | q :: r0 =>
      if q =? 0x22 then
        match parseChars r0 with
        | None => None
        | Some (k, r1) =>
          match skipWS r1 with
          | [] => None
          | colon :: r2 =>
            if colon =? 0x3A then
              match parseValue codec fuel r2 with
              | None => None
              | Some (v, r3) =>
                match skipWS r3 with
                | [] => None
                | c :: r' =>
                  if c =? 0x2C then
                    match parseMembers codec fuel r' with
                    | Some (ms, rest) => Some ((k, v) :: ms, rest)
                    | None => None
                    end
                  else if c =? 0x7D then Some ([(k, v)], r')
                  else None
                end
              end
            else None
          end
        end
      else None
    end.
Proof. reflexivity. Qed.

(** The rendering of a faithful value starts with a character that is no
    white space and closes nothing. *)
Lemma stringify_head (v : json) :
  faithful codec v ->
  exists c t, JSON_stringify codec v = c :: t
              /\ isJSONWhiteSpace c = false /\ (c =? 0x5D) = false.
Proof.
  destruct v as [|[]|x|s|l|l]; simpl; intros F;
    try (eexists _, _; split; [reflexivity|]; split; reflexivity).
  destruct F as (Fin & Lex & _). rewrite Fin.
  destruct (lexNumber_head _ _ _ Lex) as (c & t & E & H).
  exists c, t. split; [exact E|]. unfold isDigit, isJSONWhiteSpace in *. lia.
Qed.

Lemma parseElements_joinWith (l : list json) :
  l <> [] ->
  Forall (Reads codec) l ->
  Forall (faithful codec) l ->
  forall fuel rest,
    (list_sum (map (fun v => S (weight v)) l) <= fuel)%nat ->
    parseElements codec fuel (joinWith 0x2C (map (JSON_stringify codec) l) ++ 0x5D :: rest)
    = Some (l, rest).
Proof.
  induction l as [|v l IH]; [congruence|]. intros _ HR HF fuel rest Hfuel.
  apply Forall_cons in HR as [Rv Rl]. apply Forall_cons in HF as [Fv Fl].
  change (S (weight v) + list_sum (map (fun v => S (weight v)) l) <= fuel)%nat in Hfuel.
  destruct fuel as [|fuel]; [lia|]. rewrite parseElements_S.
  destruct l as [|v' l'].
  - cbn [map joinWith].
    rewrite (Rv Fv fuel (0x5D :: rest)) by first [lia | reflexivity].
    reflexivity.
  - change (joinWith 0x2C (map (JSON_stringify codec) (v :: v' :: l')))
      with (JSON_stringify codec v ++ 0x2C :: joinWith 0x2C (map (JSON_stringify codec) (v' :: l'))).
    rewrite <- app_assoc. cbn [app].
    pose proof (IH ltac:(discriminate) Rl Fl fuel rest ltac:(lia)) as Hl.
    remember (joinWith 0x2C (map (JSON_stringify codec) (v' :: l')) ++ 0x5D :: rest) as J.
    rewrite (Rv Fv fuel) by first [lia | reflexivity].
    simpl. rewrite Hl. reflexivity.
Qed.

Lemma member_text (k S T : jsstring) :
  (QuoteJSONString k ++ 0x3A :: S) ++ T = 0x22 :: quoteChars k ++ 0x22 :: 0x3A :: (S ++ T).
Proof. unfold QuoteJSONString. simpl. rewrite <- !app_assoc. reflexivity. Qed.

Lemma parseMembers_joinWith (l : list (jsstring * json)) :
  l <> [] ->
  Forall (fun kv => Reads codec (snd kv)) l ->
  Forall (fun kv => faithful codec (snd kv)) l ->
  forall fuel rest,
    (list_sum (map (fun kv => S (weight (snd kv))) l) <= fuel)%nat ->
    parseMembers codec fuel
      (joinWith 0x2C
         (map (fun kv => QuoteJSONString (fst kv) ++ 0x3A :: JSON_stringify codec (snd kv)) l)
       ++ 0x7D :: rest)
    = Some (l, rest).
Proof.
  induction l as [|[k v] l IH]; [congruence|]. intros _ HR HF fuel rest Hfuel.
  apply Forall_cons in HR as [Rv Rl]. apply Forall_cons in HF as [Fv Fl].
  change (S (weight v) + list_sum (map (fun kv => S (weight (snd kv))) l) <= fuel)%nat in Hfuel.
  simpl in Rv, Fv.
  destruct fuel as [|fuel]; [lia|]. rewrite parseMembers_S.
  destruct l as [|kv' l'].
  - cbn [map joinWith fst snd]. rewrite member_text.
    cbn [skipWS isJSONWhiteSpace]. simpl. rewrite parseChars_quoteChars. simpl.
    rewrite (Rv Fv fuel (0x7D :: rest)) by first [lia | reflexivity].
    reflexivity.
  - pose proof (IH ltac:(discriminate) Rl Fl fuel rest ltac:(lia)) as Hl.
    change (joinWith 0x2C
              (map (fun kv => QuoteJSONString (fst kv) ++ 0x3A :: JSON_stringify codec (snd kv))
                 ((k, v) :: kv' :: l')))
      with ((QuoteJSONString k ++ 0x3A :: JSON_stringify codec v)
            ++ 0x2C :: joinWith 0x2C
                 (map (fun kv => QuoteJSONString (fst kv) ++ 0x3A :: JSON_stringify codec (snd kv))
                    (kv' :: l'))).
    rewrite <- app_assoc. cbn [app].
    remember (joinWith 0x2C
                (map (fun kv => QuoteJSONString (fst kv) ++ 0x3A :: JSON_stringify codec (snd kv))
                   (kv' :: l')) ++ 0x7D :: rest) as J.
    rewrite member_text. simpl. rewrite parseChars_quoteChars. simpl.
    rewrite (Rv Fv fuel (0x2C :: J)) by first [lia | reflexivity].
    simpl. rewrite Hl. reflexivity.
Qed.

Lemma stripPrefix_mismatch (a c : N) (w r : jsstring) :
  (a =? c) = false -> stripPrefix (a :: w) (c :: r) = None.
Proof. intros H. simpl. rewrite H. reflexivity. Qed.

Lemma joinWith_head (sep c : N) (t : jsstring) (ps : list jsstring) :
  exists t', joinWith sep ((c :: t) :: ps) = c :: t'.
Proof. destruct ps; simpl; eexists; reflexivity. Qed.

(** The rendering of a faithful value, in front of a delimiter or of the
    end, parses back to the value and leaves what followed. *)
Lemma parseValue_stringify (v : json) : Reads codec v.
Proof.
  induction v as [|b|x|s|l IH|l IH] using json_nested_ind; intros F fuel rest Hfuel D;
    simpl in Hfuel; (destruct fuel as [|fuel]; [lia|]); rewrite parseValue_S.
  - reflexivity.
  - destruct b; reflexivity.
  - destruct F as (Fin & Lex & RT). cbn [JSON_stringify]. rewrite Fin.
    destruct (lexNumber_head _ _ _ Lex) as (c & t & E & H).
    pose proof (lexNumber_app _ _ rest Lex D) as L. rewrite E in L, RT. rewrite E.
    cbn [app] in *. unfold isDigit in H.
    cbn [skipWS]. replace (isJSONWhiteSpace c) with false by (unfold isJSONWhiteSpace; lia).
    replace (c =? 0x22) with false by lia. replace (c =? 0x5B) with false by lia.
    replace (c =? 0x7B) with false by lia.
    change (lit "true") with [0x74; 0x72; 0x75; 0x65].
    change (lit "false") with [0x66; 0x61; 0x6C; 0x73; 0x65].
    change (lit "null") with [0x6E; 0x75; 0x6C; 0x6C].
    rewrite !stripPrefix_mismatch by lia.
    rewrite L, RT. reflexivity.
  - cbn [JSON_stringify]. unfold QuoteJSONString. rewrite <- app_comm_cons, <- app_assoc.
    simpl. rewrite parseChars_quoteChars. reflexivity.
  - apply faithful_array in F. cbn [JSON_stringify]. rewrite <- app_comm_cons, <- app_assoc.
    destruct l as [|v l]; [reflexivity|].
    pose proof (parseElements_joinWith (v :: l) ltac:(discriminate) IH F fuel rest
                  ltac:(lia)) as PE.
    destruct (stringify_head v) as (c & t & E & W & B);
      [apply Forall_cons in F as [Fv _]; exact Fv|].
    cbn [map app] in *. rewrite E in *.
    destruct (joinWith_head 0x2C c t (map (JSON_stringify codec) l)) as [t' J].
    rewrite J in *. simpl. rewrite W, B. simpl in PE. rewrite PE. reflexivity.
  - apply faithful_object in F as [K F]. cbn [JSON_stringify].
    rewrite <- app_comm_cons, <- app_assoc.
    destruct l as [|[k v] l]; [reflexivity|].
    apply objectOf_plain in K.
    pose proof (parseMembers_joinWith ((k, v) :: l) ltac:(discriminate) IH F fuel rest
                  ltac:(lia)) as PM.
    cbn [map app fst snd] in *. unfold QuoteJSONString at 1 in PM. unfold QuoteJSONString at 1.
    rewrite <- !app_comm_cons in *.
    destruct (joinWith_head 0x2C 0x22 ((quoteChars k ++ [0x22]) ++ 0x3A :: JSON_stringify codec v)
                (map (fun kv => QuoteJSONString (fst kv) ++ 0x3A :: JSON_stringify codec (snd kv)) l))
      as [t' J].
    rewrite J in *. simpl. simpl in PM. rewrite PM, K. reflexivity.
Qed.

Lemma length_joinWith (sep : N) (ps : list jsstring) :
  ps <> [] -> list_sum (map (fun p => S (length p)) ps) = S (length (joinWith sep ps)).
Proof.
  induction ps as [|p ps IH]; [congruence|]. intros _.
  destruct ps as [|p' ps'].
  - simpl. lia.
  - change (joinWith sep (p :: p' :: ps')) with (p ++ sep :: joinWith sep (p' :: ps')).
    change (list_sum (map (fun p => S (length p)) (p :: p' :: ps')))
      with (S (length p) + list_sum (map (fun p => S (length p)) (p' :: ps')))%nat.
    rewrite IH by discriminate. rewrite length_app. simpl. lia.
Qed.

Lemma weight_le_length (v : json) :
  faithful codec v -> (weight v <= length (JSON_stringify codec v))%nat.
Proof.
  induction v as [|b|x|s|l IH|l IH] using json_nested_ind; intros F.
  - simpl. lia.
  - destruct b; simpl; lia.
  - destruct (stringify_head (JNumber x) F) as (c & t & -> & _). simpl. lia.
  - simpl. lia.
  - apply faithful_array in F. cbn [JSON_stringify weight].
    destruct l as [|v l]; [simpl; lia|].
    cbn [length]. rewrite length_app. cbn [length].
    assert (H : (list_sum (map (fun v => S (weight v)) (v :: l))
                 <= list_sum (map (fun p => S (length p))
                               (map (JSON_stringify codec) (v :: l))))%nat).
    { clear -IH F. induction (v :: l) as [|a k IHk]; [simpl; lia|].
      apply Forall_cons in IH as [Ha IH]. apply Forall_cons in F as [Fa F].
      specialize (Ha Fa). specialize (IHk IH F). simpl in *. lia. }
    rewrite (length_joinWith 0x2C) in H by discriminate. lia.
  - apply faithful_object in F as [_ F]. cbn [JSON_stringify weight].
    destruct l as [|kv l]; [simpl; lia|].
    cbn [length]. rewrite length_app. cbn [length].
    assert (H : Nat.le (list_sum (map (fun kv => S (weight (snd kv))) (kv :: l)))
                  (list_sum (map (fun p => S (length p))
                               (map (fun kv => QuoteJSONString (fst kv) ++ 0x3A
                                                 :: JSON_stringify codec (snd kv))
                                  (kv :: l))))).
    { clear -IH F. induction (kv :: l) as [|a k IHk]; [simpl; lia|].
      apply Forall_cons in IH as [Ha IH]. apply Forall_cons in F as [Fa F].
      specialize (Ha Fa). specialize (IHk IH F).
      cbn [map list_sum fold_right]. change (fold_right Nat.add 0%nat) with list_sum.
      rewrite length_app. cbn [length]. lia. }
    rewrite (length_joinWith 0x2C) in H by discriminate. lia.
Qed.

(** [JSON.parse(JSON.stringify(v))] is [v] for every faithful value. *)
Lemma JSON_parse_stringify (v : json) :
  faithful codec v -> JSON_parse codec (JSON_stringify codec v) = Normal v.
Proof.
  intros F. unfold JSON_parse.
  pose proof (parseValue_stringify v F (S (length (JSON_stringify codec v))) []
                ltac:(pose proof (weight_le_length v F); lia) eq_refl) as H.
  rewrite app_nil_r in H. rewrite H. reflexivity.
Qed.

Lemma pinKeys_plain :
  plainKeys [lit "id"; lit "lat"; lit "lng"; lit "title"; lit "description"; lit "timestamp"].
Proof.
  split; [apply (bool_decide_unpack _); vm_compute; exact I | repeat constructor].
Qed.

Lemma faithful_pinsValue (P : list Pin.t) :
  Forall (validPin codec) P -> faithful codec (pinsValue P).
Proof.
  intros H. apply faithful_array. induction H as [|p P (La & Ln & Ts) _ IH]; simpl.
  - constructor.
  - constructor; [|exact IH]. simpl. split; [apply pinKeys_plain | tauto].
Qed.

End RoundTrip.

Lemma decodePin_pinValue (p : Pin.t) : decodePin (pinValue p) = Some p.
Proof. destruct p. reflexivity. Qed.

Lemma decodePins_pinsValue (P : list Pin.t) : decodePins (pinsValue P) = Some P.
Proof.
  unfold decodePins, pinsValue. induction P as [|p P IH]; [reflexivity|].
  cbn [map mapM]. rewrite decodePin_pinValue. simpl. simpl in IH. rewrite IH. reflexivity.
Qed.

(** ** Persistence *)

Lemma stringify_pins_not_empty (codec : NumberCodec) (P : list Pin.t) :
  falsy (JSON_stringify codec (pinsValue P)) = false.
Proof. reflexivity. Qed.

Lemma storable_valid (P : list Pin.t) :
  Forall storablePin P -> Forall (validPin ecmaNumbers) P.
Proof.
  intros H. eapply Forall_impl; [exact H|]. intros p (La & Ln & Ts).
  repeat split; apply ecmaNumbers_exact; assumption.
Qed.

Lemma load_after_save (codec : NumberCodec) (P : list Pin.t) (localStorage : Storage) :
  Forall (validPin codec) P ->
  loadPinsEffect codec (savePinsEffect codec P localStorage)
  = Normal (SetPins (pinsValue P)).
Proof.
  intros V. unfold loadPinsEffect, savePinsEffect. rewrite lookup_insert_eq.
  rewrite stringify_pins_not_empty.
  rewrite JSON_parse_stringify by (apply faithful_pinsValue, V). reflexivity.
Qed.

(** C1. Saving a list of valid pins and loading it back calls [setPins]
    with the very array that was saved: the same pins in the same order,
    each with its six fields, as the decoding of the loaded value shows.
    The save writes the one key and no other.  A pin is valid when its
    three numbers are finite and none is the negative zero, which the
    storage does not tell from zero; nothing is asked of its strings.
    The numbers are written by [Number::toString] and read by
    [JSON.parse], as the platform does. *)
Theorem pins_survive_save_and_load (P : list Pin.t) (localStorage : Storage) :
  Forall storablePin P ->
  loadPinsEffect ecmaNumbers (savePinsEffect ecmaNumbers P localStorage)
  = Normal (SetPins (pinsValue P))
  /\ decodePins (pinsCell (SetPins (pinsValue P))) = Some P
  /\ (forall key, key <> storageKey ->
        savePinsEffect ecmaNumbers P localStorage !! key = localStorage !! key).
Proof.
  intros V. split; [|split].
  - apply load_after_save, storable_valid, V.
  - apply decodePins_pinsValue.
  - intros key Hk. unfold savePinsEffect. apply lookup_insert_ne. congruence.
Qed.

Lemma pins_survive_save_and_load_witness :
  Forall storablePin [riverside; cafe]
  /\ NumberToString ecmaNumbers (Pin.lat riverside) = lit "51.5"
  /\ NumberToString ecmaNumbers (Pin.lng riverside) = lit "-0.09"
  /\ loadPinsEffect ecmaNumbers (savePinsEffect ecmaNumbers [riverside; cafe] ∅)
     = Normal (SetPins (pinsValue [riverside; cafe])).
Proof.
  assert (V : Forall storablePin [riverside; cafe])
    by (repeat constructor; vm_compute; reflexivity).
  split; [exact V|]. split; [vm_compute; reflexivity|]. split; [vm_compute; reflexivity|].
  apply (pins_survive_save_and_load [riverside; cafe] ∅ V).
Defined.

(** C3, as stated, fails.  The slot holds the text [[null]]: it parses,
    it is no list of valid pin records, and the load hands it to
    [setPins] as it is, so the pin list is not empty afterwards.  No
    number codec makes the claim true. *)
Lemma unvalidated_load_counterexample :
  JSON_parse ecmaNumbers (lit "[null]") = Normal (JArray [JNull])
  /\ decodePins (JArray [JNull]) = None
  /\ loadPinsEffect ecmaNumbers {[ storageKey := lit "[null]" ]}
     = Normal (SetPins (JArray [JNull]))
  /\ pinsCell (SetPins (JArray [JNull])) <> JArray []
  /\ ~ (exists codec, RecoveryClaim codec).
Proof.
  split; [vm_compute; reflexivity|]. split; [reflexivity|].
  split; [vm_compute; reflexivity|]. split; [discriminate|].
  intros [codec H].
  destruct (H {[ storageKey := lit "[null]" ]} (lit "[null]")) as (r & L & C).
  - apply lookup_singleton_eq.
  - intros v E. assert (v = JArray [JNull]) as -> by (vm_compute in E; congruence).
    reflexivity.
  - assert (L' : loadPinsEffect codec {[ storageKey := lit "[null]" ]}
                 = Normal (SetPins (JArray [JNull]))) by (vm_compute; reflexivity).
    rewrite L' in L. injection L as <-. discriminate C.
Qed.

(** C3, amended.  The load never throws.  With no stored text, or an
    empty one, nothing happens; a text that is no JSON raises a
    [SyntaxError] that is caught and logged; in these three cases the pin
    list stays the empty list it started as.  A text that parses is handed
    to [setPins] as it is, whatever its shape: nothing is validated. *)
Theorem load_never_throws_never_validates (codec : NumberCodec) (localStorage : Storage) :
  (exists r, loadPinsEffect codec localStorage = Normal r)
  /\ (localStorage !! storageKey = None ->
      loadPinsEffect codec localStorage = Normal NothingSaved)
  /\ (localStorage !! storageKey = Some [] ->
      loadPinsEffect codec localStorage = Normal NothingSaved)
  /\ (forall saved e,
        localStorage !! storageKey = Some saved ->
        JSON_parse codec saved = Throw e ->
        exists r, loadPinsEffect codec localStorage = Normal r /\ pinsCell r = JArray [])
  /\ (forall saved v,
        localStorage !! storageKey = Some saved ->
        saved <> [] ->
        JSON_parse codec saved = Normal v ->
        loadPinsEffect codec localStorage = Normal (SetPins v)
        /\ pinsCell (SetPins v) = v).
Proof.
  unfold loadPinsEffect. split; [|split; [|split; [|split]]].
  - destruct (localStorage !! storageKey) as [saved|]; [|eexists; reflexivity].
    destruct (falsy saved); [eexists; reflexivity|].
    destruct (JSON_parse codec saved); eexists; reflexivity.
  - intros ->. reflexivity.
  - intros ->. reflexivity.
  - intros saved e -> E. rewrite E.
    destruct (falsy saved); eexists; split; reflexivity.
  - intros saved v -> N E. rewrite E.
    destruct saved; [congruence|]. split; reflexivity.
Qed.

Lemma load_never_throws_never_validates_witness :
  JSON_parse ecmaNumbers (lit "not json") = Throw SyntaxError
  /\ (exists r, loadPinsEffect ecmaNumbers {[ storageKey := lit "not json" ]} = Normal r
                /\ pinsCell r = JArray [])
  /\ loadPinsEffect ecmaNumbers {[ storageKey := lit "{}" ]} = Normal (SetPins (JObject [])).
Proof.
  pose proof (load_never_throws_never_validates ecmaNumbers
                {[ storageKey := lit "not json" ]}) as (_ & _ & _ & Bad & _).
  pose proof (load_never_throws_never_validates ecmaNumbers
                {[ storageKey := lit "{}" ]}) as (_ & _ & _ & _ & Good).
  split; [vm_compute; reflexivity|]. split.
  - apply (Bad (lit "not json") SyntaxError); [apply lookup_singleton_eq|].
    vm_compute; reflexivity.
  - apply (Good (lit "{}") (JObject [])); [apply lookup_singleton_eq | discriminate |].
    vm_compute; reflexivity.
Defined.

(** * More of the screens *)

(** ** How the pin list moves *)

Lemma step_pins (k : Screen) (e : Event) (s : State) :
  pins (step k e s)
  = match e with
    | SavePin now1 now2 =>
      match selectedLocation s with
      | Some location =>
        if blank (pinTitle s) then pins s
        else insertPin k (committedPin s location now1 now2) (pins s)
      | None => pins s
      end
    | DeletePin id => filter (fun p => Pin.id p <> id) (pins s)
    | _ => pins s
    end.
Proof.
  destruct k, e; unfold_handlers; rewrite <- ?falsy_trim; split_cases; reflexivity.
Qed.

(** X2. The pin list after one event, in every screen: a commit with a
    pending location and a title that is not blank adds the pin built from
    the form, a delete filters by id, and no other event (locating, map
    clicks, selecting a pin, typing, the buttons, a refused commit)
    changes the list. *)
Theorem pins_after_event (k : Screen) (e : Event) (s : State) :
  pins (step k e s)
  = match e with
    | SavePin now1 now2 =>
      match selectedLocation s with
      | Some location =>
        if blank (pinTitle s) then pins s
        else insertPin k (committedPin s location now1 now2) (pins s)
      | None => pins s
      end
    | DeletePin id => filter (fun p => Pin.id p <> id) (pins s)
    | _ => pins s
    end.
Proof.
  destruct k, e; unfold_handlers; rewrite <- ?falsy_trim; split_cases; reflexivity.
Qed.

(** X3. No sequence of events of any screen puts a pin with a blank title
    into a list that has none: [savePin] is the only writer of titles and
    it refuses the blank ones. *)
Theorem no_blank_title_enters (k : Screen) (es : list Event) (s : State) :
  Forall (fun p => blank (Pin.title p) = false) (pins s) ->
  Forall (fun p => blank (Pin.title p) = false) (pins (run k es s)).
Proof.
  revert s. induction es as [|e es IH]; intros s H; [exact H|].
  rewrite run_cons. apply IH. rewrite step_pins.
  destruct e; try exact H.
  - destruct (selectedLocation s) as [location|]; [|exact H].
    destruct (blank (pinTitle s)) eqn:B; [exact H|].
    destruct k; simpl; rewrite ?Forall_app; repeat constructor; try exact H; exact B.
  - apply Forall_forall. intros p Hp. apply list_elem_of_filter in Hp as [_ Hp].
    rewrite Forall_forall in H. apply H, Hp.
Qed.

Lemma no_blank_title_enters_witness :
  Forall (fun p => blank (Pin.title p) = false)
    (pins (run SoftScreen
             [QuickPin (Some (Position 51 (-3))); ChangeTitle (lit " "); SavePin 5 6;
              ChangeTitle (lit "Quay"); SavePin 7 8]
             browsing))
  /\ length (pins (run SoftScreen
             [QuickPin (Some (Position 51 (-3))); ChangeTitle (lit " "); SavePin 5 6;
              ChangeTitle (lit "Quay"); SavePin 7 8]
             browsing)) = 2%nat.
Proof.
  split; [|reflexivity].
  apply (no_blank_title_enters SoftScreen _ browsing).
  repeat constructor.
Defined.

(** X4. In the minimal screen a pending location exists only in add mode:
    the map click that sets it needs the flag, and the three handlers
    that clear the flag clear the location with it. *)
Theorem Minimal_pending_only_in_add_mode (es : list Event) (s : State) :
  (selectedLocation s <> None -> isAddingPin s = true) ->
  selectedLocation (run MinimalScreen es s) <> None ->
  isAddingPin (run MinimalScreen es s) = true.
Proof.
  revert s. induction es as [|e es IH]; intros s H; [exact H|].
  rewrite run_cons. apply IH.
  destruct e; unfold_handlers; split_cases; simpl;
    first [ exact H
          | intros X;
            first [ contradiction X; reflexivity | reflexivity | assumption
                  | specialize (H X); congruence | congruence
                  | apply H; discriminate ] ].
Qed.

Lemma Minimal_pending_only_in_add_mode_witness :
  selectedLocation (run MinimalScreen [AddPinButton; MapClick london; ListButton] initialState)
  = Some london
  /\ isAddingPin (run MinimalScreen [AddPinButton; MapClick london; ListButton] initialState)
     = true.
Proof.
  split; [reflexivity|].
  apply (Minimal_pending_only_in_add_mode [AddPinButton; MapClick london; ListButton]
           initialState).
  - intros X. contradiction X. reflexivity.
  - discriminate.
Defined.

(** In the soft and the cyber screen quick capture opens the entry with
    add mode off, so there the pending location does not imply add
    mode. *)
Lemma quick_capture_pends_outside_add_mode :
  controller (step SoftScreen (QuickPin (Some (Position 51 (-3)))) initialState)
  = PendingEntry {| LatLng.lat := 51; LatLng.lng := -3 |}
  /\ isAddingPin (step SoftScreen (QuickPin (Some (Position 51 (-3)))) initialState) = false.
Proof. split; reflexivity. Qed.

(** X5. Once [userLocation] holds a coordinate no event of any screen clears
    it: every writer of the cell writes a coordinate.  The HUD of the
    cyber screen therefore never goes back from [SIGNAL STABLE] to
    [SEARCHING], whatever the geolocation answers later. *)
Theorem userLocation_never_cleared (k : Screen) (es : list Event) (s : State) :
  userLocation s <> None ->
  userLocation (run k es s) <> None
  /\ gpsLabel (run k es s) = lit "GPS: SIGNAL STABLE".
Proof.
  intros H.
  assert (G : userLocation (run k es s) <> None).
  { revert s H. induction es as [|e es IH]; intros s H; [exact H|].
    rewrite run_cons. apply IH.
    destruct k, e; unfold_handlers; split_cases; simpl; try exact H; try discriminate;
      congruence. }
  split; [exact G|]. unfold gpsLabel. destruct (userLocation (run k es s)); congruence.
Qed.

Lemma userLocation_never_cleared_witness :
  gpsLabel initialState = lit "GPS: SEARCHING..."
  /\ gpsLabel (run CyberScreen
                 [WatchPosition 51 (-3); LocateAnswer PositionError; LocateRequest false]
                 initialState)
     = lit "GPS: SIGNAL STABLE".
Proof.
  split; [reflexivity|].
  apply (userLocation_never_cleared CyberScreen
           [LocateAnswer PositionError; LocateRequest false]
           (step CyberScreen (WatchPosition 51 (-3)) initialState)).
  discriminate.
Defined.

(** ** Handlers one after another *)

(** X6. Two presses of the add button, in every screen, restore the add-mode
    flag and leave no pending location; no other cell changes.  In the
    cyber screen, which has no Cancel, this is the way out of an open
    entry. *)
Theorem add_button_twice (k : Screen) (s : State) :
  step k AddPinButton (step k AddPinButton s) = setSelectedLocation None s.
Proof.
  destruct s as [p u sb a sl lo t d].
  destruct k, a; reflexivity.
Qed.

(** X7. A commit with a pending location is refused exactly when every
    character of the title is ECMAScript white space; otherwise the list
    grows by one.  The test is on the title alone: the description plays
    no part. *)
Theorem savePin_accepts_iff_not_blank (k : Screen) (now1 now2 : Z) (s : State)
    (location : LatLng.t) :
  selectedLocation s = Some location ->
  length (pins (step k (SavePin now1 now2) s))
  = (length (pins s) + (if blank (pinTitle s) then 0 else 1))%nat
  /\ (controller (step k (SavePin now1 now2) s)
      = if blank (pinTitle s) then PendingEntry location else Idle).
Proof.
  intros L. split.
  - rewrite step_pins, L. destruct (blank (pinTitle s)); [lia|].
    destruct k; simpl; rewrite ?length_app; simpl; lia.
  - destruct k; unfold_handlers; unfold controller; rewrite L, falsy_trim;
      destruct (blank (pinTitle s)); simpl; rewrite ?L; reflexivity.
Qed.

Lemma savePin_accepts_iff_not_blank_witness :
  blank [0xA0; 0x3000; 0xFEFF] = true
  /\ blank [0x200B] = false
  /\ length (pins (step CyberScreen (SavePin 5 6) (typing [0xA0; 0x3000; 0xFEFF]))) = 1%nat
  /\ length (pins (step CyberScreen (SavePin 5 6) (typing [0x200B]))) = 2%nat.
Proof.
  split; [reflexivity|]. split; [reflexivity|]. split.
  - apply (savePin_accepts_iff_not_blank CyberScreen 5 6 (typing [0xA0; 0x3000; 0xFEFF]) london).
    reflexivity.
  - apply (savePin_accepts_iff_not_blank CyberScreen 5 6 (typing [0x200B]) london).
    reflexivity.
Defined.

Lemma filter_insertPin (k : Screen) (P : Pin.t -> Prop) `{!forall p, Decision (P p)}
    (p : Pin.t) (l : list Pin.t) :
  filter P (insertPin k p l)
  = if decide (P p) then insertPin k p (filter P l) else filter P l.
Proof.
  destruct k; simpl; rewrite ?filter_app, ?filter_cons; simpl;
    destruct (decide (P p)); rewrite ?app_nil_r; reflexivity.
Qed.

(** X8. Adding a pin and deleting it by its id gives back the list there was
    before, in every screen, when the title is not blank and no older pin
    carries the same id. *)
Theorem add_then_delete (k : Screen) (c : Candidate) (s : State) :
  blank (name c) = false ->
  Forall (fun p => Pin.id p <> timeToString (clock1 c)) (pins s) ->
  pins (step k (DeletePin (timeToString (clock1 c))) (fst (addOf k c s))) = pins s.
Proof.
  intros B F. rewrite step_pins, addOf_pins, B, filter_insertPin.
  destruct (decide _) as [D|_]; [contradiction D; reflexivity|].
  apply filter_Forall_id, F.
Qed.

Lemma add_then_delete_witness :
  pins (fst (addOf SoftScreen (library 5) browsing)) = [candidatePin (library 5); cafe]
  /\ pins (step SoftScreen (DeletePin (lit "5")) (fst (addOf SoftScreen (library 5) browsing)))
     = [cafe].
Proof.
  split; [reflexivity|].
  apply (add_then_delete SoftScreen (library 5) browsing); [reflexivity|].
  repeat constructor. vm_compute. discriminate.
Defined.

(** X9. Two pins created in the same millisecond share their id, so deleting
    either deletes both: after two accepted adds with the same clock
    reading, one delete of that id leaves only the older pins with another
    id. *)
Theorem same_millisecond_pins_die_together (k : Screen) (c1 c2 : Candidate) (s : State) :
  blank (name c1) = false ->
  blank (name c2) = false ->
  clock1 c1 = clock1 c2 ->
  length (pins (addAll (addOf k) [c1; c2] s)) = S (S (length (pins s)))
  /\ pins (step k (DeletePin (timeToString (clock1 c1))) (addAll (addOf k) [c1; c2] s))
     = filter (fun p => Pin.id p <> timeToString (clock1 c1)) (pins s).
Proof.
  intros B1 B2 E. unfold addAll. simpl fold_left.
  rewrite step_pins, !addOf_pins, B1, B2. split.
  - destruct k; simpl; rewrite ?length_app; simpl; lia.
  - rewrite !filter_insertPin.
    destruct (decide _) as [D|_]; [contradiction D; simpl; rewrite E; reflexivity|].
    destruct (decide _) as [D|_]; [contradiction D; reflexivity|].
    reflexivity.
Qed.

Lemma same_millisecond_pins_die_together_witness :
  pins (step MinimalScreen (DeletePin (lit "5"))
          (addAll (addOf MinimalScreen) [library 5; library 5] browsing))
  = [cafe].
Proof.
  apply (same_millisecond_pins_die_together MinimalScreen (library 5) (library 5) browsing);
    reflexivity.
Defined.

(** X10. Deleting is idempotent and two deletes commute, in every screen. *)
Theorem deletes_commute (k : Screen) (i j : jsstring) (s : State) :
  pins (step k (DeletePin i) (step k (DeletePin i) s)) = pins (step k (DeletePin i) s)
  /\ pins (step k (DeletePin i) (step k (DeletePin j) s))
     = pins (step k (DeletePin j) (step k (DeletePin i) s)).
Proof.
  rewrite !step_pins. split.
  - apply filter_Forall_id. apply Forall_forall. intros p Hp.
    apply list_elem_of_filter in Hp as [Hp _]. exact Hp.
  - rewrite !list_filter_filter. apply list_filter_iff. intros p. tauto.
Qed.

(** X11. In the cyber screen quick capture after a pin was selected takes the
    selected pin's coordinate, whatever the device position is and even
    if none was ever received: [flyToPin] writes the cell that quick
    capture reads. *)
Theorem Cyber_quick_capture_after_selection (innerWidth : Z) (lat lng : float) (s : State) :
  is_nan lat = false ->
  is_nan lng = false ->
  controller (run CyberScreen [FlyToPin innerWidth lat lng; QuickPin None] s)
  = PendingEntry {| LatLng.lat := lat; LatLng.lng := lng |}
  /\ pins (run CyberScreen [FlyToPin innerWidth lat lng; QuickPin None] s) = pins s.
Proof.
  intros A B. unfold run, controller. simpl fold_left. unfold_handlers.
  destruct (innerWidth <? 640)%Z; simpl; rewrite A, B; simpl; split; reflexivity.
Qed.

Lemma Cyber_quick_capture_after_selection_witness :
  userLocation initialState = None
  /\ controller (run CyberScreen [FlyToPin 1024 51 (-3); QuickPin None] initialState)
     = PendingEntry {| LatLng.lat := 51; LatLng.lng := -3 |}.
Proof.
  split; [reflexivity|].
  apply (Cyber_quick_capture_after_selection 1024 51 (-3) initialState); reflexivity.
Defined.

(** X12. Quick capture and commit.  In the cyber screen with a latched
    coordinate, and in the soft screen when the one-shot request answers
    with a position, the steps quick capture, type a title that is not
    blank, type a description, save put one pin first in the list, at that
    coordinate and with what was typed, and leave the controller idle with
    the form empty. *)
Theorem quick_capture_and_commit (lat lng : float) (title desc : jsstring) (now1 now2 : Z)
    (s : State) :
  is_nan lat = false ->
  is_nan lng = false ->
  blank title = false ->
  let newPin :=
    {| Pin.id := timeToString now1; Pin.lat := lat; Pin.lng := lng; Pin.title := title;
       Pin.description := desc; Pin.timestamp := numberOfZ now2 |} in
  let events g := [QuickPin g; ChangeTitle title; ChangeDesc desc; SavePin now1 now2] in
  (userLocation s = Some (lat, lng) ->
     pins (run CyberScreen (events None) s) = newPin :: pins s
     /\ controller (run CyberScreen (events None) s) = Idle
     /\ pinTitle (run CyberScreen (events None) s) = []
     /\ pinDesc (run CyberScreen (events None) s) = [])
  /\ (pins (run SoftScreen (events (Some (Position lat lng))) s) = newPin :: pins s
      /\ controller (run SoftScreen (events (Some (Position lat lng))) s) = Idle
      /\ pinTitle (run SoftScreen (events (Some (Position lat lng))) s) = []
      /\ pinDesc (run SoftScreen (events (Some (Position lat lng))) s) = []
      /\ userLocation (run SoftScreen (events (Some (Position lat lng))) s) = Some (lat, lng)).
Proof.
  intros A B T. cbv zeta. unfold run, controller. simpl fold_left. unfold_handlers. split.
  - intros U. rewrite U. simpl. rewrite A, B. simpl. rewrite falsy_trim, T. simpl.
    repeat split.
  - simpl. rewrite A, B. simpl. rewrite falsy_trim, T. simpl. repeat split.
Qed.

Lemma quick_capture_and_commit_witness :
  pins (run SoftScreen
          [QuickPin (Some (Position 51 (-3))); ChangeTitle (lit "Quay"); ChangeDesc [];
           SavePin 5 6] browsing)
  = [ {| Pin.id := lit "5"; Pin.lat := 51; Pin.lng := -3; Pin.title := lit "Quay";
         Pin.description := []; Pin.timestamp := 6 |}; cafe ].
Proof.
  apply (quick_capture_and_commit 51 (-3) (lit "Quay") [] 5 6 browsing); reflexivity.
Defined.

(** ** Persistence at the edges *)

(** X13. Mounting a screen over a slot that holds text which is no JSON
    destroys that text: the load logs the error and sets nothing, and the
    save effect of the same commit writes the empty list over it. *)
Theorem mount_overwrites_unreadable (codec : NumberCodec) (localStorage : Storage)
    (saved : jsstring) (e : error) :
  localStorage !! storageKey = Some saved ->
  saved <> [] ->
  JSON_parse codec saved = Throw e ->
  exists after,
    mountEffects codec localStorage = Normal (LoggedError e, after)
    /\ after !! storageKey = Some (lit "[]")
    /\ loadPinsEffect codec after = Normal (SetPins (JArray [])).
Proof.
  intros L N E. exists (savePinsEffect codec [] localStorage).
  unfold mountEffects, loadPinsEffect. rewrite L, E.
  destruct saved; [congruence|]. simpl.
  split; [reflexivity|]. unfold savePinsEffect. rewrite lookup_insert_eq.
  split; reflexivity.
Qed.

Lemma mount_overwrites_unreadable_witness :
  exists after,
    mountEffects ecmaNumbers {[ storageKey := lit "{oops" ]} = Normal (LoggedError SyntaxError, after)
    /\ after !! storageKey = Some (lit "[]")
    /\ loadPinsEffect ecmaNumbers after = Normal (SetPins (JArray [])).
Proof.
  apply (mount_overwrites_unreadable ecmaNumbers {[ storageKey := lit "{oops" ]}
           (lit "{oops") SyntaxError).
  - apply lookup_singleton_eq.
  - discriminate.
  - vm_compute. reflexivity.
Defined.

(** X14. Mounting over a slot written by the save effect from valid pins
    hands those pins to [setPins]; the same commit overwrites the slot
    with the empty list, and the save effect of the next render, run on
    the loaded pins, puts the storage back exactly as it was.  The pins
    are valid as in C1: their numbers are finite and none is the negative
    zero. *)
Theorem mount_keeps_saved_pins (P : list Pin.t) (localStorage : Storage) :
  Forall storablePin P ->
  let stored := savePinsEffect ecmaNumbers P localStorage in
  exists during,
    mountEffects ecmaNumbers stored = Normal (SetPins (pinsValue P), during)
    /\ during !! storageKey = Some (lit "[]")
    /\ savePinsEffect ecmaNumbers P during = stored.
Proof.
  intros V stored. exists (savePinsEffect ecmaNumbers [] stored).
  pose proof (load_after_save ecmaNumbers P localStorage (storable_valid P V)) as L.
  unfold mountEffects. fold stored in L. rewrite L.
  split; [reflexivity|]. unfold stored, savePinsEffect.
  rewrite lookup_insert_eq, !insert_insert_eq. split; reflexivity.
Qed.

Lemma mount_keeps_saved_pins_witness :
  exists during,
    mountEffects ecmaNumbers (savePinsEffect ecmaNumbers [riverside] ∅)
    = Normal (SetPins (pinsValue [riverside]), during)
    /\ during !! storageKey = Some (lit "[]")
    /\ savePinsEffect ecmaNumbers [riverside] during
       = savePinsEffect ecmaNumbers [riverside] ∅.
Proof.
  apply (mount_keeps_saved_pins [riverside] ∅).
  repeat constructor; vm_compute; reflexivity.
Defined.

(** X15. A pin whose latitude is not finite does not survive the storage: the
    save writes [null] for it, and the load gives back a record whose
    [lat] is [null], which is no valid pin record any more. *)
Theorem nonfinite_latitude_comes_back_null (codec : NumberCodec) (p : Pin.t)
    (localStorage : Storage) :
  is_finite (Pin.lat p) = false ->
  exactNumber codec (Pin.lng p) ->
  exactNumber codec (Pin.timestamp p) ->
  loadPinsEffect codec (savePinsEffect codec [p] localStorage)
  = Normal (SetPins (JArray [pinValueNullLat p]))
  /\ decodePins (JArray [pinValueNullLat p]) = None.
Proof.
  intros Inf Ln Ts. split; [|reflexivity].
  assert (E : JSON_stringify codec (pinsValue [p])
              = JSON_stringify codec (JArray [pinValueNullLat p])).
  { simpl. rewrite Inf. reflexivity. }
  unfold loadPinsEffect, savePinsEffect. rewrite lookup_insert_eq, E.
  rewrite JSON_parse_stringify by (simpl; pose proof pinKeys_plain; tauto). reflexivity.
Qed.

Lemma nonfinite_latitude_comes_back_null_witness :
  loadPinsEffect ecmaNumbers
    (savePinsEffect ecmaNumbers
       [ {| Pin.id := lit "5"; Pin.lat := infinity; Pin.lng := -3; Pin.title := lit "Edge";
            Pin.description := []; Pin.timestamp := 6 |} ] ∅)
  = Normal (SetPins (JArray [ JObject
      [ (lit "id", JString (lit "5")); (lit "lat", JNull); (lit "lng", JNumber (-3));
        (lit "title", JString (lit "Edge")); (lit "description", JString []);
        (lit "timestamp", JNumber 6) ] ])).
Proof.
  apply (nonfinite_latitude_comes_back_null ecmaNumbers
           {| Pin.id := lit "5"; Pin.lat := infinity; Pin.lng := -3; Pin.title := lit "Edge";
              Pin.description := []; Pin.timestamp := 6 |} ∅).
  - reflexivity.
  - apply ecmaNumbers_exact. split; reflexivity.
  - apply ecmaNumbers_exact. split; reflexivity.
Defined.

(** X24. A pin whose latitude is the negative zero comes back with the
    latitude zero: [JSON.stringify] writes [0] for both, so the storage
    cannot tell them apart.  JavaScript's [===] holds the two equal. *)
Theorem negative_zero_comes_back_positive (p : Pin.t) (localStorage : Storage) :
  isNegativeZero (Pin.lat p) = true ->
  storable (Pin.lng p) ->
  storable (Pin.timestamp p) ->
  loadPinsEffect ecmaNumbers (savePinsEffect ecmaNumbers [p] localStorage)
  = Normal (SetPins (pinsValue [withLat 0 p]))
  /\ (Pin.lat p =? 0)%float = true.
Proof.
  intros Z Ln Ts.
  assert (E : Pin.lat p = (-0)%float).
  { unfold isNegativeZero in Z. rewrite <- (SF2Prim_Prim2SF (Pin.lat p)).
    destruct (Prim2SF (Pin.lat p)) as [[]| | |]; try discriminate Z. reflexivity. }
  split; [|rewrite E; reflexivity].
  assert (T : JSON_stringify ecmaNumbers (pinsValue [p])
              = JSON_stringify ecmaNumbers (pinsValue [withLat 0 p])).
  { cbn [pinsValue map pinValue withLat JSON_stringify Pin.lat Pin.lng Pin.id Pin.title
         Pin.description Pin.timestamp fst snd].
    rewrite E. reflexivity. }
  pose proof (load_after_save ecmaNumbers [withLat 0 p] localStorage) as L.
  unfold loadPinsEffect, savePinsEffect in *. rewrite lookup_insert_eq in *.
  rewrite T. apply L. constructor; [|constructor].
  split; [|split]; apply ecmaNumbers_exact; [split; reflexivity | exact Ln | exact Ts].
Qed.

Lemma negative_zero_comes_back_positive_witness :
  loadPinsEffect ecmaNumbers
    (savePinsEffect ecmaNumbers
       [ {| Pin.id := lit "5"; Pin.lat := -0; Pin.lng := -0.09; Pin.title := lit "Edge";
            Pin.description := []; Pin.timestamp := 6 |} ] ∅)
  = Normal (SetPins (pinsValue
       [ {| Pin.id := lit "5"; Pin.lat := 0; Pin.lng := -0.09; Pin.title := lit "Edge";
            Pin.description := []; Pin.timestamp := 6 |} ])).
Proof.
  apply (negative_zero_comes_back_positive
           {| Pin.id := lit "5"; Pin.lat := -0; Pin.lng := -0.09; Pin.title := lit "Edge";
              Pin.description := []; Pin.timestamp := 6 |} ∅).
  - reflexivity.
  - split; reflexivity.
  - split; reflexivity.
Defined.

(** ** What the screens draw *)

(** X16. The HUD of the cyber screen always draws five bars, and lights as
    many as there are pins, up to five. *)
Theorem signal_bars_saturate (s : State) :
  length (signalBars s) = 5%nat
  /\ length (filter (fun b => b = true) (signalBars s)) = Nat.min 5 (length (pins s)).
Proof.
  unfold signalBars. split; [reflexivity|].
  destruct (length (pins s)) as [|[|[|[|[|n]]]]]; reflexivity.
Qed.

(** X17. After a pin is selected from the list, in every screen, the marker
    of the user is drawn at the selected pin's coordinate, in front of the
    unchanged markers of the pins and of the pending location. *)
Theorem user_marker_follows_selection (k : Screen) (innerWidth : Z) (lat lng : float)
    (s : State) :
  markers (step k (FlyToPin innerWidth lat lng) s)
  = UserMarker (lat, lng)
    :: map (fun p => PinMarker (Pin.id p) (Pin.lat p, Pin.lng p)) (pins s)
    ++ match selectedLocation s with Some l => [SelectedMarker l] | None => [] end.
Proof.
  destruct k; unfold_handlers; unfold markers; simpl;
    try destruct (innerWidth <? 640)%Z; reflexivity.
Qed.

(** ** The service worker *)

Section ServiceWorkerFacts.
Variable Response : Type.
Variable ok : Response -> bool.
Variable resolve : jsstring -> jsstring.

Lemma find_app_first {A} (f : A -> bool) (l1 l2 : list A) :
  find f (l1 ++ l2) = match find f l1 with Some x => Some x | None => find f l2 end.
Proof.
  induction l1 as [|a l1 IH]; simpl; [reflexivity|]. destruct (f a); [reflexivity | exact IH].
Qed.

Lemma hasCache_open (name : jsstring) (caches : CacheStorage Response) :
  hasCache Response name (caches_open Response name caches) = true.
Proof.
  unfold caches_open. destruct (hasCache Response name caches) eqn:H; [exact H|].
  unfold hasCache. rewrite existsb_app. simpl.
  rewrite bool_decide_eq_true_2 by reflexivity. apply orb_true_iff. right. reflexivity.
Qed.


Lemma hasCache_put (name other url : jsstring) (r : Response) (caches : CacheStorage Response) :
  hasCache Response name (cache_put Response other url r caches)
  = hasCache Response name caches.
Proof.
  unfold hasCache, cache_put. induction caches as [|[n c] cs IH]; simpl; [reflexivity|].
  rewrite IH. destruct (bool_decide (n = other)); reflexivity.
Qed.

Lemma cache_match_put (name other url u : jsstring) (r : Response)
    (caches : CacheStorage Response) :
  cache_match Response name u (cache_put Response other url r caches)
  = if bool_decide (name = other) && bool_decide (u = url) && hasCache Response name caches
    then Some r
    else cache_match Response name u caches.
Proof.
  unfold cache_match, cache_put, hasCache.
  induction caches as [|[n c] cs IH]; simpl.
  - rewrite andb_false_r. reflexivity.
  - destruct (bool_decide (n = other)) eqn:O; simpl.
    + apply bool_decide_eq_true in O. subst n.
      destruct (bool_decide (other = name)) eqn:N; simpl.
      * apply bool_decide_eq_true in N. subst other.
        rewrite bool_decide_eq_true_2 by reflexivity. simpl. rewrite andb_true_r.
        destruct (bool_decide (u = url)) eqn:U.
        -- apply bool_decide_eq_true in U. subst u. apply lookup_insert_eq.
        -- apply bool_decide_eq_false in U. apply lookup_insert_ne. congruence.
      * rewrite IH. reflexivity.
    + destruct (bool_decide (n = name)) eqn:N; simpl.
      * apply bool_decide_eq_true in N. subst n.
        apply bool_decide_eq_false in O.
        rewrite (bool_decide_eq_false_2 (name = other)) by exact O. reflexivity.
      * rewrite IH. reflexivity.
Qed.


(** X19. The fetch listener writes to the tile cache only: whatever the
    request, every other cache, the one of the install among them, holds
    afterwards what it held before. *)
Theorem fetch_writes_only_the_tile_cache (fetch : jsstring -> option Response)
    (url name u : jsstring) (caches : CacheStorage Response) :
  name <> tileCache ->
  cache_match Response name u (snd (onFetch Response fetch url caches))
  = cache_match Response name u caches.
Proof.
  intros N.
  assert (O : cache_match Response name u (caches_open Response tileCache caches)
              = cache_match Response name u caches).
  { unfold caches_open. destruct (hasCache Response tileCache caches); [reflexivity|].
    unfold cache_match. rewrite find_app_first.
    destruct (find _ caches) as [[n c]|]; [reflexivity|]. simpl.
    rewrite bool_decide_eq_false_2 by congruence. reflexivity. }
  unfold onFetch. destruct (includes url tileHost); [|reflexivity].
  destruct (cache_match Response tileCache url _); [exact O|].
  destruct (fetch url); [|exact O]. simpl.
  rewrite cache_match_put, (bool_decide_eq_false_2 (name = tileCache)) by exact N.
  exact O.
Qed.

Lemma find_none_hasCache (name : jsstring) (caches : CacheStorage Response) :
  hasCache Response name caches = false ->
  find (fun nc => bool_decide (fst nc = name)) caches = None.
Proof.
  unfold hasCache. induction caches as [|[n c] cs IH]; simpl; [reflexivity|].
  destruct (bool_decide (n = name)); simpl; [discriminate | exact IH].
Qed.

Lemma cache_match_open (name other u : jsstring) (caches : CacheStorage Response) :
  cache_match Response name u (caches_open Response other caches)
  = cache_match Response name u caches.
Proof.
  unfold caches_open. destruct (hasCache Response other caches) eqn:H; [reflexivity|].
  unfold cache_match. rewrite find_app_first.
  destruct (find _ caches) as [[n c]|] eqn:F; [reflexivity|]. simpl.
  destruct (bool_decide (other = name)); reflexivity.
Qed.

Lemma cache_match_fill (name : jsstring) (fetch : jsstring -> option Response)
    (urls : list jsstring) (u : jsstring) (caches : CacheStorage Response) :
  hasCache Response name caches = true ->
  cache_match Response name u
    (fold_left
       (fun cs x => match fetch x with Some r => cache_put Response name x r cs | None => cs end)
       urls caches)
  = match fetch u with
    | Some r => if bool_decide (u ∈ urls) then Some r else cache_match Response name u caches
    | None => cache_match Response name u caches
    end.
Proof.
  revert caches. induction urls as [|x urls IH]; intros caches H; simpl.
  - destruct (fetch u); reflexivity.
  - rewrite IH by (destruct (fetch x); [rewrite hasCache_put|]; exact H).
    destruct (fetch u) as [r|] eqn:U.
    + destruct (bool_decide (u ∈ urls)) eqn:I.
      * rewrite bool_decide_eq_true_2; [reflexivity|].
        apply bool_decide_eq_true in I. right. exact I.
      * apply bool_decide_eq_false in I.
        destruct (decide (u = x)) as [->|D].
        -- rewrite U, cache_match_put, H, !bool_decide_eq_true_2 by reflexivity.
           rewrite bool_decide_eq_true_2 by left. reflexivity.
        -- rewrite (bool_decide_eq_false_2 (u ∈ x :: urls))
             by (intros X; apply elem_of_cons in X as [X|X]; [exact (D X) | exact (I X)]).
           destruct (fetch x); [|reflexivity].
           rewrite cache_match_put, (bool_decide_eq_false_2 (u = x)) by exact D.
           rewrite andb_false_r. reflexivity.
    + destruct (fetch x) as [r|] eqn:X; [|reflexivity].
      rewrite cache_match_put.
      destruct (bool_decide (u = x)) eqn:E; [|rewrite andb_false_r; reflexivity].
      apply bool_decide_eq_true in E. congruence.
Qed.

Lemma cache_match_caches_match (name u : jsstring) (r : Response)
    (caches : CacheStorage Response) :
  cache_match Response name u caches = Some r ->
  exists r', caches_match Response u caches = Some r'.
Proof.
  unfold cache_match. induction caches as [|[n c] cs IH]; simpl; [discriminate|].
  destruct (bool_decide (n = name)).
  - intros H. rewrite H. exists r. reflexivity.
  - intros H. destruct (c !! u) as [x|]; [exists x; reflexivity | apply IH, H].
Qed.

(** X20. After an install that succeeded, every asset of the list is in the
    cache of the install with the answer the network gave, and that
    answer was ok; a later request for an asset (no URL of the tile host)
    is then answered from the caches even when the network is down. *)
Theorem installed_assets_need_no_network (fetch : jsstring -> option Response)
    (caches : CacheStorage Response) (asset : jsstring) :
  fst (onInstall Response ok resolve fetch caches) = true ->
  asset ∈ ASSETS_TO_CACHE ->
  (exists r,
     fetch (resolve asset) = Some r /\ ok r = true
     /\ cache_match Response CACHE_NAME (resolve asset)
          (snd (onInstall Response ok resolve fetch caches)) = Some r)
  /\ (includes (resolve asset) tileHost = false ->
      exists r',
        onFetch Response (fun _ => None) (resolve asset)
          (snd (onInstall Response ok resolve fetch caches))
        = (Some r', snd (onInstall Response ok resolve fetch caches))).
Proof.
  unfold onInstall, cache_addAll. intros I A.
  destruct (forallb _ (map resolve ASSETS_TO_CACHE)) eqn:F; [|discriminate I].
  cbv zeta. cbn [fst snd].
  assert (Hin : In (resolve asset) (map resolve ASSETS_TO_CACHE))
    by (apply in_map, list_elem_of_In, A).
  rewrite forallb_forall in F. specialize (F _ Hin).
  destruct (fetch (resolve asset)) as [r|] eqn:E; [|discriminate F].
  assert (M : cache_match Response CACHE_NAME (resolve asset)
                (fold_left
                   (fun cs x =>
                      match fetch x with
                      | Some r => cache_put Response CACHE_NAME x r cs
                      | None => cs
                      end)
                   (map resolve ASSETS_TO_CACHE) (caches_open Response CACHE_NAME caches))
              = Some r).
  { rewrite cache_match_fill by apply hasCache_open. rewrite E.
    rewrite bool_decide_eq_true_2 by (apply list_elem_of_In, Hin). reflexivity. }
  split.
  - exists r. split; [reflexivity|]. split; [exact F | exact M].
  - intros T. destruct (cache_match_caches_match _ _ _ _ M) as [r' C].
    exists r'. unfold onFetch. rewrite T, C. reflexivity.
Qed.

(** X21. The install is all or nothing: when one asset of the list cannot be
    fetched, or is answered with a status that is not ok, [waitUntil]
    rejects and the cache of the install holds nothing it did not hold
    before, the assets that could be fetched included. *)
Theorem install_is_all_or_nothing (fetch : jsstring -> option Response)
    (caches : CacheStorage Response) (asset : jsstring) :
  asset ∈ ASSETS_TO_CACHE ->
  match fetch (resolve asset) with Some r => ok r | None => false end = false ->
  fst (onInstall Response ok resolve fetch caches) = false
  /\ forall u,
       cache_match Response CACHE_NAME u (snd (onInstall Response ok resolve fetch caches))
       = cache_match Response CACHE_NAME u caches.
Proof.
  intros A B. unfold onInstall, cache_addAll.
  destruct (forallb _ (map resolve ASSETS_TO_CACHE)) eqn:F.
  - rewrite forallb_forall in F.
    specialize (F (resolve asset) (in_map resolve _ _ (proj1 (list_elem_of_In _ _) A))).
    congruence.
  - split; [reflexivity|]. intros u. apply cache_match_open.
Qed.
End ServiceWorkerFacts.


Lemma fetch_writes_only_the_tile_cache_witness :
  let shell := [(CACHE_NAME, {[ lit "https://app.example/" := 200 ]})] in
  includes (lit "https://a.tile.openstreetmap.org/13/1/2.png") tileHost = false
  /\ cache_match N CACHE_NAME (lit "https://app.example/")
       (snd (onFetch N (fun _ => Some 200)
               (lit "https://a.basemaps.cartocdn.com/dark_all/16/1/2.png") shell))
     = Some 200.
Proof.
  split; [vm_compute; reflexivity|].
  rewrite (fetch_writes_only_the_tile_cache N (fun _ => Some 200)
             (lit "https://a.basemaps.cartocdn.com/dark_all/16/1/2.png")
             CACHE_NAME (lit "https://app.example/")
             [(CACHE_NAME, {[ lit "https://app.example/" := 200 ]})]).
  - vm_compute. reflexivity.
  - vm_compute. discriminate.
Defined.

Lemma installed_assets_need_no_network_witness :
  let resolve := fromOrigin (lit "https://app.example") in
  let installed := onInstall N statusOk resolve (fun _ => Some 200) [] in
  fst installed = true
  /\ exists r',
       onFetch N (fun _ => None) (lit "https://app.example/index.html") (snd installed)
       = (Some r', snd installed).
Proof.
  split; [vm_compute; reflexivity|].
  apply (installed_assets_need_no_network N statusOk (fromOrigin (lit "https://app.example"))
           (fun _ => Some 200) [] (lit "/index.html")).
  - vm_compute. reflexivity.
  - unfold ASSETS_TO_CACHE. set_solver.
  - vm_compute. reflexivity.
Defined.

Lemma install_is_all_or_nothing_witness :
  let resolve := fromOrigin (lit "https://app.example") in
  let installed := onInstall N statusOk resolve devServer [] in
  devServer (lit "https://app.example/index.html") = Some 200
  /\ fst installed = false
  /\ forall u, cache_match N CACHE_NAME u (snd installed) = cache_match N CACHE_NAME u [].
Proof.
  split; [vm_compute; reflexivity|].
  apply (install_is_all_or_nothing N statusOk (fromOrigin (lit "https://app.example"))
           devServer [] (lit "/src/main.tsx")).
  - unfold ASSETS_TO_CACHE. set_solver.
  - vm_compute. reflexivity.
Defined.

(** ** Locating *)



Lemma step_isLocating (k : Screen) (e : Event) (s : State) :
  isLocating s = true ->
  isLocateAnswer e = false ->
  isLocating (step k e s) = true.
Proof.
  intros L A. destruct k, e as [| | |[]| | | | | | | | | | | | |]; try discriminate A;
    unfold_handlers; rewrite ?L; split_cases; simpl; first [exact L | reflexivity].
Qed.

(** X23. A request that is never answered leaves [isLocating] raised for
    good: once it is raised, no run of events without an answer of the
    geolocation lowers it.  In the soft screen, whose request has no
    timeout, the locate button is disabled all that time: a press does
    nothing and raises no toast. *)
Theorem unanswered_request_keeps_locating (k : Screen) (es : list Event) (s : State) :
  isLocating s = true ->
  Forall (fun e => isLocateAnswer e = false) es ->
  isLocating (run k es s) = true
  /\ forall geolocation,
       Soft.onLocateButton geolocation (run k es s) = (run k es s, []).
Proof.
  intros L F.
  assert (R : isLocating (run k es s) = true).
  { revert s L. induction F as [|e es A _ IH]; intros s L; [exact L|].
    rewrite run_cons. apply IH, step_isLocating; assumption. }
  split; [exact R|]. intros g. unfold Soft.onLocateButton. rewrite R. reflexivity.
Qed.

Lemma unanswered_request_keeps_locating_witness :
  isLocating initialState = false
  /\ isLocating (run SoftScreen
                   [LocateRequest true; AddPinButton; MapClick london; LocateRequest true;
                    CancelPin]
                   initialState) = true.
Proof.
  split; [reflexivity|].
  apply (unanswered_request_keeps_locating SoftScreen
           [AddPinButton; MapClick london; LocateRequest true; CancelPin]
           (step SoftScreen (LocateRequest true) initialState)).
  - reflexivity.
  - repeat constructor.
Defined.
